(** * home-tour-maker: planning, render-job control, pan/zoom validation
      and audio assembly, embedded from the TypeScript sources.

    Conventions of the embedding.
    - A JavaScript [number] is a rational or one of the three non-finite
      values; arithmetic is exact (the rounding of IEEE doubles is
      idealised) and the sign of zero is not tracked.  The two products
      whose last bit shows, [startTime * 1000] under [Math.round] and
      [availableContentTime * 0.95] in the filler test, are rounded to
      the nearest double ([mul64]).  The statements below do not
      rest on the exactness: they are about orders, clamps and counts,
      or name the expression the program evaluates.
    - A string is the UTF-8 encoding of the program's string, taken to
      be well formed (no lone surrogate).  A search for ASCII text is
      the same on both, a code unit outside ASCII is read from its byte
      sequence.
    - A [throw] is the [Throw] outcome of [result]; a promise that
      rejects is the same outcome.
    - A JavaScript [Map] is an association list in insertion order.
    - Everything outside the process (HTTP replies, [Math.random], the
      file system, the ffmpeg executable) is an explicit oracle argument,
      and every external action is recorded in an event log. *)

From Stdlib Require Import List String Ascii Bool Arith ZArith QArith.
From Stdlib Require Import Qround Qabs Lia Lqa Permutation Sorted DecimalString.
Import ListNotations.

Open Scope nat_scope.
Open Scope list_scope.
Open Scope string_scope.

(* ================================================================== *)
(** ** JavaScript numbers *)
(* ================================================================== *)

Module Js.

Inductive number : Type :=
| Fin (q : Q)
| PosInfinity
| NegInfinity
| NaN.

Definition of_nat (n : nat) : number := Fin (inject_Z (Z.of_nat n)).
Definition of_Z (z : Z) : number := Fin (inject_Z z).

(** [Number.isFinite]. *)
Definition isFinite (x : number) : bool :=
  match x with Fin _ => true | _ => false end.

Definition Qsign (q : Q) : comparison := Qcompare q 0%Q.

Definition neg (x : number) : number :=
  match x with
  | Fin q => Fin (- q)
  | PosInfinity => NegInfinity
  | NegInfinity => PosInfinity
  | NaN => NaN
  end.

Definition add (x y : number) : number :=
  match x, y with
  | NaN, _ | _, NaN => NaN
  | Fin a, Fin b => Fin (a + b)
  | PosInfinity, NegInfinity | NegInfinity, PosInfinity => NaN
  | PosInfinity, _ | _, PosInfinity => PosInfinity
  | NegInfinity, _ | _, NegInfinity => NegInfinity
  end.

Definition sub (x y : number) : number := add x (neg y).

(** An infinity with the sign [c]; [Eq] (a zero factor) gives [NaN]. *)
Definition signedInf (c : comparison) : number :=
  match c with Gt => PosInfinity | Lt => NegInfinity | Eq => NaN end.

Definition flip (c : comparison) : comparison := CompOpp c.

Definition mul (x y : number) : number :=
  match x, y with
  | NaN, _ | _, NaN => NaN
  | Fin a, Fin b => Fin (a * b)
  | PosInfinity, Fin b => signedInf (Qsign b)
  | NegInfinity, Fin b => signedInf (flip (Qsign b))
  | Fin a, PosInfinity => signedInf (Qsign a)
  | Fin a, NegInfinity => signedInf (flip (Qsign a))
  | PosInfinity, PosInfinity | NegInfinity, NegInfinity => PosInfinity
  | PosInfinity, NegInfinity | NegInfinity, PosInfinity => NegInfinity
  end.

(** Division; a zero divisor is read as [+0], which is what every zero
    divisor of the embedded code is (a sum started from [0]). *)
Definition div (x y : number) : number :=
  match x, y with
  | NaN, _ | _, NaN => NaN
  | Fin a, Fin b =>
      if Qeq_bool b 0%Q then signedInf (Qsign a) else Fin (a / b)
  | Fin _, _ => Fin 0%Q
  | PosInfinity, Fin b =>
      match Qsign b with Lt => NegInfinity | _ => PosInfinity end
  | NegInfinity, Fin b =>
      match Qsign b with Lt => PosInfinity | _ => NegInfinity end
  | _, _ => NaN
  end.

(** [x < y]; false as soon as one side is [NaN]. *)
Definition ltb (x y : number) : bool :=
  match x, y with
  | NaN, _ | _, NaN => false
  | Fin a, Fin b => match Qcompare a b with Lt => true | _ => false end
  | Fin _, PosInfinity => true
  | Fin _, NegInfinity => false
  | PosInfinity, _ => false
  | NegInfinity, NegInfinity => false
  | NegInfinity, _ => true
  end.

(** [x <= y]. *)
Definition leb (x y : number) : bool :=
  match x, y with
  | NaN, _ | _, NaN => false
  | Fin a, Fin b => Qle_bool a b
  | NegInfinity, _ => true
  | _, PosInfinity => true
  | _, _ => false
  end.

(** [x > y]. *)
Definition gtb (x y : number) : bool := ltb y x.

(** [x === y] on numbers. *)
Definition eqb (x y : number) : bool :=
  match x, y with
  | Fin a, Fin b => Qeq_bool a b
  | PosInfinity, PosInfinity | NegInfinity, NegInfinity => true
  | _, _ => false
  end.

(** [Math.min] and [Math.max] of two arguments. *)
Definition min (x y : number) : number :=
  match x, y with
  | NaN, _ | _, NaN => NaN
  | _, _ => if leb x y then x else y
  end.

Definition max (x y : number) : number :=
  match x, y with
  | NaN, _ | _, NaN => NaN
  | _, _ => if leb x y then y else x
  end.

(** [Math.round]: the nearest integer, halves upwards. *)
Definition round (x : number) : number :=
  match x with
  | Fin q => Fin (inject_Z (Qfloor (q + (1 # 2))))
  | _ => x
  end.

(** [Math.pow] at a natural exponent. *)
Fixpoint pow (x : number) (n : nat) : number :=
  match n with
  | O => Fin 1%Q
  | S k => mul x (pow x k)
  end.

(** *** Products as doubles

    [binary64 q] is the double nearest to [q], ties going to the even
    significand, with gradual underflow below [2^-1022] and overflow to
    an infinity from [2^1024] on. *)

(** The nearest integer, a half going to the even one. *)
Definition roundHalfEven (x : Q) : Z :=
  let f := Qfloor x in
  match Qcompare (x - inject_Z f) (1 # 2) with
  | Lt => f
  | Gt => (f + 1)%Z
  | Eq => if Z.even f then f else (f + 1)%Z
  end.

(** [2 ^ e] for an integer [e]. *)
Definition pow2 (e : Z) : Q :=
  if (0 <=? e)%Z then inject_Z (2 ^ e) else / inject_Z (2 ^ (- e)).

(** [floor (log2 a)] for a positive [a]. *)
Definition exponentOf (a : Q) : Z :=
  let e0 := (Z.log2 (Qnum a) - Z.log2 (Zpos (Qden a)))%Z in
  if Qle_bool (pow2 e0) a then e0 else (e0 - 1)%Z.

Definition binary64 (q : Q) : number :=
  match Qcompare q 0 with
  | Eq => Fin 0%Q
  | c =>
      let a := Qabs q in
      let e := Z.max (exponentOf a) (-1022) in
      let ulp := pow2 (e - 52) in
      let r := Qred (inject_Z (roundHalfEven (a / ulp)) * ulp) in
      if Qle_bool (pow2 1024) r
      then match c with Gt => PosInfinity | _ => NegInfinity end
      else Fin (match c with Gt => r | _ => Qred (- r) end)
  end.

(** [x * y] as the double it is stored in. *)
Definition mul64 (x y : number) : number :=
  match mul x y with
  | Fin q => binary64 q
  | other => other
  end.

(** Equality of numbers as values (fractions are compared as rationals). *)
Definition same (x y : number) : Prop :=
  match x, y with
  | Fin a, Fin b => (a == b)%Q
  | PosInfinity, PosInfinity | NegInfinity, NegInfinity | NaN, NaN => True
  | _, _ => False
  end.

(** A finite number above zero. *)
Definition positive (x : number) : Prop :=
  match x with Fin q => (0 < q)%Q | _ => False end.

(** What a [throw] carries: the message of an [Error], a [TypeError]
    raised by the runtime, or the value [undefined]. *)
Inductive exn : Type :=
| Error (message : string)
| TypeError (message : string)
| Undefined.

Inductive result (A : Type) : Type :=
| Ok (a : A)
| Throw (e : exn).
Arguments Ok {A} a.
Arguments Throw {A} e.

Definition bind {A B : Type} (r : result A) (k : A -> result B) : result B :=
  match r with
  | Ok a => k a
  | Throw e => Throw e
  end.

(** Decimal text of a natural number, as template literals print it. *)
Definition string_of_nat (n : nat) : string :=
  NilEmpty.string_of_uint (Nat.to_uint n).

(** The names every object literal inherits from [Object.prototype];
    looked up in a table they give a value that is no table entry. *)
Definition inheritedNames : list string :=
  ["constructor"; "__proto__"; "hasOwnProperty"; "isPrototypeOf";
   "propertyIsEnumerable"; "toLocaleString"; "toString"; "valueOf";
   "__defineGetter__"; "__defineSetter__"; "__lookupGetter__";
   "__lookupSetter__"].

(** [String.prototype.includes]. *)
Fixpoint includes (needle hay : string) : bool :=
  if String.prefix needle hay then true
  else match hay with
       | EmptyString => false
       | String _ rest => includes needle rest
       end.

End Js.

Notation "x <- c1 ;; c2" := (Js.bind c1 (fun x => c2))
  (at level 100, c1 at next level, right associativity).

(* ================================================================== *)
(** ** Scene planner ([src/pipeline/scene-plan.ts]) *)
(* ================================================================== *)

Module Planner.
Import Js.

Record ImageInput : Type := {
  path : string;
  room : option string;
  captureTime : option Z
}.

Record OutputConfig : Type := {
  output_path : string;
  aspect : string;
  resolution : string;
  targetSeconds : number;
  fps : option number
}.

Inductive SceneType : Type := veo | kenburns.

Definition SceneType_eqb (a b : SceneType) : bool :=
  match a, b with
  | veo, veo | kenburns, kenburns => true
  | _, _ => false
  end.

Record Scene : Type := {
  id : string;
  scene_room : string;
  images : list ImageInput;
  duration : number;
  type : SceneType;
  description : option string;
  focusPoints : option (list string)
}.

Record ScenePlan : Type := {
  scenes : list Scene;
  totalDuration : number;
  veoSegments : nat;
  kenBurnsSegments : nat
}.

(** [ScenePlannerOptions]: every field may be left out. *)
Record ScenePlannerOptions : Type := {
  opt_preferVeoOverKenBurns : option bool;
  opt_maxVeoSegments : option number;
  opt_minSegmentDuration : option number;
  opt_maxSegmentDuration : option number;
  opt_crossfadeDuration : option number
}.

(** [Required<ScenePlannerOptions>], the planner's [this.options]. *)
Record Options : Type := {
  preferVeoOverKenBurns : bool;
  maxVeoSegments : number;
  minSegmentDuration : number;
  maxSegmentDuration : number;
  crossfadeDuration : number
}.

Definition orElse {A : Type} (o : option A) (d : A) : A :=
  match o with Some a => a | None => d end.

(** The constructor: [options.x ?? default]. *)
Definition constructor (options : ScenePlannerOptions) : Options := {|
  preferVeoOverKenBurns := orElse (opt_preferVeoOverKenBurns options) true;
  maxVeoSegments := orElse (opt_maxVeoSegments options) (of_nat 15);
  minSegmentDuration := orElse (opt_minSegmentDuration options) (of_nat 4);
  maxSegmentDuration := orElse (opt_maxSegmentDuration options) (of_nat 8);
  crossfadeDuration := orElse (opt_crossfadeDuration options) (Fin (3 # 4))
|}.

Definition noOptions : ScenePlannerOptions :=
  {| opt_preferVeoOverKenBurns := None; opt_maxVeoSegments := None;
     opt_minSegmentDuration := None; opt_maxSegmentDuration := None;
     opt_crossfadeDuration := None |}.

Record TimingConstraints : Type := {
  targetDuration : number;
  availableContentTime : number;
  idealSegmentDuration : number;
  timing_maxVeoSegments : number;
  crossfadeTime : number;
  roomCount : nat
}.

(** *** [Map<string, ImageInput[]>] in insertion order *)

Definition RoomMap : Type := list (string * list ImageInput).

Fixpoint map_get (k : string) (m : RoomMap) : option (list ImageInput) :=
  match m with
  | [] => None
  | (k', v) :: rest => if k' =? k then Some v else map_get k rest
  end.

Definition map_has (k : string) (m : RoomMap) : bool :=
  match map_get k m with Some _ => true | None => false end.

(** [Map.set]: an existing key keeps its place, a new key goes last. *)
Fixpoint map_set (k : string) (v : list ImageInput) (m : RoomMap) : RoomMap :=
  match m with
  | [] => [(k, v)]
  | (k', v') :: rest =>
      if k' =? k then (k', v) :: rest else (k', v') :: map_set k v rest
  end.

Definition map_delete (k : string) (m : RoomMap) : RoomMap :=
  filter (fun kv => negb (fst kv =? k)) m.

(** [roomGroups.get(k)!.push(image)]: the array stored under [k] grows in
    place; on a missing key the call is on [undefined] and throws. *)
Definition push_at (k : string) (image : ImageInput) (m : RoomMap)
  : result RoomMap :=
  match map_get k m with
  | Some group => Ok (map_set k (group ++ [image]) m)
  | None => Throw (TypeError "Cannot read properties of undefined (reading 'push')")
  end.

(** *** [groupImagesByRoom] *)

Definition roomOrder : list string :=
  ["exterior"; "entry"; "living"; "kitchen"; "bedroom"; "bathroom"; "backyard"].

Definition initialGroups : RoomMap :=
  map_set "other" []
    (fold_left (fun m r => map_set r [] m) roomOrder []).

(** [image.room || 'other']: a missing or empty label is falsy. *)
Definition roomOf (image : ImageInput) : string :=
  match room image with
  | Some EmptyString => "other"
  | Some r => r
  | None => "other"
  end.

(** One turn of the grouping loop:
    [(roomGroups.get(room) || roomGroups.get('other')!).push(image)]. *)
Definition groupImage (m : RoomMap) (image : ImageInput) : result RoomMap :=
  let r := roomOf image in
  if map_has r m then push_at r image m else push_at "other" image m.

Fixpoint groupAll (images : list ImageInput) (m : RoomMap) : result RoomMap :=
  match images with
  | [] => Ok m
  | image :: rest => m' <- groupImage m image ;; groupAll rest m'
  end.

(** Remove empty groups except ['other']. *)
Definition removeEmptyGroups (m : RoomMap) : RoomMap :=
  filter (fun kv => negb ((List.length (snd kv) =? 0)%nat && negb (fst kv =? "other"))) m.

(** The List.length of the array an entry of [sortedRooms] points to; the
    entries share their arrays with the map, so it is read from the map. *)
Definition groupLength (m : RoomMap) (k : string) : nat :=
  match map_get k m with Some g => List.length g | None => 0 end.

(** Stable sort, smallest key first ([Array.prototype.sort] is stable). *)
Fixpoint insertBy {A : Type} (key : A -> nat) (x : A) (l : list A) : list A :=
  match l with
  | [] => [x]
  | y :: ys => if (key x <=? key y)%nat then x :: y :: ys
               else y :: insertBy key x ys
  end.

Fixpoint sortBy {A : Type} (key : A -> nat) (l : list A) : list A :=
  match l with
  | [] => []
  | x :: xs => insertBy key x (sortBy key xs)
  end.

Fixpoint redistributeLoop (otherImages : list ImageInput)
  (sortedRooms : list string) (m : RoomMap) : result RoomMap :=
  match otherImages with
  | [] => Ok m
  | image :: rest =>
      match sortedRooms with
      | targetRoom :: _ =>
          m' <- push_at targetRoom image m ;;
          redistributeLoop rest (sortBy (groupLength m') sortedRooms) m'
      | [] =>
          let m1 := if map_has "living" m then m else map_set "living" [] m in
          m2 <- push_at "living" image m1 ;;
          redistributeLoop rest [] m2
      end
  end.

Definition redistributeOtherImages (otherImages : list ImageInput)
  (m : RoomMap) : result RoomMap :=
  let candidates :=
    filter (fun kv => negb (fst kv =? "other") && (0 <? List.length (snd kv))%nat) m in
  let sortedRooms := sortBy (groupLength m) (map fst candidates) in
  redistributeLoop otherImages sortedRooms m.

Definition groupImagesByRoom (images : list ImageInput) : result RoomMap :=
  m1 <- groupAll images initialGroups ;;
  let m2 := removeEmptyGroups m1 in
  let otherImages := orElse (map_get "other" m2) [] in
  if (0 <? List.length otherImages)%nat then
    m3 <- redistributeOtherImages otherImages m2 ;;
    Ok (map_delete "other" m3)
  else Ok m2.

(** *** [calculateTiming] *)

Definition calculateTiming (options : Options) (outputConfig : OutputConfig)
  (roomCount : nat) : TimingConstraints :=
  let estimatedSegments :=
    min (add (of_nat roomCount) (of_nat 2))
        (mul (maxVeoSegments options) (Fin (3 # 2))) in
  let crossfadeTime :=
    mul (max (of_nat 0) (sub estimatedSegments (of_nat 1)))
        (crossfadeDuration options) in
  let availableContentTime := sub (targetSeconds outputConfig) crossfadeTime in
  let idealSegmentDuration :=
    max (minSegmentDuration options)
        (min (maxSegmentDuration options)
             (div availableContentTime (of_nat roomCount))) in
  {| targetDuration := targetSeconds outputConfig;
     availableContentTime := availableContentTime;
     idealSegmentDuration := idealSegmentDuration;
     timing_maxVeoSegments := maxVeoSegments options;
     crossfadeTime := crossfadeTime;
     roomCount := roomCount |}.

(** *** [createScenes] *)

(** The static per-room tables, as [table[room] || fallback] reads
    them: the entry of the room, the fallback for a name the table does
    not have, and [None] for a name inherited from [Object.prototype],
    where the lookup gives that member (a function or the prototype
    itself), which is truthy and has no element at any index. *)
Definition descriptions (room : string) : option (list string) :=
  if room =? "exterior" then
    Some ["Stunning curb appeal and architectural details"]
  else if room =? "entry" then Some ["Welcoming entrance with elegant details"]
  else if room =? "living" then
    Some ["Spacious living area with natural light";
          "Comfortable living space with great flow"]
  else if room =? "kitchen" then
    Some ["Chef's kitchen with premium finishes";
          "Kitchen island and cooking area"]
  else if room =? "bedroom" then
    Some ["Peaceful bedroom retreat"; "Master suite with ample space"]
  else if room =? "bathroom" then Some ["Spa-like bathroom with luxury finishes"]
  else if room =? "backyard" then Some ["Private outdoor entertainment space"]
  else if existsb (String.eqb room) inheritedNames then None
  else Some ["Beautiful space with attention to detail"].

(** [generateSceneDescription]; an index read from an inherited member
    is [undefined]. *)
Definition generateSceneDescription (room : string)
  (sceneIndex totalScenes : nat) : option string :=
  match descriptions room with
  | Some roomDescriptions =>
      if (totalScenes =? 1)%nat then nth_error roomDescriptions 0
      else nth_error roomDescriptions (sceneIndex mod List.length roomDescriptions)
  | None => None
  end.

Definition focusPointsByRoom (room : string) : option (list (list string)) :=
  if room =? "exterior" then
    Some [["architectural facade"; "landscaping"; "entrance appeal"]]
  else if room =? "entry" then
    Some [["entryway details"; "lighting fixtures"; "flooring transition"]]
  else if room =? "living" then
    Some [["seating arrangement"; "natural light"; "room flow"];
          ["fireplace area"; "built-ins"; "ceiling details"]]
  else if room =? "kitchen" then
    Some [["island centerpiece"; "appliance suite"; "countertop materials"];
          ["cabinet details"; "backsplash design"; "lighting features"]]
  else if room =? "bedroom" then
    Some [["bed placement"; "window views"; "closet access"];
          ["sitting area"; "built-in features"; "natural light"]]
  else if room =? "bathroom" then
    Some [["vanity details"; "shower/tub area"; "fixture quality"]]
  else if room =? "backyard" then
    Some [["outdoor living space"; "landscaping features"; "privacy elements"]]
  else if existsb (String.eqb room) inheritedNames then None
  else Some [["key features"; "design details"; "spatial flow"]].

(** [generateFocusPoints]; [None] is [undefined]. *)
Definition generateFocusPoints (room : string) (sceneImages : list ImageInput)
  (sceneIndex : nat) : option (list string) :=
  match focusPointsByRoom room with
  | Some roomFocus => nth_error roomFocus (sceneIndex mod List.length roomFocus)
  | None => None
  end.

(** [Math.ceil(a / b)] on counts, for a positive [b]. *)
Definition ceilDiv (a b : nat) : nat := (a + b - 1) / b.

(** [Array.prototype.slice(from, to)] with indices inside or past the end. *)
Definition slice {A : Type} (from to : nat) (l : list A) : list A :=
  firstn (to - from) (skipn from l).

Definition createRoomScenes (room : string) (roomImages : list ImageInput)
  (timing : TimingConstraints) (startIndex : nat) : list Scene :=
  if (4 <? List.length roomImages)%nat && negb (room =? "exterior") then
    let scenesNeeded := ceilDiv (List.length roomImages) 3 in
    let imagesPerScene := ceilDiv (List.length roomImages) scenesNeeded in
    map (fun i =>
           let sceneImages :=
             slice (i * imagesPerScene) ((i + 1) * imagesPerScene) roomImages in
           {| id := room ++ "_" ++ string_of_nat (i + 1);
              scene_room := room;
              images := sceneImages;
              duration := idealSegmentDuration timing;
              type := veo;
              description := generateSceneDescription room i scenesNeeded;
              focusPoints := generateFocusPoints room sceneImages i |})
        (seq 0 scenesNeeded)
  else
    [ {| id := room;
         scene_room := room;
         images := roomImages;
         duration := idealSegmentDuration timing;
         type := veo;
         description := generateSceneDescription room 0 1;
         focusPoints := generateFocusPoints room roomImages 0 |} ].

Fixpoint createScenesFrom (entries : RoomMap) (timing : TimingConstraints)
  (sceneIndex : nat) : list Scene :=
  match entries with
  | [] => []
  | (room, roomImages) :: rest =>
      if (List.length roomImages =? 0)%nat then
        createScenesFrom rest timing sceneIndex
      else
        let roomScenes := createRoomScenes room roomImages timing sceneIndex in
        roomScenes ++ createScenesFrom rest timing (sceneIndex + List.length roomScenes)
  end.

Definition createScenes (roomGroups : RoomMap) (timing : TimingConstraints)
  : list Scene :=
  createScenesFrom roomGroups timing 0.

(** *** [optimizeScenes] *)

Definition veoPriority : list string :=
  ["exterior"; "living"; "kitchen"; "bedroom"; "entry"; "bathroom"; "backyard"].

Fixpoint indexOf (x : string) (l : list string) : option nat :=
  match l with
  | [] => None
  | y :: ys => if y =? x then Some 0
               else match indexOf x ys with Some i => Some (S i) | None => None end
  end.

(** [indexOf(room)], with [-1] replaced by [999]. *)
Definition priorityOfRoom (room : string) : nat :=
  match indexOf room veoPriority with Some i => i | None => 999 end.

Definition priorityOf (s : Scene) : nat := priorityOfRoom (scene_room s).

Definition withType (s : Scene) (t : SceneType) : Scene :=
  {| id := id s; scene_room := scene_room s; images := images s;
     duration := duration s; type := t;
     description := description s; focusPoints := focusPoints s |}.

Definition withDuration (s : Scene) (d : number) : Scene :=
  {| id := id s; scene_room := scene_room s; images := images s;
     duration := d; type := type s;
     description := description s; focusPoints := focusPoints s |}.

(** First pass.  Returns the updated scenes with the final values of
    [veoSegmentsUsed] and [totalDuration]. *)
Fixpoint assignTechniques (options : Options) (maxVeo : number)
  (sortedScenes : list Scene) (veoSegmentsUsed : nat) (total : number)
  : list Scene * nat * number :=
  match sortedScenes with
  | [] => ([], veoSegmentsUsed, total)
  | scene :: rest =>
      let '(scene', used') :=
        if ltb (of_nat veoSegmentsUsed) maxVeo && preferVeoOverKenBurns options
        then (withType scene veo, S veoSegmentsUsed)
        else (withDuration (withType scene kenburns)
                (min (duration scene) (of_nat 6)), veoSegmentsUsed) in
      let '(rest', usedEnd, totalEnd) :=
        assignTechniques options maxVeo rest used' (add total (duration scene')) in
      (scene' :: rest', usedEnd, totalEnd)
  end.

(** [scenes.reduce((sum, scene) => sum + scene.duration, 0)]. *)
Definition sumDurations (l : list Scene) : number :=
  fold_left (fun sum scene => add sum (duration scene)) l (of_nat 0).

(** [adjustSceneDurations].  The rescaled durations are exact here, so
    they add up to [target] when no clamp applies; on doubles they need
    not.  The clamps themselves are the same on both. *)
Definition adjustSceneDurations (l : list Scene) (target : number) : list Scene :=
  let currentDuration := sumDurations l in
  let adjustmentFactor := div target currentDuration in
  map (fun scene =>
         let newDuration := mul (duration scene) adjustmentFactor in
         match type scene with
         | veo => withDuration scene (max (of_nat 4) (min (of_nat 8) newDuration))
         | kenburns => withDuration scene (max (of_nat 3) (min (of_nat 10) newDuration))
         end) l.

(** The filler built from [sourceScene]; its one image is
    [sourceScene.images[sourceScene.images.length - 1]], read here as the
    last element of a list that the caller has checked to be longer
    than one. *)
Definition fillerScene (sourceScene : Scene) (additionalTime : number) : Scene :=
  {| id := id sourceScene ++ "_filler";
     scene_room := scene_room sourceScene;
     images := skipn (List.length (images sourceScene) - 1) (images sourceScene);
     duration := min additionalTime (of_nat 6);
     type := kenburns;
     description := Some ("Additional view of " ++ scene_room sourceScene);
     focusPoints := Some ["architectural details"; "ambiance"] |}.

Definition addFillerScenes (l : list Scene) (additionalTime : number) : list Scene :=
  let scenesWithMultipleImages :=
    filter (fun s => (1 <? List.length (images s))%nat) l in
  match scenesWithMultipleImages with
  | sourceScene :: _ =>
      if gtb additionalTime (of_nat 3)
      then l ++ [fillerScene sourceScene additionalTime]
      else l
  | [] => l
  end.

(** [optimizeScenes].  The product [availableContentTime * 0.95] of
    the filler test is the double the program compares with, [0.95]
    being the double of that name.  The total of the first pass is the
    exact sum; on doubles the two tests can fall the other way when
    their sides are an ulp apart, which changes whether the durations
    are rescaled or a filler is added, not what either step does. *)
Definition optimizeScenes (options : Options) (l : list Scene)
  (timing : TimingConstraints) : list Scene :=
  let maxVeo := timing_maxVeoSegments timing in
  let available := availableContentTime timing in
  let sortedScenes := sortBy priorityOf l in
  let '(pass1, _, total) :=
    assignTechniques options maxVeo sortedScenes 0 (of_nat 0) in
  let pass2 :=
    if negb (eqb total available) then adjustSceneDurations pass1 available
    else pass1 in
  if ltb total (mul64 available (binary64 (95 # 100)))
  then addFillerScenes pass2 (sub available total)
  else pass2.

Definition buildScenePlan (l : list Scene) : ScenePlan :=
  {| scenes := l;
     totalDuration := sumDurations l;
     veoSegments := List.length (filter (fun s => SceneType_eqb (type s) veo) l);
     kenBurnsSegments := List.length (filter (fun s => SceneType_eqb (type s) kenburns) l) |}.

(** [planScenes]; the progress callbacks of the context are not modelled. *)
Definition planScenes (options : Options) (inputImages : list ImageInput)
  (outputConfig : OutputConfig) : result ScenePlan :=
  roomGroups <- groupImagesByRoom inputImages ;;
  let timing := calculateTiming options outputConfig (List.length roomGroups) in
  let l := createScenes roomGroups timing in
  Ok (buildScenePlan (optimizeScenes options l timing)).

(** *** Vocabulary of the statements about plans *)

(** Every image held by a room map, group after group. *)
Definition allImages (m : RoomMap) : list ImageInput := flat_map snd m.

Definition keys (m : RoomMap) : list string := map fst m.

(** Every image shown by a list of scenes, scene after scene. *)
Definition shownImages (l : list Scene) : list ImageInput := flat_map images l.

Definition isVeo (s : Scene) : bool := SceneType_eqb (type s) veo.

(** What no pass of the optimizer changes in a scene. *)
Definition content (s : Scene) : string * string * list ImageInput :=
  (id s, scene_room s, images s).

(** The running total of the first pass, continued over [l]. *)
Definition sumFrom (total : number) (l : list Scene) : number :=
  fold_left (fun sum scene => add sum (duration scene)) l total.

(** The scenes show every input image exactly once. *)
Definition partitions (l : list Scene) (input : list ImageInput) : Prop :=
  Permutation (shownImages l) input.

(** An entry scene never comes before a bedroom scene. *)
Definition entryAfterBedroom (l : list Scene) : Prop :=
  forall i j e b,
    nth_error l i = Some e -> scene_room e = "entry" ->
    nth_error l j = Some b -> scene_room b = "bedroom" ->
    j < i.

(** The order the first pass sorts by. *)
Definition byPriority (a b : Scene) : Prop := priorityOf a <= priorityOf b.


(** A count as a rational. *)
Definition Qn (n : nat) : Q := inject_Z (Z.of_nat n).



(** *** Vocabulary of the statements about room groups *)

(** The input images whose label reads [r], in input order. *)
Definition labelled (r : string) (input : list ImageInput) : list ImageInput :=
  filter (fun image => roomOf image =? r) input.

(** The label of the image is one of the seven rooms of [roomOrder]. *)
Definition knownRoom (image : ImageInput) : bool :=
  existsb (String.eqb (roomOf image)) roomOrder.

(** The input images without a label, or with one that is no room of
    [roomOrder], in input order. *)
Definition unlabelled (input : list ImageInput) : list ImageInput :=
  filter (fun image => negb (knownRoom image)) input.

(** The rooms of [roomOrder] that label at least one input image, in
    the order of [roomOrder]. *)
Definition roomsPresent (input : list ImageInput) : list string :=
  filter (fun r => (0 <? List.length (labelled r input))%nat) roomOrder.

(** A scene with at least one image, and with at most four unless it
    shows the exterior. *)
Definition wellSized (s : Scene) : Prop :=
  1 <= List.length (images s)
  /\ (scene_room s <> "exterior" -> List.length (images s) <= 4).

(** The scene lasts a finite time between [lo] and [hi] seconds. *)
Definition lastsBetween (lo hi : Q) (s : Scene) : Prop :=
  exists d, duration s = Fin d /\ (lo <= d /\ d <= hi)%Q.

(** The limits the second pass of [optimizeScenes] clamps to. *)
Definition inRange (s : Scene) : Prop :=
  lastsBetween 3 10 s /\ (type s = veo -> lastsBetween 4 8 s).

(** The group the first loop of [groupImagesByRoom] files an image
    under, for a map with the keys of [m]. *)
Definition bucket (m : RoomMap) (image : ImageInput) : string :=
  if map_has (roomOf image) m then roomOf image else "other".

End Planner.

(* ================================================================== *)
(** ** Render job controller ([VeoClient]) *)
(* ================================================================== *)

Module Veo.
Import Js.

Record VeoError : Type := { code : Z; message : string }.

Record Video : Type := {
  gcsUri : option string;
  mimeType : option string;
  bytesBase64Encoded : option string
}.

Record PredictionVideo : Type := { video_gcsUri : string }.

Record Prediction : Type := {
  videoUri : option string;
  video : option PredictionVideo
}.

Record Response : Type := {
  videos : option (list Video);
  predictions : option (list Prediction)
}.

Record VeoOperation : Type := {
  name : string;
  done : option bool;
  response : option Response;
  error : option VeoError
}.

Record RefImage : Type := {
  ref_gcsUri : string; ref_mimeType : string; ref_role : string
}.

Record VeoParams : Type := {
  projectId : string;
  location : string;
  model : string;
  aspect : string;
  resolution : option string;
  duration : number;
  generateAudio : option bool;
  seed : option number;
  imageGcsUri : string;
  lastFrameGcsUri : option string;
  refImages : option (list RefImage);
  storageUri : option string;
  prompt : string
}.

Record VeoResult : Type := {
  videoPath : string;
  lastFramePath : option string;
  result_duration : number
}.

(** What [fetch] resolves to: [response.ok], [response.status],
    [response.text()] and [response.json()]. *)
Record HttpResponse : Type := {
  ok : bool;
  status : nat;
  text : string;
  json : result VeoOperation
}.

(** The body of the submission request, without the mime types. *)
Record RequestBody : Type := {
  body_prompt : string;
  body_image : option string;
  body_referenceImages : list (string * string);
  body_lastFrame : option string;
  body_durationSeconds : number;
  body_aspectRatio : string;
  body_generateAudio : bool
}.

(** Everything the client does to the outside, in order. *)
Inductive Event : Type :=
| Submit (url : string) (body : RequestBody)
| Poll (operationName : string) (attempt : nat)
| Sleep (ms : number)
| Download (bucket object destination : string)
| ExtractLastFrame (videoFile : string) (seek : number) (output : string).

(** The outside world.  [submitReply n] answers the submission made
    after [n] earlier ones, [pollReply k] answers the [k]-th poll of a
    job, [random n] is the value of the [n]-th [Math.random()], and
    [join] is [path.join], which normalises the path it builds. *)
Record World : Type := {
  getAccessToken : result string;
  submitReply : nat -> result HttpResponse;
  pollReply : nat -> result HttpResponse;
  random : nat -> Q;
  storageDownload : string -> string -> result unit;
  ffmpegExtract : string -> result unit;
  tmpDir : string;
  freshName : string;
  join : string -> string -> string
}.

Record St : Type := {
  randomsDrawn : nat;
  submissions : nat;
  trace : list Event
}.

Definition initial : St := {| randomsDrawn := 0; submissions := 0; trace := [] |}.

(** A computation of the client: it may throw, and the state reached is
    kept either way. *)
Definition M (A : Type) : Type := St -> result A * St.

Definition ret {A : Type} (a : A) : M A := fun st => (Ok a, st).
Definition throw {A : Type} (e : exn) : M A := fun st => (Throw e, st).
Definition bindM {A B : Type} (c : M A) (k : A -> M B) : M B :=
  fun st => match c st with
            | (Ok a, st') => k a st'
            | (Throw e, st') => (Throw e, st')
            end.
Definition lift {A : Type} (r : result A) : M A := fun st => (r, st).

Definition emit (e : Event) : M unit :=
  fun st => (Ok tt, {| randomsDrawn := randomsDrawn st;
                       submissions := submissions st;
                       trace := trace st ++ [e] |}).

Definition mathRandom (w : World) : M number :=
  fun st => (Ok (Fin (random w (randomsDrawn st))),
             {| randomsDrawn := S (randomsDrawn st);
                submissions := submissions st;
                trace := trace st |}).

Definition delay (ms : number) : M unit := emit (Sleep ms).

Definition fetchSubmit (w : World) (url : string) (body : RequestBody)
  : M HttpResponse :=
  fun st => (submitReply w (submissions st),
             {| randomsDrawn := randomsDrawn st;
                submissions := S (submissions st);
                trace := trace st ++ [Submit url body] |}).

Definition fetchPoll (w : World) (operationName : string) (attempt : nat)
  : M HttpResponse :=
  bindM (emit (Poll operationName attempt)) (fun _ => lift (pollReply w attempt)).

End Veo.

Notation "x <~ c1 ;; c2" := (Veo.bindM c1 (fun x => c2))
  (at level 100, c1 at next level, right associativity).
Notation "c1 ;;; c2" := (Veo.bindM c1 (fun _ => c2))
  (at level 100, right associativity).

Module VeoClient.
Import Js Veo.

(** A string in a condition: truthy unless empty. *)
Definition nonEmpty (s : string) : bool :=
  match s with EmptyString => false | _ => true end.

Definition truthyString (o : option string) : option string :=
  match o with
  | Some s => if nonEmpty s then Some s else None
  | None => None
  end.

(** *** [pollOperation] *)

(** The two failures [pollOperation] reports about the job itself: the
    service ended the operation with an error, or the attempts ran out. *)
Definition OperationFailed (serviceMessage : string) : exn :=
  Error ("Veo generation failed: " ++ serviceMessage).

Definition OperationTimedOut : exn := Error "Veo operation timed out".

(** [Math.min(1000 * Math.pow(1.5, attempts), 30000)]. *)
Definition baseDelay (attempts : nat) : number :=
  min (mul (of_Z 1000) (pow (Fin (3 # 2)) attempts)) (of_Z 30000).

(** The body of the polling loop once [attempts] has been incremented;
    [Some operation] is the [return], [None] falls through to the next
    turn of the loop. *)
Definition pollOnce (w : World) (operationName token : string) (attempts : nat)
  : M (option VeoOperation) :=
  response <~ fetchPoll w operationName attempts ;;
  if negb (ok response) then
    throw (Error ("Failed to poll operation: " ++ string_of_nat (status response)))
  else
    operation <~ lift (json response) ;;
    match done operation with
    | Some true =>
        match error operation with
        | Some e => throw (OperationFailed (message e))
        | None => ret (Some operation)
        end
    | _ =>
        r <~ mathRandom w ;;
        let jitter := mul r (of_Z 1000) in
        delay (add (baseDelay attempts) jitter) ;;;
        ret None
    end.

(** The delay slept after attempt [attempts] when [Math.random()]
    returned [r]. *)
Definition backoff (attempts : nat) (r : Q) : number :=
  add (baseDelay attempts) (mul (Fin r) (of_Z 1000)).

(** [while (attempts < maxAttempts) { attempts++; ... }] followed by the
    time-out [throw].  [fuel] bounds the number of turns; [None] means
    the fuel ran out before the loop ended. *)
Fixpoint pollLoop (w : World) (operationName token : string)
  (maxAttempts fuel attempts : nat) (st : St)
  : option (result VeoOperation * St) :=
  if (attempts <? maxAttempts)%nat then
    match fuel with
    | O => None
    | S fuel' =>
        match pollOnce w operationName token (S attempts) st with
        | (Ok (Some operation), st') => Some (Ok operation, st')
        | (Ok None, st') =>
            pollLoop w operationName token maxAttempts fuel' (S attempts) st'
        | (Throw e, st') => Some (Throw e, st')
        end
    end
  else Some (Throw OperationTimedOut, st).

(** [pollOperation]; [maxAttempts] turns of fuel always suffice
    (see [pollLoop_terminates]), so the last branch is never taken. *)
Definition pollOperation (w : World) (operationName token : string)
  (maxAttempts : nat) : M VeoOperation :=
  fun st =>
    match pollLoop w operationName token maxAttempts maxAttempts 0 st with
    | Some outcome => outcome
    | None => (Throw (Error "poll loop did not end"), st)
    end.

Definition defaultMaxAttempts : nat := 60.

(** *** [processResult] *)

(** [operation.response?.videos?.[0]] and the legacy counterpart. *)
Definition firstVideo (operation : VeoOperation) : option Video :=
  match response operation with
  | Some r => match videos r with Some (v :: _) => Some v | _ => None end
  | None => None
  end.

Definition firstPrediction (operation : VeoOperation) : option Prediction :=
  match response operation with
  | Some r => match predictions r with Some (p :: _) => Some p | _ => None end
  | None => None
  end.

Definition selectVideoUri (operation : VeoOperation) : result string :=
  match firstVideo operation with
  | Some v =>
      match truthyString (gcsUri v) with
      | Some uri => Ok uri
      | None => Throw (Error "No video GCS URI in Veo response")
      end
  | None =>
      match firstPrediction operation with
      | Some prediction =>
          match truthyString (videoUri prediction) with
          | Some uri => Ok uri
          | None =>
              match video prediction with
              | Some pv =>
                  if nonEmpty (video_gcsUri pv) then Ok (video_gcsUri pv)
                  else Throw (Error "No video URI in Veo response")
              | None => Throw (Error "No video URI in Veo response")
              end
          end
      | None => Throw (Error "No videos or predictions in Veo response")
      end
  end.

Definition isSlash (c : ascii) : bool := Ascii.eqb c "/"%char.

(** The line terminators, which the dot of a regular expression does
    not match: LF, CR, and U+2028 and U+2029, whose UTF-8 sequences are
    E2 80 A8 and E2 80 A9. *)
Definition isLineTerminator (c : ascii) : bool :=
  Ascii.eqb c "010"%char || Ascii.eqb c "013"%char.

Definition lineSeparator : string :=
  String "226"%char (String "128"%char (String "168"%char EmptyString)).

Definition paragraphSeparator : string :=
  String "226"%char (String "128"%char (String "169"%char EmptyString)).

(** A line terminator starts here. *)
Definition atLineTerminator (s : string) : bool :=
  match s with
  | EmptyString => false
  | String c _ =>
      isLineTerminator c || String.prefix lineSeparator s
      || String.prefix paragraphSeparator s
  end.

Fixpoint noLineTerminator (s : string) : bool :=
  match s with
  | EmptyString => true
  | String c rest => negb (atLineTerminator s) && noLineTerminator rest
  end.

(** Splits at the first slash: the text before it and the text after. *)
Fixpoint splitAtSlash (s : string) : option (string * string) :=
  match s with
  | EmptyString => None
  | String c rest =>
      if isSlash c then Some (EmptyString, rest)
      else match splitAtSlash rest with
           | Some (before, after) => Some (String c before, after)
           | None => None
           end
  end.

(** The match of [/^gs:\/\/([^\/]+)\/(.+)$/]: bucket and object path. *)
Definition parseGcsUri (uri : string) : option (string * string) :=
  if String.prefix "gs://" uri then
    match splitAtSlash (substring 5 (String.length uri - 5) uri) with
    | Some (bucket, object) =>
        if nonEmpty bucket && nonEmpty object && noLineTerminator object
        then Some (bucket, object) else None
    | None => None
    end
  else None.

(** [downloadFromGcs]; creating the output directory is part of the
    storage oracle. *)
Definition downloadFromGcs (w : World) (uri outputPath : string) : M unit :=
  match parseGcsUri uri with
  | None => throw (Error ("Invalid GCS URI: " ++ uri))
  | Some (bucket, object) =>
      emit (Download bucket object outputPath) ;;;
      lift (storageDownload w uri outputPath)
  end.

(** [String.prototype.replace] with a string pattern: the first
    occurrence only. *)
Fixpoint replaceFirst (pattern replacement s : string) : string :=
  if String.prefix pattern s then
    replacement ++ substring (String.length pattern)
                             (String.length s - String.length pattern) s
  else match s with
       | EmptyString => EmptyString
       | String c rest => String c (replaceFirst pattern replacement rest)
       end.

Definition extractLastFrame (w : World) (videoFile : string) (d : number)
  : M string :=
  let lastFrame := replaceFirst ".mp4" "_last_frame.png" videoFile in
  emit (ExtractLastFrame videoFile
          (max (of_nat 0) (sub d (Fin (4 # 100)))) lastFrame) ;;;
  lift (ffmpegExtract w videoFile) ;;;
  ret lastFrame.

(** [processResult].  The output file name embeds [Date.now()] and one
    [Math.random()]; the world supplies the name, the draw is counted. *)
Definition processResult (w : World) (operation : VeoOperation)
  (params : VeoParams) : M VeoResult :=
  videoGcsUri <~ lift (selectVideoUri operation) ;;
  _r <~ mathRandom w ;;
  let outputPath := join w (tmpDir w) (freshName w) in
  downloadFromGcs w videoGcsUri outputPath ;;;
  lastFrame <~ extractLastFrame w outputPath (duration params) ;;
  ret {| videoPath := outputPath;
         lastFramePath := Some lastFrame;
         result_duration := duration params |}.

(** *** [generateClip] *)

Definition requestUrl (params : VeoParams) : string :=
  "https://" ++ location params ++ "-aiplatform.googleapis.com/v1/projects/"
  ++ projectId params ++ "/locations/" ++ location params
  ++ "/publishers/google/models/" ++ model params ++ ":predictLongRunning".

Definition requestBody (params : VeoParams) : RequestBody :=
  let multi :=
    match refImages params with
    | Some (r :: rs) => true
    | _ => false
    end in
  {| body_prompt := prompt params;
     body_image := if multi then None else Some (imageGcsUri params);
     body_referenceImages :=
       if multi then
         (imageGcsUri params, "asset")
         :: map (fun r => (ref_gcsUri r, ref_role r))
                (match refImages params with Some rs => rs | None => [] end)
       else [];
     body_lastFrame := truthyString (lastFrameGcsUri params);
     body_durationSeconds := duration params;
     body_aspectRatio := if aspect params =? "16:9" then "16:9" else "9:16";
     body_generateAudio :=
       match generateAudio params with Some b => b | None => false end |}.

(** The submission itself: one POST, the status check, the decoded
    operation. *)
Definition submitRequest (w : World) (params : VeoParams) : M VeoOperation :=
  response <~ fetchSubmit w (requestUrl params) (requestBody params) ;;
  if negb (ok response) then
    throw (Error ("Veo API request failed: "
                  ++ string_of_nat (status response) ++ " " ++ text response))
  else lift (json response).

Definition generateClip (w : World) (params : VeoParams) : M VeoResult :=
  token <~ lift (getAccessToken w) ;;
  operation <~ submitRequest w params ;;
  polled <~ pollOperation w (name operation) token defaultMaxAttempts ;;
  processResult w polled params.

(** *** [withRetry] *)

(** The errors that are rethrown at once. *)
Definition nonRetryable (e : exn) : bool :=
  match e with
  | Error m | TypeError m =>
      includes "quota" m || includes "permission" m || includes "invalid" m
  | Undefined => false
  end.

(** [baseDelay * Math.pow(2, attempt - 1) + Math.random() * 1000]. *)
Definition retryDelay (base : number) (attempt : nat) (r : number) : number :=
  add (mul base (pow (of_nat 2) (attempt - 1))) (mul r (of_Z 1000)).

(** [for (attempt = 1; attempt <= maxRetries; attempt++)] and the final
    [throw lastError]; [fuel] as in [pollLoop]. *)
Fixpoint retryLoop {T : Type} (w : World) (operation : M T)
  (maxRetries : nat) (base : number) (fuel attempt : nat)
  (lastError : option exn) (st : St) : option (result T * St) :=
  if (attempt <=? maxRetries)%nat then
    match fuel with
    | O => None
    | S fuel' =>
        match operation st with
        | (Ok v, st1) => Some (Ok v, st1)
        | (Throw e, st1) =>
            if nonRetryable e then Some (Throw e, st1)
            else if (attempt <? maxRetries)%nat then
              match (r <~ mathRandom w ;; delay (retryDelay base attempt r)) st1 with
              | (_, st2) =>
                  retryLoop w operation maxRetries base fuel' (S attempt) (Some e) st2
              end
            else retryLoop w operation maxRetries base fuel' (S attempt) (Some e) st1
        end
    end
  else
    Some (match lastError with Some e => Throw e | None => Throw Undefined end, st).

Definition withRetry {T : Type} (w : World) (operation : M T)
  (maxRetries : nat) (base : number) : M T :=
  fun st =>
    match retryLoop w operation maxRetries base maxRetries 1 None st with
    | Some outcome => outcome
    | None => (Throw (Error "retry loop did not end"), st)
    end.

Definition defaultMaxRetries : nat := 3.
Definition defaultBaseDelay : number := of_Z 1000.

(** *** Reading a trace *)

(** The base delay as a rational: [1000 * 1.5 ^ attempts], capped. *)
Fixpoint powQ (q : Q) (n : nat) : Q :=
  match n with
  | O => 1%Q
  | S k => (q * powQ q k)%Q
  end.

Definition baseQ (attempts : nat) : Q :=
  let x := (inject_Z 1000 * powQ (3 # 2) attempts)%Q in
  if Qle_bool x (inject_Z 30000) then x else inject_Z 30000.

Definition isPoll (e : Event) : bool :=
  match e with Poll _ _ => true | _ => false end.

Definition isSubmit (e : Event) : bool :=
  match e with Submit _ _ => true | _ => false end.

Definition isDownload (e : Event) : bool :=
  match e with Download _ _ _ => true | _ => false end.

Definition pollCount (t : list Event) : nat := List.length (filter isPoll t).
Definition submitCount (t : list Event) : nat := List.length (filter isSubmit t).

(** The delays slept, in order. *)
Fixpoint sleeps (t : list Event) : list number :=
  match t with
  | [] => []
  | Sleep ms :: rest => ms :: sleeps rest
  | _ :: rest => sleeps rest
  end.

(** [Math.random()] returns a value in [0, 1). *)
Definition fairRandom (w : World) : Prop :=
  forall n, (0 <= random w n /\ random w n < 1)%Q.

(** A poll reply that leaves the job running. *)
Definition pending (reply : result HttpResponse) : Prop :=
  exists resp operation,
    reply = Ok resp /\ ok resp = true /\ json resp = Ok operation
    /\ done operation <> Some true.

(** A poll reply with [done = true] and an error payload. *)
Definition reportsFailure (reply : result HttpResponse) (e : VeoError) : Prop :=
  exists resp operation,
    reply = Ok resp /\ ok resp = true /\ json resp = Ok operation
    /\ done operation = Some true /\ error operation = Some e.

(** A poll reply with [done = true] and no error payload. *)
Definition reportsSuccess (reply : result HttpResponse) (operation : VeoOperation)
  : Prop :=
  exists resp,
    reply = Ok resp /\ ok resp = true /\ json resp = Ok operation
    /\ done operation = Some true /\ error operation = None.

(** A poll request that fails with [e]: [fetch] rejects, the status is
    not a success, or the body is not JSON. *)
Definition pollFails (reply : result HttpResponse) (e : exn) : Prop :=
  reply = Throw e
  \/ exists resp,
       reply = Ok resp
       /\ ((ok resp = false
            /\ e = Error ("Failed to poll operation: " ++ string_of_nat (status resp)))
           \/ (ok resp = true /\ json resp = Throw e)).

(** [d] turns of the polling loop that leave the job running, the first
    one being attempt [from + 1] and drawing the [r0]-th random number:
    each is a poll followed by its delay. *)
Fixpoint pendingRounds (w : World) (operationName : string) (r0 from d : nat)
  : list Event :=
  match d with
  | O => []
  | S d' =>
      Poll operationName (S from)
      :: Sleep (backoff (S from) (random w r0))
      :: pendingRounds w operationName (S r0) (S from) d'
  end.

Definition isSleep (e : Event) : bool :=
  match e with Sleep _ => true | _ => false end.

Definition isExtractLastFrame (e : Event) : bool :=
  match e with ExtractLastFrame _ _ _ => true | _ => false end.

Definition downloadCount (t : list Event) : nat := List.length (filter isDownload t).
Definition extractCount (t : list Event) : nat :=
  List.length (filter isExtractLastFrame t).

(** The submission made after [k] earlier ones fails with an error that
    [withRetry] retries. *)
Definition failsRetryably (w : World) (params : VeoParams) (k : nat) : Prop :=
  forall st, submissions st = k ->
    exists e, fst (submitRequest w params st) = Throw e /\ nonRetryable e = false.

(** The delays [withRetry] sleeps after its first [n] failed attempts,
    the first of them drawing the [r0]-th random number. *)
Definition retryDelays (w : World) (base : number) (r0 n : nat) : list number :=
  map (fun i => retryDelay base (S i) (Fin (random w (r0 + i)))) (seq 0 n).

(** An event of the polling loop: a poll or a delay. *)
Definition quiet (e : Event) : bool := isPoll e || isSleep e.

(** An outcome that ends [withRetry]: a value, or an error it does not
    retry. *)
Definition settled (r : result VeoOperation) : Prop :=
  match r with
  | Ok _ => True
  | Throw e => nonRetryable e = true
  end.

(** *** [uploadToGcs] and the shape of a storage URI *)

(** The file system and the storage service as [uploadToGcs] uses them. *)
Record Storage : Type := {
  readFile : string -> result string;
  save : string -> string -> string -> result unit
}.

(** [bucketName || this.context.config.veo?.bucketName]. *)
Definition chosenBucket (configBucket bucketName : option string) : option string :=
  match truthyString bucketName with
  | Some b => Some b
  | None => truthyString configBucket
  end.

Definition uploadToGcs (configBucket : option string) (storage : Storage)
  (localPath gcsPath : string) (bucketName : option string) : result string :=
  match chosenBucket configBucket bucketName with
  | None => Throw (Error "No GCS bucket specified")
  | Some bucket =>
      content <- readFile storage localPath ;;
      _ <- save storage bucket gcsPath content ;;
      Ok ("gs://" ++ bucket ++ "/" ++ gcsPath)
  end.

Fixpoint noSlash (s : string) : bool :=
  match s with
  | EmptyString => true
  | String c rest => negb (isSlash c) && noSlash rest
  end.

End VeoClient.

(* ================================================================== *)
(** ** Local process and file-system effects *)
(* ================================================================== *)

Module Fx.
Import Js.

(** An ffmpeg invocation as the fluent builder assembles it. *)
Record Command : Type := {
  inputs : list string;
  inputOptions : list string;
  videoCodec : option string;
  audioCodec : option string;
  audioBitrate : option string;
  noAudio : bool;
  complexFilter : option (list string * string);
  outputOptions : list string;
  output : string
}.

Definition ffmpeg (sources : list string) : Command :=
  {| inputs := sources; inputOptions := []; videoCodec := None;
     audioCodec := None; audioBitrate := None; noAudio := false;
     complexFilter := None; outputOptions := []; output := EmptyString |}.

Inductive Event : Type :=
| Mkdir (dir : string)
| WriteFile (file content : string)
| Unlink (file : string)
| Spawn (command : Command).

Definition isSpawn (e : Event) : bool :=
  match e with Spawn _ => true | _ => false end.

(** The machine the pipeline runs on.  [existsSync] answers for the
    files present when a run starts, [existsAtCleanup] for those present
    when the cleanup step looks. *)
Record World : Type := {
  existsSync : string -> bool;
  existsAtCleanup : string -> bool;
  mkdir : string -> result unit;
  writeFile : string -> result unit;
  run : Command -> result unit;
  numberToString : number -> string;
  dirname : string -> string;
  join : string -> string -> string;
  resolve : string -> string;
  now : string
}.

(** A computation with its log of external actions. *)
Definition Run (A : Type) : Type := result A * list Event.

Definition pure {A : Type} (a : A) : Run A := (Ok a, []).
Definition raise {A : Type} (e : exn) : Run A := (Throw e, []).
Definition act (e : Event) (r : result unit) : Run unit := (r, [e]).

Definition andThen {A B : Type} (c : Run A) (k : A -> Run B) : Run B :=
  match c with
  | (Ok a, t) => let (r, t') := k a in (r, (t ++ t')%list)
  | (Throw e, t) => (Throw e, t)
  end.

(** [try { c } finally { cleanup }] for a cleanup that does not throw. *)
Definition finally {A : Type} (c : Run A) (cleanup : list Event) : Run A :=
  (fst c, (snd c ++ cleanup)%list).

End Fx.

Notation "x <<- c1 ;; c2" := (Fx.andThen c1 (fun x => c2))
  (at level 100, c1 at next level, right associativity).
Notation "c1 >>> c2" := (Fx.andThen c1 (fun _ => c2))
  (at level 100, right associativity).

(* ================================================================== *)
(** ** Pan/zoom generator ([KenBurnsGenerator]) *)
(* ================================================================== *)

Module KenBurns.
Import Js Fx.

Inductive ZoomDirection : Type := zoomIn | zoomOut.
Inductive PanDirection : Type := panLeft | panRight | panUp | panDown | panNone.

Record KenBurnsParams : Type := {
  imagePath : string;
  outputPath : string;
  duration : number;
  width : number;
  height : number;
  zoomDirection : option ZoomDirection;
  panDirection : option PanDirection
}.

Record KenBurnsOptions : Type := {
  opt_fps : option number;
  opt_codec : option string;
  opt_crf : option number;
  opt_preset : option string
}.

Record Options : Type := {
  fps : number;
  codec : string;
  crf : number;
  preset : string
}.

Definition constructor (options : KenBurnsOptions) : Options := {|
  fps := match opt_fps options with Some x => x | None => of_nat 24 end;
  codec := match opt_codec options with Some x => x | None => "libx264" end;
  crf := match opt_crf options with Some x => x | None => of_nat 23 end;
  preset := match opt_preset options with Some x => x | None => "medium" end
|}.

Definition calculateZoom (direction : ZoomDirection) : number * number :=
  let minZoom := Fin 1%Q in
  let maxZoom := Fin (115 # 100) in
  match direction with
  | zoomIn => (minZoom, maxZoom)
  | zoomOut => (maxZoom, minZoom)
  end.

Record Pan : Type := { startX : string; startY : string; endX : string; endY : string }.

Definition calculatePan (direction : PanDirection) : Pan :=
  let centerX := "(iw-iw/zoom)/2" in
  let centerY := "(ih-ih/zoom)/2" in
  match direction with
  | panLeft => {| startX := "(iw-iw/zoom)*0.15"; startY := centerY;
                  endX := "(iw-iw/zoom)*(1-0.15)"; endY := centerY |}
  | panRight => {| startX := "(iw-iw/zoom)*(1-0.15)"; startY := centerY;
                   endX := "(iw-iw/zoom)*0.15"; endY := centerY |}
  | panUp => {| startX := centerX; startY := "(ih-ih/zoom)*0.15";
                endX := centerX; endY := "(ih-ih/zoom)*(1-0.15)" |}
  | panDown => {| startX := centerX; startY := "(ih-ih/zoom)*(1-0.15)";
                  endX := centerX; endY := "(ih-ih/zoom)*0.15" |}
  | panNone => {| startX := centerX; startY := centerY;
                  endX := centerX; endY := centerY |}
  end.

(** [!Number.isFinite(x) || x <= 0]. *)
Definition invalid (x : number) : bool :=
  negb (isFinite x) || leb x (of_nat 0).

Definition invalidDuration (w : World) (d : number) : exn :=
  Error ("Invalid duration: " ++ numberToString w d
         ++ ". Must be a positive finite number.").

Definition invalidDimensions (w : World) (wd ht : number) : exn :=
  Error ("Invalid dimensions: " ++ numberToString w wd ++ "x"
         ++ numberToString w ht ++ ". Must be positive finite numbers.").

Definition invalidFps (w : World) (f : number) : exn :=
  Error ("Invalid fps: " ++ numberToString w f
         ++ ". Must be a positive finite number.").

(** [buildFilter]; the zoom and pan values it computes after the checks
    do not reach the filter text. *)
Definition buildFilter (w : World) (options : Options) (params : KenBurnsParams)
  : result string :=
  if invalid (duration params) then Throw (invalidDuration w (duration params))
  else if invalid (width params) || invalid (height params) then
    Throw (invalidDimensions w (width params) (height params))
  else if invalid (fps options) then Throw (invalidFps w (fps options))
  else
    let wd := numberToString w (width params) in
    let ht := numberToString w (height params) in
    Ok ("scale=" ++ wd ++ ":" ++ ht ++ ":force_original_aspect_ratio=decrease,"
        ++ "pad=" ++ wd ++ ":" ++ ht ++ ":(ow-iw)/2:(oh-ih)/2").

Definition renderCommand (w : World) (options : Options)
  (params : KenBurnsParams) (filter : string) : Command :=
  {| inputs := [imagePath params];
     inputOptions := ["-loop 1"; "-t " ++ numberToString w (duration params)];
     videoCodec := None; audioCodec := None; audioBitrate := None;
     noAudio := false; complexFilter := None;
     outputOptions :=
       ["-vf " ++ filter;
        "-r " ++ numberToString w (fps options);
        "-c:v " ++ codec options;
        "-crf " ++ numberToString w (crf options);
        "-preset " ++ preset options;
        "-pix_fmt yuv420p";
        "-movflags +faststart"];
     output := outputPath params |}.

(** What the ['error'] handler of the render wraps the failure in. *)
Definition renderFailure (e : exn) : exn :=
  match e with
  | Error m | TypeError m => Error ("Ken Burns generation failed: " ++ m)
  | Undefined => Error "Ken Burns generation failed: undefined"
  end.

Definition imageNotFound (params : KenBurnsParams) : exn :=
  Error ("Input image not found: " ++ imagePath params).

Definition generateKenBurns (w : World) (options : Options)
  (params : KenBurnsParams) : Run string :=
  if negb (existsSync w (imagePath params)) then
    raise (imageNotFound params)
  else
    let dir := dirname w (outputPath params) in
    act (Mkdir dir) (mkdir w dir) >>>
    filter <<- (buildFilter w options params, []) ;;
    let command := renderCommand w options params filter in
    match run w command with
    | Ok _ => (Ok (outputPath params), [Spawn command])
    | Throw e => (Throw (renderFailure e), [Spawn command])
    end.

(** Duration, width, height and frame rate are all finite and
    positive. *)
Definition validRequest (options : Options) (params : KenBurnsParams) : Prop :=
  positive (duration params) /\ positive (width params)
  /\ positive (height params) /\ positive (fps options).

(** The failures raised by the validation of the numeric inputs. *)
Definition InvalidParametersError (w : World) (options : Options)
  (params : KenBurnsParams) (e : exn) : Prop :=
  e = invalidDuration w (duration params)
  \/ e = invalidDimensions w (width params) (height params)
  \/ e = invalidFps w (fps options).

(** *** [generateOptimizedForRoom] *)

(** [roomSettings[room]] with the [zoom] and [pan] read from it: an own
    entry, an inherited member (truthy, without [zoom] and [pan]), or
    [undefined]. *)
Definition roomSettings (room : string)
  : option (option ZoomDirection * option PanDirection) :=
  if room =? "exterior" then Some (Some zoomIn, Some panNone)
  else if room =? "entry" then Some (Some zoomIn, Some panUp)
  else if room =? "living" then Some (Some zoomOut, Some panRight)
  else if room =? "kitchen" then Some (Some zoomIn, Some panLeft)
  else if room =? "bedroom" then Some (Some zoomOut, Some panNone)
  else if room =? "bathroom" then Some (Some zoomIn, Some panRight)
  else if room =? "backyard" then Some (Some zoomOut, Some panLeft)
  else if existsb (String.eqb room) inheritedNames then Some (None, None)
  else None.

Definition generateOptimizedForRoom (w : World) (options : Options)
  (image out : string) (d wd ht : number) (room : string) : Run string :=
  let settings :=
    match roomSettings room with
    | Some found => found
    | None => (Some zoomIn, Some panNone)
    end in
  generateKenBurns w options
    {| imagePath := image; outputPath := out; duration := d;
       width := wd; height := ht;
       zoomDirection := fst settings; panDirection := snd settings |}.

(** *** [generateBatch] *)

(** [`${error}`]: [Error.prototype.toString] of a caught value. *)
Definition errorToString (e : exn) : string :=
  match e with
  | Error EmptyString => "Error"
  | Error m => "Error: " ++ m
  | TypeError EmptyString => "TypeError"
  | TypeError m => "TypeError: " ++ m
  | Undefined => "undefined"
  end.

Definition batchFailure (params : KenBurnsParams) (e : exn) : exn :=
  Error ("Failed to generate Ken Burns for " ++ imagePath params ++ ": "
         ++ errorToString e).

(** The loop of [generateBatch] from index [i] on.  [w k] is the machine
    as it is when the item at index [k] is rendered: earlier renders
    have written files by then. *)
Fixpoint generateBatchFrom (w : nat -> World) (options : Options) (i : nat)
  (paramsList : list KenBurnsParams) : Run (list string) :=
  match paramsList with
  | [] => pure []
  | params :: rest =>
      match generateKenBurns (w i) options params with
      | (Ok result, t) =>
          let (r, t') := generateBatchFrom w options (S i) rest in
          (match r with
           | Ok results => Ok (result :: results)
           | Throw e => Throw e
           end, (t ++ t')%list)
      | (Throw e, t) => (Throw (batchFailure params e), t)
      end
  end.

Definition generateBatch (w : nat -> World) (options : Options)
  (paramsList : list KenBurnsParams) : Run (list string) :=
  generateBatchFrom w options 0 paramsList.

(** The request with other motion settings. *)
Definition withMotion (params : KenBurnsParams)
  (zoom : option ZoomDirection) (pan : option PanDirection) : KenBurnsParams :=
  {| imagePath := imagePath params; outputPath := outputPath params;
     duration := duration params; width := width params;
     height := height params; zoomDirection := zoom; panDirection := pan |}.

(** The render of the item at index [i] returns a file. *)
Definition renders (w : nat -> World) (options : Options) (i : nat)
  (params : KenBurnsParams) : Prop :=
  exists out, fst (generateKenBurns (w i) options params) = Ok out.

End KenBurns.

(* ================================================================== *)
(** ** Timeline assembler ([VideoAssembler]) *)
(* ================================================================== *)

Module Assembler.
Import Js Fx.

Inductive SegmentType : Type := veo | kenburns.
Inductive TrackType : Type := voiceover | music.
Inductive Resolution : Type := r720p | r1080p.

Record VideoSegment : Type := {
  segment_path : string;
  segment_duration : number;
  segment_type : SegmentType;
  room : string;
  hasAudio : bool
}.

Record AudioTrack : Type := {
  path : string;
  type : TrackType;
  volume : number;
  startTime : number;
  duration : number
}.

Record AssemblyParams : Type := {
  segments : list VideoSegment;
  audioTracks : list AudioTrack;
  outputPath : string;
  crossfadeDuration : number;
  aspect : string;
  resolution : Resolution;
  fps : number
}.

Record AssemblyOptions : Type := {
  opt_codec : option string;
  opt_crf : option number;
  opt_preset : option string;
  opt_audioCodec : option string;
  opt_audioBitrate : option string;
  opt_pixelFormat : option string
}.

Record Options : Type := {
  codec : string;
  crf : number;
  preset : string;
  audioCodecName : string;
  audioBitrateName : string;
  pixelFormat : string
}.

Definition constructor (options : AssemblyOptions) : Options := {|
  codec := match opt_codec options with Some x => x | None => "libx264" end;
  crf := match opt_crf options with Some x => x | None => of_nat 20 end;
  preset := match opt_preset options with Some x => x | None => "medium" end;
  audioCodecName := match opt_audioCodec options with Some x => x | None => "aac" end;
  audioBitrateName := match opt_audioBitrate options with Some x => x | None => "192k" end;
  pixelFormat := match opt_pixelFormat options with Some x => x | None => "yuv420p" end
|}.

Definition newline : string := String "010"%char EmptyString.

Fixpoint joinWith (sep : string) (l : list string) : string :=
  match l with
  | [] => EmptyString
  | [x] => x
  | x :: rest => x ++ sep ++ joinWith sep rest
  end.

(** *** Input validation *)

Fixpoint firstMissing (w : World) (files : list string) : option string :=
  match files with
  | [] => None
  | f :: rest => if existsSync w f then firstMissing w rest else Some f
  end.

Definition validateInputs (w : World) (params : AssemblyParams) : Run unit :=
  let dir := dirname w (outputPath params) in
  act (Mkdir dir) (mkdir w dir) >>>
  match firstMissing w (map segment_path (segments params)) with
  | Some f => raise (Error ("Video segment not found: " ++ f))
  | None =>
      match firstMissing w (map path (audioTracks params)) with
      | Some f => raise (Error ("Audio track not found: " ++ f))
      | None => pure tt
      end
  end.

(** *** Video timeline *)

Definition getResolutionDimensions (r : Resolution) : nat * nat :=
  match r with
  | r720p => (1280, 720)
  | r1080p => (1920, 1080)
  end.

Definition spawn (w : World) (command : Command) : Run unit :=
  act (Spawn command) (run w command).

Definition processSingleSegment (w : World) (options : Options)
  (segment : VideoSegment) (out : string) (params : AssemblyParams) : Run unit :=
  let '(wd, ht) := getResolutionDimensions (resolution params) in
  spawn w
    {| inputs := [segment_path segment]; inputOptions := [];
       videoCodec := None; audioCodec := None; audioBitrate := None;
       noAudio := false; complexFilter := None;
       outputOptions :=
         ["-c:v " ++ codec options;
          "-crf " ++ numberToString w (crf options);
          "-preset " ++ preset options;
          "-pix_fmt " ++ pixelFormat options;
          "-r " ++ numberToString w (fps params);
          "-s " ++ string_of_nat wd ++ "x" ++ string_of_nat ht;
          "-movflags +faststart"];
       output := out |}.

(** The concat-list approach: the list file is written, ffmpeg runs on
    it, and the list file is removed whether ffmpeg succeeded or not. *)
Definition createConcatFileApproach (w : World) (options : Options)
  (l : list VideoSegment) (out : string) (params : AssemblyParams) : Run unit :=
  let concatFilePath := join w (dirname w out) "concat_list.txt" in
  let concatContent :=
    joinWith newline
      (map (fun s => "file '" ++ resolve w (segment_path s) ++ "'") l) in
  act (WriteFile concatFilePath concatContent) (writeFile w concatFilePath) >>>
  let command :=
    {| inputs := [concatFilePath]; inputOptions := ["-f concat"; "-safe 0"];
       videoCodec := None; audioCodec := None; audioBitrate := None;
       noAudio := false; complexFilter := None;
       outputOptions :=
         ["-c:v " ++ codec options;
          "-crf " ++ numberToString w (crf options);
          "-preset " ++ preset options;
          "-movflags +faststart"];
       output := out |} in
  finally (spawn w command) [Unlink concatFilePath].

Definition createCrossfadeTimeline := createConcatFileApproach.

Definition createVideoTimeline (w : World) (options : Options)
  (l : list VideoSegment) (out : string) (params : AssemblyParams) : Run unit :=
  match l with
  | [segment] => processSingleSegment w options segment out params
  | _ => createCrossfadeTimeline w options l out params
  end.

(** *** Audio mix *)

(** One filter applied to a track on its way into the mix. *)
Inductive AudioOp : Type :=
| Volume (gain : number)
| ADelay (ms : number).

(** [amix]'s [duration] option. *)
Inductive MixDuration : Type := longest | shortest | first.

Inductive AudioFilter : Type :=
| Chain (input : nat) (ops : list AudioOp) (output : nat)
| AMix (inputLabels : list nat) (inputCount : nat) (policy : MixDuration)
       (output : string).

(** The chain the [forEach] body builds for the track at [index]. *)
Definition trackChain (track : AudioTrack) (index : nat) : AudioFilter :=
  let volumeOps :=
    if negb (eqb (volume track) (Fin 1%Q)) then [Volume (volume track)] else [] in
  let delayOps :=
    if gtb (startTime track) (of_nat 0)
    then [ADelay (round (mul64 (startTime track) (of_Z 1000)))] else [] in
  Chain index (volumeOps ++ delayOps) index.

Fixpoint trackChains (tracks : list AudioTrack) (index : nat) : list AudioFilter :=
  match tracks with
  | [] => []
  | track :: rest => trackChain track index :: trackChains rest (S index)
  end.

Definition buildAudioMixGraph (tracks : list AudioTrack) : list AudioFilter :=
  (trackChains tracks 0
   ++ [AMix (seq 0 (List.length tracks)) (List.length tracks) longest "mixed_audio"])%list.

(** The textual form of the graph, as the source concatenates it. *)
Definition renderOp (w : World) (op : AudioOp) : string :=
  match op with
  | Volume v => "volume=" ++ numberToString w v
  | ADelay ms => "adelay=" ++ numberToString w ms ++ "|" ++ numberToString w ms
  end.

Definition renderPolicy (p : MixDuration) : string :=
  match p with
  | longest => "longest"
  | shortest => "shortest"
  | first => "first"
  end.

Definition renderFilter (w : World) (f : AudioFilter) : string :=
  match f with
  | Chain i ops o =>
      "[" ++ string_of_nat i ++ ":a]" ++ joinWith "," (map (renderOp w) ops)
      ++ "[a" ++ string_of_nat o ++ "]"
  | AMix labels n policy out =>
      String.concat EmptyString (map (fun i => "[a" ++ string_of_nat i ++ "]") labels)
      ++ "amix=inputs=" ++ string_of_nat n ++ ":duration=" ++ renderPolicy policy
      ++ "[" ++ out ++ "]"
  end.

Definition buildAudioMixFilter (w : World) (tracks : list AudioTrack) : list string :=
  map (renderFilter w) (buildAudioMixGraph tracks).

Definition mixCommand (w : World) (options : Options)
  (tracks : list AudioTrack) (mixedAudioPath : string) : Command :=
  {| inputs := map path tracks; inputOptions := [];
     videoCodec := None; audioCodec := None; audioBitrate := None;
     noAudio := false;
     complexFilter := Some (buildAudioMixFilter w tracks, "mixed_audio");
     outputOptions :=
       ["-c:a " ++ audioCodecName options;
        "-b:a " ++ audioBitrateName options;
        "-ac 2"];
     output := mixedAudioPath |}.

(** [createAudioMix]: the path of the audio to mux, [''] for none. *)
Definition createAudioMix (w : World) (options : Options)
  (tracks : list AudioTrack) (tempDir : string) : Run string :=
  match tracks with
  | [] => pure EmptyString
  | [track] => pure (path track)
  | _ =>
      let mixedAudioPath := join w tempDir ("mixed_audio_" ++ now w ++ ".mp3") in
      spawn w (mixCommand w options tracks mixedAudioPath) >>>
      pure mixedAudioPath
  end.

(** *** Muxing *)

Definition muxCommand (options : Options) (videoFile audioFile out : string)
  : Command :=
  match audioFile with
  | EmptyString =>
      {| inputs := [videoFile]; inputOptions := [];
         videoCodec := Some "copy"; audioCodec := None; audioBitrate := None;
         noAudio := true; complexFilter := None;
         outputOptions := ["-movflags +faststart"]; output := out |}
  | _ =>
      {| inputs := [videoFile; audioFile]; inputOptions := [];
         videoCodec := Some "copy";
         audioCodec := Some (audioCodecName options);
         audioBitrate := Some (audioBitrateName options);
         noAudio := false; complexFilter := None;
         outputOptions := ["-movflags +faststart"]; output := out |}
  end.

Definition combineVideoAndAudio (w : World) (options : Options)
  (videoFile audioFile out : string) (params : AssemblyParams) : Run unit :=
  spawn w (muxCommand options videoFile audioFile out).

(** *** [assembleVideo] *)

(** [cleanup]: each file still present is unlinked, failures ignored. *)
Definition cleanup (w : World) (files : list string) : list Event :=
  map Unlink (filter (existsAtCleanup w) files).

Definition assembleVideo (w : World) (options : Options)
  (params : AssemblyParams) : Run string :=
  validateInputs w params >>>
  let tempDir := dirname w (outputPath params) in
  let concatListPath := join w tempDir ("concat_" ++ now w ++ ".txt") in
  let tempVideoPath := join w tempDir ("temp_video_" ++ now w ++ ".mp4") in
  finally
    (createVideoTimeline w options (segments params) tempVideoPath params >>>
     audioPath <<- createAudioMix w options (audioTracks params) tempDir ;;
     combineVideoAndAudio w options tempVideoPath audioPath (outputPath params) params >>>
     pure (outputPath params))
    (cleanup w [concatListPath; tempVideoPath]).

(** *** Reading an assembly *)

(** The same assembly with another crossfade duration and aspect. *)
Definition withPresentation (params : AssemblyParams)
  (crossfade : number) (ratio : string) : AssemblyParams :=
  {| segments := segments params; audioTracks := audioTracks params;
     outputPath := outputPath params; crossfadeDuration := crossfade;
     aspect := ratio; resolution := resolution params; fps := fps params |}.

(** The same assembly with another resolution and frame rate. *)
Definition withFormat (params : AssemblyParams)
  (size : Resolution) (rate : number) : AssemblyParams :=
  {| segments := segments params; audioTracks := audioTracks params;
     outputPath := outputPath params;
     crossfadeDuration := crossfadeDuration params;
     aspect := aspect params; resolution := size; fps := rate |}.

Definition spawnCount (t : list Event) : nat := List.length (filter isSpawn t).


(** The two temporary paths [assembleVideo] cleans up. *)
Definition temporaryFiles (w : World) (params : AssemblyParams) : list string :=
  let tempDir := dirname w (outputPath params) in
  [join w tempDir ("concat_" ++ now w ++ ".txt");
   join w tempDir ("temp_video_" ++ now w ++ ".mp4")].

End Assembler.

(* ================================================================== *)
(** ** Lower thirds ([BrandingProcessor.generateRoomLowerThirds]) *)
(* ================================================================== *)

Module Branding.
Import Js.

Inductive Style : Type := minimal | bar | badge.

Inductive Position : Type :=
| bottomLeft | bottomCenter | bottomRight | topLeft | topCenter | topRight.

(** The [text] of a lower third: a string, or the member of
    [Object.prototype] that the label table gives for a room named like
    it. *)
Inductive LabelText : Type :=
| Text (label : string)
| Inherited (name : string).

Record LowerThird : Type := {
  text : LabelText;
  startTime : number;
  duration : number;
  position : option Position;
  style : option Style
}.

(** [roomLabels[room]]. *)
Definition roomLabels (room : string) : option LabelText :=
  if room =? "exterior" then Some (Text "Exterior")
  else if room =? "entry" then Some (Text "Entryway")
  else if room =? "living" then Some (Text "Living Room")
  else if room =? "kitchen" then Some (Text "Kitchen")
  else if room =? "bedroom" then Some (Text "Bedroom")
  else if room =? "bathroom" then Some (Text "Bathroom")
  else if room =? "backyard" then Some (Text "Backyard")
  else if existsb (String.eqb room) inheritedNames
       then Some (Inherited room)
  else None.

(** The number of bytes of the UTF-8 sequence that [c] starts. *)
Definition utf8Length (c : ascii) : nat :=
  let n := nat_of_ascii c in
  if (n <? 128)%nat then 1
  else if (n <? 224)%nat then 2
  else if (n <? 240)%nat then 3
  else 4.

(** [room.charAt(0).toUpperCase() + room.slice(1)]; upper-casing is the
    runtime's.  [charAt(0)] is the first UTF-16 unit: the whole first
    character when it takes up to three bytes of UTF-8, and half of a
    surrogate pair when it takes four; upper-casing leaves such a half
    as it is, so the room comes back unchanged. *)
Definition capitalize (toUpperCase : string -> string) (room : string) : string :=
  match room with
  | EmptyString => toUpperCase EmptyString ++ EmptyString
  | String c _ =>
      let n := utf8Length c in
      if (n =? 4)%nat then room
      else toUpperCase (substring 0 n room)
           ++ substring n (String.length room - n) room
  end.

(** A number in a condition: truthy unless [0], [NaN] or missing. *)
Definition truthyNumber (o : option number) : option number :=
  match o with
  | Some (Fin q) => if Qeq_bool q 0 then None else Some (Fin q)
  | Some NaN => None
  | Some x => Some x
  | None => None
  end.

(** [segmentDurations[index] || 6]. *)
Definition segmentDuration (segmentDurations : list number) (index : nat) : number :=
  match truthyNumber (nth_error segmentDurations index) with
  | Some d => d
  | None => of_nat 6
  end.

(** The [forEach] of [generateRoomLowerThirds] from [index] on, with the
    value of [currentTime] reached. *)
Fixpoint lowerThirdsFrom (toUpperCase : string -> string) (rooms : list string)
  (segmentDurations : list number) (chosen : Style) (index : nat)
  (currentTime : number) : list LowerThird :=
  match rooms with
  | [] => []
  | room :: rest =>
      let d := segmentDuration segmentDurations index in
      let label :=
        match roomLabels room with
        | Some found => found
        | None => Text (capitalize toUpperCase room)
        end in
      {| text := label;
         startTime := add currentTime (of_nat 1);
         duration := of_nat 3;
         position := Some bottomLeft;
         style := Some chosen |}
      :: lowerThirdsFrom toUpperCase rest segmentDurations chosen (S index)
           (add currentTime d)
  end.

Definition generateRoomLowerThirds (toUpperCase : string -> string)
  (rooms : list string) (segmentDurations : list number) (chosen : option Style)
  : list LowerThird :=
  lowerThirdsFrom toUpperCase rooms segmentDurations
    (match chosen with Some given => given | None => bar end) 0 (of_nat 0).

(** The sum of a list of rationals. *)
Definition sumQ (l : list Q) : Q := fold_right Qplus 0%Q l.

(** The seconds the segment at [index] counts for when every duration
    given is finite: its own, or six when it is zero or missing. *)
Definition countedSeconds (segmentDurations : list Q) (index : nat) : Q :=
  match nth_error segmentDurations index with
  | Some q => if Qeq_bool q 0 then 6%Q else q
  | None => 6%Q
  end.

(** [roomLabels[room] || room.charAt(0).toUpperCase() + room.slice(1)]. *)
Definition labelOf (toUpperCase : string -> string) (room : string) : LabelText :=
  match roomLabels room with
  | Some found => found
  | None => Text (capitalize toUpperCase room)
  end.

(** The lower third is on screen from [from] to [to] seconds. *)
Definition shownBetween (from to : Q) (l : LowerThird) : Prop :=
  exists s d, startTime l = Fin s /\ duration l = Fin d
              /\ (s == from)%Q /\ (s + d == to)%Q.

End Branding.

(* ================================================================== *)
(** ** The pipeline ([src/index.ts]) *)
(* ================================================================== *)

Module Pipeline.
Import Js Veo VeoClient.

Record VeoConfig : Type := {
  cfg_projectId : string;
  cfg_location : string;
  cfg_model : string;
  cfg_generateAudio : option bool;
  cfg_bucketName : option string
}.

Record ListingData : Type := {
  headline : option string;
  bullets : option (list string);
  address : option string
}.

Record VoiceoverConfig : Type := {
  vo_text : option string;
  vo_voice : option string;
  vo_speed : option number
}.

Record MusicConfig : Type := {
  music_path : string;
  music_volume : option number
}.

(** The fields of [HomeTourConfig] read by the functions below. *)
Record HomeTourConfig : Type := {
  listing : option ListingData;
  voiceover : option VoiceoverConfig;
  music : option MusicConfig;
  output : Planner.OutputConfig;
  veoConfig : VeoConfig
}.

(** The outside world while the image at one index of the loop of
    [generateVideoSegments] is processed: the render service, and the
    storage service and [Date.now()] at each upload of that turn. *)
Record Stage : Type := {
  service : Veo.World;
  storageAt : nat -> Storage;
  dateNow : nat -> string
}.

(** *** The order of the images *)

Definition isDigit (c : ascii) : bool :=
  (48 <=? nat_of_ascii c)%nat && (nat_of_ascii c <=? 57)%nat.

Definition digitValue (c : ascii) : nat := nat_of_ascii c - 48.

(** The longest run of digits at the start of [s], and what follows. *)
Fixpoint takeDigits (s : string) : list nat * string :=
  match s with
  | EmptyString => ([], EmptyString)
  | String c rest =>
      if isDigit c then
        let (ds, tail) := takeDigits rest in (digitValue c :: ds, tail)
      else ([], s)
  end.

(** The capture of the first match of [/_(\d+)\./]. *)
Fixpoint matchNumber (s : string) : option (list nat) :=
  match s with
  | EmptyString => None
  | String c rest =>
      if Ascii.eqb c "_"%char then
        match takeDigits rest with
        | (d :: ds, String next _) =>
            if Ascii.eqb next "."%char then Some (d :: ds) else matchNumber rest
        | _ => matchNumber rest
        end
      else matchNumber rest
  end.

(** [parseInt] of a run of decimal digits. *)
Definition parseInt (digits : list nat) : nat :=
  fold_left (fun value d => 10 * value + d) digits 0.

(** [parseInt(name.match(/_(\d+)\./)?.[1] || '0')]. *)
Definition fileNumber (name : string) : nat :=
  match matchNumber name with
  | Some digits => parseInt digits
  | None => 0
  end.

(** *** [generateVeoSegment] *)

Definition generateSegmentPrompt : string :=
  "Create video movement through this space. Maintain the exact room layout, wall positions, dimensions, and architectural elements. The furniture may be changed or rearranged as long as it fits properly within the existing space dimensions and maintains realistic proportions for the room.".

(** Reading [.room] of a scene that is not there. *)
Definition undefinedRoom : exn :=
  TypeError "Cannot read properties of undefined (reading 'room')".

(** Reading [.toLowerCase] of a path that is not there, in
    [getMimeType]. *)
Definition undefinedPath : exn :=
  TypeError "Cannot read properties of undefined (reading 'toLowerCase')".

(** The uploads of the images of a scene, from position [k] on. *)
Fixpoint uploadImages (stage : Stage) (basename : string -> string)
  (config : HomeTourConfig) (sceneImages : list Planner.ImageInput) (k : nat)
  : result (list string) :=
  match sceneImages with
  | [] => Ok []
  | image :: rest =>
      gcsUri <- uploadToGcs (cfg_bucketName (veoConfig config)) (storageAt stage k)
                  (Planner.path image)
                  ("inputs/" ++ dateNow stage k ++ "_" ++ basename (Planner.path image))
                  (cfg_bucketName (veoConfig config)) ;;
      uris <- uploadImages stage basename config rest (S k) ;;
      Ok (gcsUri :: uris)
  end.

(** [sceneIndex > 0 ? allScenes[sceneIndex - 1].room : undefined]. *)
Definition previousRoom (allScenes : list Planner.Scene) (sceneIndex : nat)
  : result (option string) :=
  if (0 <? sceneIndex)%nat then
    match nth_error allScenes (sceneIndex - 1) with
    | Some found => Ok (Some (Planner.scene_room found))
    | None => Throw undefinedRoom
    end
  else Ok None.

(** [sceneIndex < allScenes.length - 1 ? allScenes[sceneIndex + 1].room
    : undefined]. *)
Definition nextRoom (allScenes : list Planner.Scene) (sceneIndex : nat)
  : result (option string) :=
  if (sceneIndex <? List.length allScenes - 1)%nat then
    match nth_error allScenes (sceneIndex + 1) with
    | Some found => Ok (Some (Planner.scene_room found))
    | None => Throw undefinedRoom
    end
  else Ok None.

(** [`${bucketName}`]. *)
Definition bucketText (config : HomeTourConfig) : string :=
  match cfg_bucketName (veoConfig config) with
  | Some b => b
  | None => "undefined"
  end.

Definition audioWanted (config : HomeTourConfig) : bool :=
  match cfg_generateAudio (veoConfig config) with Some b => b | None => false end.

Definition clipParams (config : HomeTourConfig) (scene : Planner.Scene)
  (primary : string) : VeoParams :=
  {| projectId := cfg_projectId (veoConfig config);
     location := cfg_location (veoConfig config);
     model := cfg_model (veoConfig config);
     aspect := Planner.aspect (output config);
     resolution := Some (Planner.resolution (output config));
     duration := min (of_nat 4) (round (Planner.duration scene));
     generateAudio := Some (audioWanted config);
     seed := None;
     imageGcsUri := primary;
     lastFrameGcsUri := None;
     refImages := Some [];
     storageUri := Some ("gs://" ++ bucketText config ++ "/output/");
     prompt := generateSegmentPrompt |}.

Definition generateVeoSegment (stage : Stage) (basename : string -> string)
  (config : HomeTourConfig) (scene : Planner.Scene)
  (allScenes : list Planner.Scene) (sceneIndex : nat)
  : M Assembler.VideoSegment :=
  imageGcsUris <~ lift (uploadImages stage basename config
                          (Planner.images scene) 0) ;;
  _previous <~ lift (previousRoom allScenes sceneIndex) ;;
  _next <~ lift (nextRoom allScenes sceneIndex) ;;
  veoResult <~ match imageGcsUris with
               | primary :: _ =>
                   generateClip (service stage) (clipParams config scene primary)
               | [] =>
                   _token <~ lift (getAccessToken (service stage)) ;;
                   throw undefinedPath
               end ;;
  ret {| Assembler.segment_path := videoPath veoResult;
         Assembler.segment_duration := result_duration veoResult;
         Assembler.segment_type := Assembler.veo;
         Assembler.room := Planner.scene_room scene;
         Assembler.hasAudio := audioWanted config |}.

(** *** [generateVideoSegments] *)

Definition singleImageScene (image : Planner.ImageInput) (i : nat) : Planner.Scene :=
  {| Planner.id := "single-image-" ++ string_of_nat i;
     Planner.scene_room := "home";
     Planner.images := [image];
     Planner.duration := of_nat 4;
     Planner.type := Planner.veo;
     Planner.description := Some ("Single image segment " ++ string_of_nat (i + 1));
     Planner.focusPoints := Some [] |}.

(** The [for] loop from index [i] on; [stages k] is the outside world
    during turn [k]. *)
Fixpoint segmentsFrom (stages : nat -> Stage) (basename : string -> string)
  (config : HomeTourConfig) (i : nat) (sortedImages : list Planner.ImageInput)
  : M (list Assembler.VideoSegment) :=
  match sortedImages with
  | [] => ret []
  | image :: rest =>
      let scene := singleImageScene image i in
      segment <~ generateVeoSegment (stages i) basename config scene [scene] i ;;
      segments <~ segmentsFrom stages basename config (S i) rest ;;
      ret (segment :: segments)
  end.

Definition generateVideoSegments (stages : nat -> Stage)
  (basename : string -> string) (config : HomeTourConfig)
  (inputImages : list Planner.ImageInput) : M (list Assembler.VideoSegment) :=
  let sortedImages :=
    Planner.sortBy (fun image => fileNumber (basename (Planner.path image)))
                   inputImages in
  segmentsFrom stages basename config 0 sortedImages.

(** *** [generateAudioTracks] *)

Record TTSParams : Type := {
  tts_text : string;
  tts_voice : string;
  tts_speed : number;
  tts_outputPath : string
}.

Definition isSome {A : Type} (o : option A) : bool :=
  match o with Some _ => true | None => false end.

(** [config.voiceover?.x]. *)
Definition voiceoverField {A : Type} (config : HomeTourConfig)
  (field : VoiceoverConfig -> option A) : option A :=
  match voiceover config with Some vo => field vo | None => None end.

(** [config.music.volume || 0.3]. *)
Definition musicVolume (m : MusicConfig) : number :=
  match Branding.truthyNumber (music_volume m) with
  | Some v => v
  | None => Fin (3 # 10)
  end.

(** [generateAudioTracks]; [synthesizeVoiceover] is the speech service,
    [script] what [generateVoiceoverScript] returns for the scenes and
    the listing, and [w] gives [path.join] and [Date.now()]. *)
Definition generateAudioTracks (w : Fx.World)
  (synthesizeVoiceover : TTSParams -> result unit) (script : string)
  (tmpDir : string) (config : HomeTourConfig)
  : result (list Assembler.AudioTrack) :=
  voiceTracks <-
    (if isSome (voiceover config) || isSome (listing config) then
       let chosenScript :=
         match truthyString (voiceoverField config vo_text) with
         | Some given => Some given
         | None => if isSome (listing config) then truthyString (Some script)
                   else None
         end in
       match chosenScript with
       | Some spoken =>
           let voiceoverPath :=
             Fx.join w tmpDir ("voiceover_" ++ Fx.now w ++ ".mp3") in
           _ <- synthesizeVoiceover
                  {| tts_text := spoken;
                     tts_voice :=
                       match truthyString (voiceoverField config vo_voice) with
                       | Some v => v
                       | None => "en-US-Neural2-D"
                       end;
                     tts_speed :=
                       match Branding.truthyNumber (voiceoverField config vo_speed) with
                       | Some v => v
                       | None => Fin 1%Q
                       end;
                     tts_outputPath := voiceoverPath |} ;;
           Ok [ {| Assembler.path := voiceoverPath;
                   Assembler.type := Assembler.voiceover;
                   Assembler.volume := Fin 1%Q;
                   Assembler.startTime := of_nat 0;
                   Assembler.duration := Planner.targetSeconds (output config) |} ]
       | None => Ok []
       end
     else Ok []) ;;
  let musicTracks :=
    match music config with
    | Some m =>
        let duckingVolume :=
          if (0 <? List.length voiceTracks)%nat
          then mul (musicVolume m) (Fin (4 # 10))
          else musicVolume m in
        [ {| Assembler.path := music_path m;
             Assembler.type := Assembler.music;
             Assembler.volume := duckingVolume;
             Assembler.startTime := of_nat 0;
             Assembler.duration := Planner.targetSeconds (output config) |} ]
    | None => []
    end in
  Ok (voiceTracks ++ musicTracks)%list.

(** *** Vocabulary of the statements about the pipeline *)

(** A segment as [generateVideoSegments] makes them: four seconds of
    AI synthesis for the room ['home']. *)
Definition fourSecondClip (s : Assembler.VideoSegment) : Prop :=
  Assembler.segment_duration s = of_nat 4
  /\ Assembler.segment_type s = Assembler.veo
  /\ Assembler.room s = "home".

(** No filter of the chain delays the track. *)
Definition undelayed (f : Assembler.AudioFilter) : Prop :=
  match f with
  | Assembler.Chain _ ops _ =>
      Forall (fun op => match op with
                        | Assembler.ADelay _ => False
                        | Assembler.Volume _ => True
                        end) ops
  | Assembler.AMix _ _ _ _ => True
  end.

End Pipeline.

(* ================================================================== *)
(** ** Concrete inputs used by the examples *)
(* ================================================================== *)

Module Samples.
Import Js Planner.

Definition photo (file label : string) : ImageInput :=
  {| path := file; room := Some label; captureTime := None |}.

(** An output of [t] seconds. *)
Definition lasting (t : Q) : OutputConfig :=
  {| output_path := "tour.mp4"; aspect := "16:9"; resolution := "1080p";
     targetSeconds := Fin t; fps := None |}.

Definition seconds (t : Z) : OutputConfig := lasting (inject_Z t).

Definition defaults : Options := constructor noOptions.

Definition emptyPlan : ScenePlan :=
  {| scenes := []; totalDuration := of_nat 0;
     veoSegments := 0; kenBurnsSegments := 0 |}.

Definition planOf (r : result ScenePlan) : ScenePlan :=
  match r with Ok plan => plan | Throw _ => emptyPlan end.

Definition groupsOf (r : result RoomMap) : RoomMap :=
  match r with Ok m => m | Throw _ => [] end.

(** Two photos of the living room. *)
Definition twoLiving : list ImageInput :=
  [photo "living-a.jpg" "living"; photo "living-b.jpg" "living"].

(** Two bedroom photos around one of the entry. *)
Definition bedroomsAndEntry : list ImageInput :=
  [photo "bed-a.jpg" "bedroom"; photo "door.jpg" "entry";
   photo "bed-b.jpg" "bedroom"].

(** Fourteen photos, two for each of the seven rooms. *)
Definition twoPerRoom : list ImageInput :=
  flat_map (fun r => [photo (r ++ "-1.jpg") r; photo (r ++ "-2.jpg") r])
           roomOrder.

(** Nine photos of the living room. *)
Definition nineLiving : list ImageInput :=
  map (fun n => photo ("living-" ++ string_of_nat n ++ ".jpg") "living")
      (seq 1 9).

(** A render request for one image. *)
Definition clipRequest : Veo.VeoParams :=
  {| Veo.projectId := "demo-project"; Veo.location := "us-central1";
     Veo.model := "veo-3.0-generate-001"; Veo.aspect := "16:9";
     Veo.resolution := None; Veo.duration := of_nat 4;
     Veo.generateAudio := None; Veo.seed := None;
     Veo.imageGcsUri := "gs://bucket/inputs/front.jpg";
     Veo.lastFrameGcsUri := None; Veo.refImages := None;
     Veo.storageUri := None; Veo.prompt := "slow push in" |}.

Definition runningOperation : Veo.VeoOperation :=
  {| Veo.name := "projects/demo-project/locations/us-central1/operations/42";
     Veo.done := None; Veo.response := None; Veo.error := None |}.

Definition finishedOperation : Veo.VeoOperation :=
  {| Veo.name := Veo.name runningOperation;
     Veo.done := Some true;
     Veo.response :=
       Some {| Veo.videos :=
                 Some [ {| Veo.gcsUri := Some "gs://bucket/output/clip.mp4";
                           Veo.mimeType := Some "video/mp4";
                           Veo.bytesBase64Encoded := None |} ];
               Veo.predictions := None |};
     Veo.error := None |}.

Definition failedOperation : Veo.VeoOperation :=
  {| Veo.name := Veo.name runningOperation;
     Veo.done := Some true;
     Veo.response := None;
     Veo.error := Some {| Veo.code := 13%Z; Veo.message := "internal error" |} |}.

Definition replyWith (operation : Veo.VeoOperation) : result Veo.HttpResponse :=
  Ok {| Veo.ok := true; Veo.status := 200; Veo.text := EmptyString;
        Veo.json := Ok operation |}.

Definition unavailable : result Veo.HttpResponse :=
  Ok {| Veo.ok := false; Veo.status := 503; Veo.text := "Service Unavailable";
        Veo.json := Throw (Error "Unexpected token") |}.

(** A service whose jobs never finish; the first [Math.random()] is
    [0.9], the following ones are [0]. *)
Definition slowService : Veo.World :=
  {| Veo.getAccessToken := Ok "token";
     Veo.submitReply := fun _ => replyWith runningOperation;
     Veo.pollReply := fun _ => replyWith runningOperation;
     Veo.random := fun n => match n with O => (9 # 10)%Q | S _ => 0%Q end;
     Veo.storageDownload := fun _ _ => Ok tt;
     Veo.ffmpegExtract := fun _ => Ok tt;
     Veo.tmpDir := ".cache/home-tour";
     Veo.freshName := "veo_1_abc.mp4";
     Veo.join := fun dir file => dir ++ "/" ++ file |}.

(** A service that answers the first submission with HTTP 503 and every
    later one normally; its jobs finish at the second poll. *)
Definition flakyService : Veo.World :=
  {| Veo.getAccessToken := Ok "token";
     Veo.submitReply :=
       fun n => match n with O => unavailable | S _ => replyWith runningOperation end;
     Veo.pollReply :=
       fun k => match k with
                | 0 | 1 => replyWith runningOperation
                | _ => replyWith finishedOperation
                end;
     Veo.random := fun _ => (1 # 2)%Q;
     Veo.storageDownload := fun _ _ => Ok tt;
     Veo.ffmpegExtract := fun _ => Ok tt;
     Veo.tmpDir := ".cache/home-tour";
     Veo.freshName := "veo_1_abc.mp4";
     Veo.join := fun dir file => dir ++ "/" ++ file |}.

(** A service whose job ends with an error at the third poll. *)
Definition failingService : Veo.World :=
  {| Veo.getAccessToken := Ok "token";
     Veo.submitReply := fun _ => replyWith runningOperation;
     Veo.pollReply :=
       fun k => match k with
                | 0 | 1 | 2 => replyWith runningOperation
                | _ => replyWith failedOperation
                end;
     Veo.random := fun _ => (1 # 2)%Q;
     Veo.storageDownload := fun _ _ => Ok tt;
     Veo.ffmpegExtract := fun _ => Ok tt;
     Veo.tmpDir := ".cache/home-tour";
     Veo.freshName := "veo_1_abc.mp4";
     Veo.join := fun dir file => dir ++ "/" ++ file |}.

(** A service that accepts every submission and whose jobs finish at
    the third poll. *)
Definition steadyService : Veo.World :=
  {| Veo.getAccessToken := Ok "token";
     Veo.submitReply := fun _ => replyWith runningOperation;
     Veo.pollReply :=
       fun k => match k with
                | 0 | 1 | 2 => replyWith runningOperation
                | _ => replyWith finishedOperation
                end;
     Veo.random := fun _ => (1 # 2)%Q;
     Veo.storageDownload := fun _ _ => Ok tt;
     Veo.ffmpegExtract := fun _ => Ok tt;
     Veo.tmpDir := ".cache/home-tour";
     Veo.freshName := "veo_1_abc.mp4";
     Veo.join := fun dir file => dir ++ "/" ++ file |}.

(** A service that rejects every submission with HTTP 503. *)
Definition downService : Veo.World :=
  {| Veo.getAccessToken := Ok "token";
     Veo.submitReply := fun _ => unavailable;
     Veo.pollReply := fun _ => replyWith runningOperation;
     Veo.random := fun _ => (1 # 2)%Q;
     Veo.storageDownload := fun _ _ => Ok tt;
     Veo.ffmpegExtract := fun _ => Ok tt;
     Veo.tmpDir := ".cache/home-tour";
     Veo.freshName := "veo_1_abc.mp4";
     Veo.join := fun dir file => dir ++ "/" ++ file |}.

(** A service whose third poll is answered with HTTP 500. *)
Definition brokenPollService : Veo.World :=
  {| Veo.getAccessToken := Ok "token";
     Veo.submitReply := fun _ => replyWith runningOperation;
     Veo.pollReply :=
       fun k => match k with
                | 0 | 1 | 2 => replyWith runningOperation
                | _ => Ok {| Veo.ok := false; Veo.status := 500;
                             Veo.text := "Internal Server Error";
                             Veo.json := Throw (Error "Unexpected token") |}
                end;
     Veo.random := fun _ => (1 # 2)%Q;
     Veo.storageDownload := fun _ _ => Ok tt;
     Veo.ffmpegExtract := fun _ => Ok tt;
     Veo.tmpDir := ".cache/home-tour";
     Veo.freshName := "veo_1_abc.mp4";
     Veo.join := fun dir file => dir ++ "/" ++ file |}.

(** A storage service that accepts every upload of a readable file. *)
Definition openStorage : VeoClient.Storage :=
  {| VeoClient.readFile := fun _ => Ok "bytes";
     VeoClient.save := fun _ _ _ => Ok tt |}.

(** A machine on which every file that has a name exists except
    [missing.jpg], and on which every external action succeeds.  Numbers
    are printed by their integer part, which is exact for the sizes and
    rates used here. *)
Definition printNumber (x : number) : string :=
  match x with
  | Fin q => if Qle_bool 0 q then string_of_nat (Z.to_nat (Qfloor q))
             else "-" ++ string_of_nat (Z.to_nat (Qfloor (- q)))
  | PosInfinity => "Infinity"
  | NegInfinity => "-Infinity"
  | NaN => "NaN"
  end.

Definition machine : Fx.World :=
  {| Fx.existsSync :=
       fun file => negb (file =? "missing.jpg") && negb (file =? EmptyString);
     Fx.existsAtCleanup := fun _ => true;
     Fx.mkdir := fun _ => Ok tt;
     Fx.writeFile := fun _ => Ok tt;
     Fx.run := fun _ => Ok tt;
     Fx.numberToString := printNumber;
     Fx.dirname := fun _ => ".cache/home-tour";
     Fx.join := fun dir file => dir ++ "/" ++ file;
     Fx.resolve := fun file => "/work/" ++ file;
     Fx.now := "1700000000000" |}.

Definition kenBurnsDefaults : KenBurns.Options :=
  KenBurns.constructor
    {| KenBurns.opt_fps := None; KenBurns.opt_codec := None;
       KenBurns.opt_crf := None; KenBurns.opt_preset := None |}.

(** A pan/zoom request for [file] lasting [d] seconds at 1920x1080. *)
Definition panZoom (file : string) (d : number) : KenBurns.KenBurnsParams :=
  {| KenBurns.imagePath := file;
     KenBurns.outputPath := ".cache/home-tour/kenburns.mp4";
     KenBurns.duration := d;
     KenBurns.width := of_nat 1920; KenBurns.height := of_nat 1080;
     KenBurns.zoomDirection := None; KenBurns.panDirection := None |}.

Definition assemblerDefaults : Assembler.Options :=
  Assembler.constructor
    {| Assembler.opt_codec := None; Assembler.opt_crf := None;
       Assembler.opt_preset := None; Assembler.opt_audioCodec := None;
       Assembler.opt_audioBitrate := None; Assembler.opt_pixelFormat := None |}.

(** A tour configuration with a bucket, and optionally a listing and
    music. *)
Definition tourConfig (withListing : bool) (m : option Pipeline.MusicConfig)
  : Pipeline.HomeTourConfig :=
  {| Pipeline.listing :=
       if withListing
       then Some {| Pipeline.headline := Some "Sunny family home";
                    Pipeline.bullets := None; Pipeline.address := None |}
       else None;
     Pipeline.voiceover := None;
     Pipeline.music := m;
     Pipeline.output := seconds 90;
     Pipeline.veoConfig :=
       {| Pipeline.cfg_projectId := "demo-project";
          Pipeline.cfg_location := "us-central1";
          Pipeline.cfg_model := "veo-3.0-generate-001";
          Pipeline.cfg_generateAudio := None;
          Pipeline.cfg_bucketName := Some "tours" |} |}.

(** A world in which every upload and every render succeeds. *)
Definition steadyStage : Pipeline.Stage :=
  {| Pipeline.service := steadyService;
     Pipeline.storageAt := fun _ => openStorage;
     Pipeline.dateNow := fun _ => "1700000000000" |}.

(** The last component of a path written with slashes. *)
Fixpoint lastComponent (current : string) (s : string) : string :=
  match s with
  | EmptyString => current
  | String c rest =>
      if Ascii.eqb c "/"%char then lastComponent EmptyString rest
      else lastComponent (current ++ String c EmptyString) rest
  end.

Definition fileName (file : string) : string := lastComponent EmptyString file.

Definition segmentsOf (r : result (list Assembler.VideoSegment))
  : list Assembler.VideoSegment :=
  match r with Ok l => l | Throw _ => [] end.

(** Two photos numbered in their file names, the later one first. *)
Definition twoNumbered : list ImageInput :=
  [photo "photos/tour_2.jpg" "kitchen"; photo "photos/tour_1.jpg" "living"].

Definition threeNumbered : list ImageInput :=
  [photo "photos/tour_3.jpg" "bedroom"; photo "photos/tour_1.jpg" "living";
   photo "photos/tour_2.jpg" "kitchen"].

Definition quietMusic : Pipeline.MusicConfig :=
  {| Pipeline.music_path := "music.mp3"; Pipeline.music_volume := Some (Fin (1 # 2)) |}.

(** A rendered clip of four seconds. *)
Definition clip (file : string) : Assembler.VideoSegment :=
  {| Assembler.segment_path := file; Assembler.segment_duration := of_nat 4;
     Assembler.segment_type := Assembler.veo; Assembler.room := "home";
     Assembler.hasAudio := false |}.

(** The assembly of [clips] and [tracks] as the pipeline requests it. *)
Definition assembly (clips : list Assembler.VideoSegment)
  (tracks : list Assembler.AudioTrack) : Assembler.AssemblyParams :=
  {| Assembler.segments := clips; Assembler.audioTracks := tracks;
     Assembler.outputPath := ".cache/home-tour/assembled.mp4";
     Assembler.crossfadeDuration := Fin (3 # 4); Assembler.aspect := "16:9";
     Assembler.resolution := Assembler.r1080p; Assembler.fps := of_nat 24 |}.

Definition voice : Assembler.AudioTrack :=
  {| Assembler.path := "voiceover.mp3"; Assembler.type := Assembler.voiceover;
     Assembler.volume := of_nat 1; Assembler.startTime := of_nat 0;
     Assembler.duration := of_nat 60 |}.

Definition backgroundMusic : Assembler.AudioTrack :=
  {| Assembler.path := "music.mp3"; Assembler.type := Assembler.music;
     Assembler.volume := Fin (12 # 100); Assembler.startTime := Fin (3 # 2);
     Assembler.duration := of_nat 60 |}.

(** Music at double volume that starts after 1.0005 s, the start time
    being the double nearest to that decimal. *)
Definition lateMusic : Assembler.AudioTrack :=
  {| Assembler.path := "music.mp3"; Assembler.type := Assembler.music;
     Assembler.volume := of_nat 2;
     Assembler.startTime := Fin (4505851427184181 # 4503599627370496);
     Assembler.duration := of_nat 60 |}.

(** The letters e and E with an acute accent, two bytes each in UTF-8,
    and an upper-casing that knows the first of them. *)
Definition eAcute : string := String "195"%char (String "169"%char EmptyString).
Definition capitalEAcute : string :=
  String "195"%char (String "137"%char EmptyString).

Definition upperCaseOfAccent (s : string) : string :=
  if s =? eAcute then capitalEAcute else s.

End Samples.

(* ================================================================== *)
(** * Properties *)
(* ================================================================== *)

(** ** The scene planner: structure of every plan *)

Module PlannerFacts.
Import Js Planner.

(** Images without a known room, when no room has any image, all land
    in one living-room group. *)
Example unknown_rooms_become_living :
  map fst (Samples.groupsOf
             (groupImagesByRoom
                [Samples.photo "a.jpg" "garage"; Samples.photo "b.jpg" EmptyString;
                 Samples.photo "c.jpg" "attic"]))
  = ["living"].
Proof. reflexivity. Qed.

(** Unknown images join the smallest group, one at a time. *)
Example unknown_images_join_the_smallest_group :
  map (fun kv => (fst kv, map path (snd kv)))
      (Samples.groupsOf
         (groupImagesByRoom
            [Samples.photo "u1" "garage"; Samples.photo "k1" "kitchen";
             Samples.photo "l1" "living"; Samples.photo "l2" "living";
             Samples.photo "u2" "garage"; Samples.photo "u3" "garage";
             Samples.photo "u4" "garage"]))
  = [("living", ["l1"; "l2"; "u3"; "u4"]); ("kitchen", ["k1"; "u1"; "u2"])].
Proof. reflexivity. Qed.

(** *** The room map *)

Lemma map_get_set (k k' : string) (v : list ImageInput) (m : RoomMap) :
  map_get k' (map_set k v m) = if k =? k' then Some v else map_get k' m.
Proof.
  induction m as [|[k0 v0] m IH]; simpl.
  - destruct (k =? k') eqn:E; reflexivity.
  - destruct (k0 =? k) eqn:E0; simpl.
    + apply String.eqb_eq in E0; subst k0.
      destruct (k =? k'); reflexivity.
    + destruct (k0 =? k') eqn:E1.
      * apply String.eqb_eq in E1; subst k0. rewrite String.eqb_sym, E0. reflexivity.
      * exact IH.
Qed.

Lemma keys_map_set_present (k : string) (v g : list ImageInput) (m : RoomMap) :
  map_get k m = Some g -> keys (map_set k v m) = keys m.
Proof.
  induction m as [|[k0 v0] m IH]; simpl; intros H; [discriminate|].
  destruct (k0 =? k); simpl; [reflexivity|]. f_equal. auto.
Qed.

Lemma keys_map_set_absent (k : string) (v : list ImageInput) (m : RoomMap) :
  map_get k m = None -> keys (map_set k v m) = (keys m ++ [k])%list.
Proof.
  induction m as [|[k0 v0] m IH]; simpl; intros H; [reflexivity|].
  destruct (k0 =? k); [discriminate|]. simpl. f_equal. auto.
Qed.

Lemma allImages_push (k : string) (g : list ImageInput) (x : ImageInput) (m : RoomMap) :
  map_get k m = Some g ->
  Permutation (allImages (map_set k (g ++ [x]) m)) (x :: allImages m).
Proof.
  unfold allImages.
  induction m as [|[k0 v0] m IH]; simpl; intros H; [discriminate|].
  destruct (k0 =? k); simpl.
  - injection H as ->. rewrite <- app_assoc. simpl.
    symmetry. apply Permutation_middle.
  - rewrite (IH H). symmetry. apply Permutation_middle.
Qed.

Lemma allImages_set_empty (k : string) (m : RoomMap) :
  map_get k m = None -> allImages (map_set k [] m) = allImages m.
Proof.
  unfold allImages.
  induction m as [|[k0 v0] m IH]; simpl; intros H; [reflexivity|].
  destruct (k0 =? k); [discriminate|]. simpl. f_equal. auto.
Qed.

Lemma map_get_In_keys (k : string) (m : RoomMap) :
  map_get k m <> None <-> In k (keys m).
Proof.
  induction m as [|[k0 v0] m IH]; simpl.
  - split; [congruence | tauto].
  - destruct (k0 =? k) eqn:E.
    + apply String.eqb_eq in E. split; [auto | congruence].
    + apply String.eqb_neq in E. rewrite IH. split; [auto | intros [?|?]; congruence || auto].
Qed.

Lemma map_has_In_keys (k : string) (m : RoomMap) :
  map_has k m = true <-> In k (keys m).
Proof.
  rewrite <- map_get_In_keys. unfold map_has.
  destruct (map_get k m); split; congruence.
Qed.

(** What one successful [push] does to the map. *)
Lemma push_at_Ok (k : string) (x : ImageInput) (m : RoomMap) :
  In k (keys m) ->
  exists m', push_at k x m = Ok m'
    /\ keys m' = keys m
    /\ Permutation (allImages m') (x :: allImages m)
    /\ (forall k', k' <> k -> map_get k' m' = map_get k' m).
Proof.
  intros Hin. apply map_get_In_keys in Hin. unfold push_at.
  destruct (map_get k m) as [g|] eqn:E; [|congruence].
  eexists; split; [reflexivity|]. repeat split.
  - eapply keys_map_set_present; eauto.
  - apply allImages_push; auto.
  - intros k' Hk. rewrite map_get_set.
    destruct (k =? k') eqn:E'; [apply String.eqb_eq in E'; congruence | reflexivity].
Qed.


Lemma map_get_filter_kept (f : string * list ImageInput -> bool) (k : string) (m : RoomMap) :
  (forall v, f (k, v) = true) -> map_get k (filter f m) = map_get k m.
Proof.
  intros Hf. induction m as [|[k0 v0] m IH]; simpl; [reflexivity|].
  destruct (k0 =? k) eqn:E.
  - apply String.eqb_eq in E; subst k0. rewrite Hf. simpl.
    rewrite String.eqb_refl. reflexivity.
  - destruct (f (k0, v0)); simpl; [rewrite E|]; exact IH.
Qed.

Lemma NoDup_keys_filter (f : string * list ImageInput -> bool) (m : RoomMap) :
  NoDup (keys m) -> NoDup (keys (filter f m)).
Proof.
  unfold keys. induction m as [|[k0 v0] m IH]; simpl; intros H; [constructor|].
  inversion H as [|? ? Hn Hd]; subst.
  destruct (f (k0, v0)); simpl; auto.
  constructor; auto. intros Hin. apply Hn.
  apply in_map_iff in Hin as [kv [E Hin]]. apply filter_In in Hin as [Hin _].
  apply in_map_iff. exists kv; auto.
Qed.

Lemma map_delete_absent (k : string) (m : RoomMap) :
  ~ In k (keys m) -> map_delete k m = m.
Proof.
  unfold map_delete. induction m as [|[k0 v0] m IH]; simpl; intros H; [reflexivity|].
  destruct (k0 =? k) eqn:E.
  - apply String.eqb_eq in E. tauto.
  - simpl. f_equal. apply IH. tauto.
Qed.

Lemma allImages_delete (k : string) (o : list ImageInput) (m : RoomMap) :
  NoDup (keys m) -> map_get k m = Some o ->
  Permutation (allImages m) (o ++ allImages (map_delete k m)).
Proof.
  unfold allImages.
  induction m as [|[k0 v0] m IH]; simpl; intros Hd Hg; [discriminate|].
  inversion Hd as [|? ? Hn Hd']; subst.
  destruct (k0 =? k) eqn:E; simpl.
  - injection Hg as ->. apply String.eqb_eq in E; subst k0.
    fold (map_delete k m). rewrite map_delete_absent by exact Hn. reflexivity.
  - rewrite (IH Hd' Hg). rewrite !app_assoc.
    apply Permutation_app_tail, Permutation_app_comm.
Qed.

Lemma keys_delete_not_In (k : string) (m : RoomMap) : ~ In k (keys (map_delete k m)).
Proof.
  unfold keys, map_delete. intros H.
  apply in_map_iff in H as [[k0 v0] [E H]]. apply filter_In in H as [_ H].
  simpl in *. subst k0. rewrite String.eqb_refl in H. discriminate.
Qed.

(** *** Stable sorting *)

Lemma insertBy_perm {A : Type} (key : A -> nat) (x : A) (l : list A) :
  Permutation (insertBy key x l) (x :: l).
Proof.
  induction l as [|y ys IH]; simpl; [reflexivity|].
  destruct (key x <=? key y)%nat; [reflexivity|].
  rewrite IH. apply perm_swap.
Qed.

Lemma sortBy_perm {A : Type} (key : A -> nat) (l : list A) :
  Permutation (sortBy key l) l.
Proof.
  induction l as [|x xs IH]; simpl; [reflexivity|].
  rewrite insertBy_perm. constructor. exact IH.
Qed.

(** *** Grouping never throws and loses no image *)

Lemma groupImage_Ok (m : RoomMap) (x : ImageInput) :
  In "other" (keys m) ->
  exists m', groupImage m x = Ok m'
    /\ keys m' = keys m
    /\ Permutation (allImages m') (x :: allImages m).
Proof.
  intros Ho. unfold groupImage.
  destruct (map_has (roomOf x) m) eqn:E.
  - apply map_has_In_keys in E.
    destruct (push_at_Ok (roomOf x) x m E) as [m' [H1 [H2 [H3 _]]]]. eauto.
  - destruct (push_at_Ok "other" x m Ho) as [m' [H1 [H2 [H3 _]]]]. eauto.
Qed.

Lemma groupAll_Ok (l : list ImageInput) : forall m,
  In "other" (keys m) ->
  exists m', groupAll l m = Ok m'
    /\ keys m' = keys m
    /\ Permutation (allImages m') (l ++ allImages m).
Proof.
  induction l as [|x xs IH]; intros m Ho; simpl.
  - exists m. auto.
  - destruct (groupImage_Ok m x Ho) as [m1 [H1 [H2 H3]]]. rewrite H1. simpl.
    destruct (IH m1) as [m2 [G1 [G2 G3]]]; [rewrite H2; exact Ho|].
    exists m2. split; [exact G1|]. split; [congruence|].
    rewrite G3, H3. symmetry. apply Permutation_middle.
Qed.

Lemma allImages_removeEmptyGroups (m : RoomMap) :
  allImages (removeEmptyGroups m) = allImages m.
Proof.
  unfold allImages, removeEmptyGroups.
  induction m as [|[k0 v0] m IH]; simpl; [reflexivity|].
  destruct v0 as [|i v0]; simpl.
  - destruct (negb (k0 =? "other")); simpl; exact IH.
  - do 2 f_equal. exact IH.
Qed.

Lemma redistributeLoop_Ok (others : list ImageInput) : forall sortedRooms m,
  Forall (fun k => In k (keys m) /\ k <> "other") sortedRooms ->
  exists m', redistributeLoop others sortedRooms m = Ok m'
    /\ (NoDup (keys m) -> NoDup (keys m'))
    /\ map_get "other" m' = map_get "other" m
    /\ Permutation (allImages m') (others ++ allImages m).
Proof.
  induction others as [|x xs IH]; intros sortedRooms m Hs; simpl.
  - exists m. auto.
  - destruct sortedRooms as [|targetRoom rest].
    + set (m1 := if map_has "living" m then m else map_set "living" [] m).
      assert (Hl : In "living" (keys m1)).
      { unfold m1. destruct (map_has "living" m) eqn:E.
        - apply map_has_In_keys; exact E.
        - apply map_get_In_keys. rewrite map_get_set, String.eqb_refl. discriminate. }
      assert (Hm1 : (NoDup (keys m) -> NoDup (keys m1))
                    /\ map_get "other" m1 = map_get "other" m
                    /\ allImages m1 = allImages m).
      { unfold m1. destruct (map_has "living" m) eqn:E; [auto|].
        assert (En : map_get "living" m = None).
        { unfold map_has in E. destruct (map_get "living" m); congruence. }
        split; [|split].
        - intros Hd. rewrite keys_map_set_absent by exact En.
          apply NoDup_app; [exact Hd | repeat constructor; simpl; tauto |].
          intros a Ha [<-|[]]. apply map_get_In_keys in Ha. congruence.
        - rewrite map_get_set. reflexivity.
        - apply allImages_set_empty; exact En. }
      destruct Hm1 as [Hd1 [Ho1 Ha1]].
      destruct (push_at_Ok "living" x m1 Hl) as [m2 [P1 [P2 [P3 P4]]]].
      rewrite P1. simpl.
      destruct (IH [] m2 (Forall_nil _)) as [m3 [R1 [R2 [R3 R4]]]].
      exists m3. split; [exact R1|]. split; [|split].
      * intros Hd. apply R2. rewrite P2. auto.
      * rewrite R3, P4 by discriminate. exact Ho1.
      * rewrite R4, P3, Ha1. symmetry. apply Permutation_middle.
    + inversion Hs as [|? ? [Hin Hne] Hrest]; subst.
      destruct (push_at_Ok targetRoom x m Hin) as [m1 [P1 [P2 [P3 P4]]]].
      rewrite P1. simpl.
      destruct (IH (sortBy (groupLength m1) (targetRoom :: rest)) m1)
        as [m3 [R1 [R2 [R3 R4]]]].
      { rewrite Forall_forall. intros k Hk.
        apply (Permutation_in _ (sortBy_perm _ _)) in Hk.
        rewrite Forall_forall in Hs. rewrite P2. apply Hs. exact Hk. }
      exists m3. split; [exact R1|]. split; [|split].
      * intros Hd. apply R2. rewrite P2. exact Hd.
      * rewrite R3. apply P4. congruence.
      * rewrite R4, P3. symmetry. apply Permutation_middle.
Qed.

Lemma NoDup_keys_initialGroups : NoDup (keys initialGroups).
Proof.
  vm_compute. repeat constructor; simpl; intuition discriminate.
Qed.

(** The outcome of grouping: a map with distinct keys, none of them
    ['other'] unless no image was given a group by default, holding
    every input image once. *)
Lemma groupImagesByRoom_Ok (l : list ImageInput) :
  exists m, groupImagesByRoom l = Ok m
    /\ NoDup (keys m)
    /\ Permutation (allImages m) l.
Proof.
  unfold groupImagesByRoom.
  destruct (groupAll_Ok l initialGroups) as [m1 [G1 [G2 G3]]].
  { vm_compute. tauto. }
  rewrite G1. simpl.
  assert (Hd2 : NoDup (keys (removeEmptyGroups m1))).
  { apply NoDup_keys_filter. rewrite G2. apply NoDup_keys_initialGroups. }
  assert (Ha2 : Permutation (allImages (removeEmptyGroups m1)) l).
  { rewrite allImages_removeEmptyGroups, G3.
    replace (allImages initialGroups) with (@nil ImageInput) by reflexivity.
    rewrite app_nil_r. reflexivity. }
  set (m2 := removeEmptyGroups m1) in *.
  destruct (map_get "other" m2) as [o|] eqn:Eo; simpl.
  - destruct (0 <? List.length o)%nat eqn:El; [|exists m2; auto].
    unfold redistributeOtherImages.
    match goal with |- context [redistributeLoop o ?s m2] =>
      destruct (redistributeLoop_Ok o s m2) as [m3 [R1 [R2 [R3 R4]]]] end.
    { rewrite Forall_forall. intros k Hk.
      apply (Permutation_in _ (sortBy_perm _ _)) in Hk.
      apply in_map_iff in Hk as [[k0 v0] [E Hk]]. simpl in E; subst k0.
      apply filter_In in Hk as [Hk Hf]. simpl in Hf.
      apply andb_prop in Hf as [Hf _]. apply negb_true_iff in Hf.
      apply String.eqb_neq in Hf. split; [|exact Hf].
      unfold keys. apply in_map_iff. exists (k, v0). auto. }
    rewrite R1. simpl. eexists. split; [reflexivity|]. split.
    + apply NoDup_keys_filter. auto.
    + assert (D3 : Permutation (allImages m3)
                                 (o ++ allImages (map_delete "other" m3))).
      { apply allImages_delete; [exact (R2 Hd2) | rewrite R3; exact Eo]. }
      rewrite R4 in D3. apply Permutation_app_inv_l in D3.
      rewrite <- D3. exact Ha2.
  - exists m2. auto.
Qed.


(** *** Scenes cover the groups *)

Lemma ceilDiv_covers (a b : nat) : 0 < b -> a <= ceilDiv a b * b.
Proof.
  intros Hb. unfold ceilDiv.
  pose proof (Nat.div_mod_eq (a + b - 1) b) as E.
  pose proof (Nat.mod_upper_bound (a + b - 1) b) as U. nia.
Qed.

Lemma ceilDiv_pos (a b : nat) : 0 < a -> 0 < b -> 0 < ceilDiv a b.
Proof.
  intros Ha Hb. pose proof (ceilDiv_covers a b Hb). nia.
Qed.

Lemma slices_cover {A : Type} (size : nat) : forall (n : nat) (l : list A),
  0 < size -> List.length l <= n * size ->
  flat_map (fun i => slice (i * size) ((i + 1) * size) l) (seq 0 n) = l.
Proof.
  induction n as [|n IH]; intros l Hs Hl; simpl in *.
  - destruct l; [reflexivity | simpl in Hl; lia].
  - unfold slice at 1. simpl. rewrite Nat.add_0_r, Nat.sub_0_r.
    rewrite <- seq_shift, flat_map_concat_map, map_map, <- flat_map_concat_map.
    etransitivity; [|apply (firstn_skipn size l)]. f_equal.
    etransitivity;
      [|apply (IH (skipn size l)); [exact Hs | rewrite length_skipn; lia]].
    apply flat_map_ext. intros i. unfold slice.
    replace ((i + 1) * size - i * size) with size by lia.
    replace ((S i + 1) * size - S i * size) with size by lia.
    rewrite skipn_skipn. f_equal. f_equal. lia.
Qed.

Lemma shownImages_createRoomScenes (room : string) (l : list ImageInput)
  (timing : TimingConstraints) (k : nat) :
  shownImages (createRoomScenes room l timing k) = l.
Proof.
  unfold shownImages, createRoomScenes.
  destruct ((4 <? List.length l)%nat && negb (room =? "exterior")) eqn:E.
  - apply andb_prop in E as [E _]. apply Nat.ltb_lt in E.
    rewrite flat_map_concat_map, map_map, <- flat_map_concat_map. cbn [images].
    assert (H3 : 0 < ceilDiv (List.length l) 3) by (apply ceilDiv_pos; lia).
    apply slices_cover.
    + apply ceilDiv_pos; [lia | exact H3].
    + rewrite Nat.mul_comm. apply ceilDiv_covers. exact H3.
  - simpl. apply app_nil_r.
Qed.

Lemma createRoomScenes_nonempty (room : string) (l : list ImageInput)
  (timing : TimingConstraints) (k : nat) :
  createRoomScenes room l timing k <> [].
Proof.
  unfold createRoomScenes.
  destruct ((4 <? List.length l)%nat && negb (room =? "exterior")) eqn:E; [|discriminate].
  apply andb_prop in E as [E _]. apply Nat.ltb_lt in E.
  assert (H3 : 0 < ceilDiv (List.length l) 3) by (apply ceilDiv_pos; lia).
  destruct (ceilDiv (List.length l) 3); [lia | discriminate].
Qed.

Lemma createRoomScenes_fresh (room : string) (l : list ImageInput)
  (timing : TimingConstraints) (k : nat) :
  Forall (fun s => scene_room s = room /\ type s = veo
                   /\ duration s = idealSegmentDuration timing)
         (createRoomScenes room l timing k).
Proof.
  unfold createRoomScenes.
  destruct ((4 <? List.length l)%nat && negb (room =? "exterior")).
  - rewrite Forall_forall. intros s Hs.
    apply in_map_iff in Hs as [i [<- _]]. simpl. auto.
  - repeat constructor.
Qed.

Lemma shownImages_createScenesFrom (timing : TimingConstraints) :
  forall (m : RoomMap) (k : nat),
  shownImages (createScenesFrom m timing k) = allImages m.
Proof.
  unfold shownImages, allImages.
  induction m as [|[room l] m IH]; intros k; simpl; [reflexivity|].
  destruct l as [|x l]; simpl (List.length _ =? 0)%nat; cbv iota.
  - simpl. apply IH.
  - rewrite flat_map_app, IH. f_equal.
    apply (shownImages_createRoomScenes room (x :: l) timing k).
Qed.

Lemma createScenesFrom_fresh (timing : TimingConstraints) :
  forall (m : RoomMap) (k : nat),
  Forall (fun s => In (scene_room s) (keys m) /\ type s = veo
                   /\ duration s = idealSegmentDuration timing)
         (createScenesFrom m timing k).
Proof.
  induction m as [|[room l] m IH]; intros k; simpl; [constructor|].
  destruct (List.length l =? 0)%nat.
  - eapply Forall_impl; [|apply IH]. simpl. intros s [H1 H2]. auto.
  - apply Forall_app. split.
    + eapply Forall_impl; [|apply createRoomScenes_fresh].
      simpl. intros s [H1 H2]. auto.
    + eapply Forall_impl; [|apply IH]. simpl. intros s [H1 H2]. auto.
Qed.


(** *** The optimizer *)

Lemma sortBy_sorted {A : Type} (key : A -> nat) (l : list A) :
  StronglySorted (fun a b => key a <= key b) (sortBy key l).
Proof.
  induction l as [|x xs IH]; simpl; [constructor|].
  induction IH as [|y ys Hys IHs Hall]; simpl.
  - repeat constructor.
  - destruct (key x <=? key y)%nat eqn:E.
    + apply Nat.leb_le in E. constructor.
      * constructor; assumption.
      * constructor; [exact E|].
        eapply Forall_impl; [|exact Hall]. simpl. intros; lia.
    + apply Nat.leb_gt in E. constructor; [exact IHs|].
      apply (Permutation_Forall (Permutation_sym (insertBy_perm key x ys))).
      constructor; [lia | exact Hall].
Qed.

Lemma sorted_by_key {A : Type} (key : A -> nat) (l : list A) :
  StronglySorted (fun a b => key a <= key b) l <-> StronglySorted le (map key l).
Proof.
  induction l as [|x xs IH]; simpl.
  - split; constructor.
  - split; intros H; inversion H; subst; constructor; try (apply IH; assumption).
    + rewrite Forall_map. assumption.
    + rewrite <- Forall_map. assumption.
Qed.

(** A count below the cap is below every whole number the cap does not
    exceed. *)
Lemma below_cap (a n : nat) (cap : number) :
  ltb (of_nat a) cap = true -> leb cap (of_nat n) = true -> a < n.
Proof.
  unfold ltb, leb, of_nat. destruct cap as [q| | |]; try discriminate.
  destruct (Qcompare (inject_Z (Z.of_nat a)) q) eqn:C; try discriminate.
  intros _ H. apply Qle_bool_iff in H. apply Qlt_alt in C.
  assert (L : (inject_Z (Z.of_nat a) < inject_Z (Z.of_nat n))%Q)
    by (eapply Qlt_le_trans; eauto).
  rewrite <- Zlt_Qlt in L. lia.
Qed.

Lemma assignTechniques_spec (options : Options) (cap : number) :
  forall (l : list Scene) (used : nat) (total : number) l' used' total',
  assignTechniques options cap l used total = (l', used', total') ->
  map content l' = map content l
  /\ used' = used + List.length (filter isVeo l')
  /\ total' = sumFrom total l'
  /\ (forall n, leb cap (of_nat n) = true -> used' <= Nat.max used n).
Proof.
  induction l as [|s l IH]; intros used total l' used' total' H;
    cbn [assignTechniques] in H.
  - injection H as <- <- <-. simpl. repeat split; lia.
  - destruct (ltb (of_nat used) cap && preferVeoOverKenBurns options) eqn:C;
      match type of H with context [assignTechniques ?o ?c ?r ?u ?t] =>
        destruct (assignTechniques o c r u t) as [[r' u'] t'] eqn:R end;
      injection H as <- <- <-;
      apply IH in R as [R1 [R2 [R3 R4]]];
      (split; [simpl; rewrite R1; reflexivity |]);
      (split; [simpl; lia |]);
      (split; [exact R3 |]).
    + intros n Hn. specialize (R4 n Hn).
      apply andb_prop in C as [C _].
      pose proof (below_cap used n cap C Hn). lia.
    + intros n Hn. specialize (R4 n Hn). lia.
Qed.

Lemma adjustSceneDurations_content (l : list Scene) (target : number) :
  map content (adjustSceneDurations l target) = map content l
  /\ map type (adjustSceneDurations l target) = map type l.
Proof.
  unfold adjustSceneDurations. rewrite !map_map. split;
    apply map_ext; intros s; destruct (type s) eqn:E; simpl; auto.
Qed.

Lemma filter_isVeo_by_type (a b : list Scene) :
  map type a = map type b ->
  List.length (filter isVeo a) = List.length (filter isVeo b).
Proof.
  revert b. induction a as [|x xs IH]; intros [|y ys] H; try discriminate; [reflexivity|].
  simpl in H. injection H as H1 H2. simpl.
  assert (E : isVeo x = isVeo y) by (unfold isVeo; rewrite H1; reflexivity).
  rewrite E. destruct (isVeo y); simpl; rewrite (IH ys H2); reflexivity.
Qed.

(** The plan is the priority-sorted scenes, retyped and retimed, with
    at most one filler appended. *)
Lemma optimizeScenes_shape (options : Options) (l : list Scene)
  (timing : TimingConstraints) :
  exists core extra,
    optimizeScenes options l timing = (core ++ extra)%list
    /\ map content core = map content (sortBy priorityOf l)
    /\ (forall n, leb (timing_maxVeoSegments timing) (of_nat n) = true ->
        List.length (filter isVeo core) <= n)
    /\ (extra = []
        \/ exists sourceScene additionalTime,
             In sourceScene core
             /\ 1 < List.length (images sourceScene)
             /\ extra = [fillerScene sourceScene additionalTime]).
Proof.
  unfold optimizeScenes.
  destruct (assignTechniques options (timing_maxVeoSegments timing)
              (sortBy priorityOf l) 0 (of_nat 0)) as [[pass1 used] total] eqn:A.
  apply assignTechniques_spec in A as [A1 [A2 [A3 A4]]].
  set (pass2 := if negb (eqb total (availableContentTime timing))
                then adjustSceneDurations pass1 (availableContentTime timing)
                else pass1).
  assert (P : map content pass2 = map content pass1
              /\ map type pass2 = map type pass1).
  { unfold pass2. destruct (negb _); [apply adjustSceneDurations_content | auto]. }
  destruct P as [P1 P2].
  assert (V : forall n, leb (timing_maxVeoSegments timing) (of_nat n) = true ->
                        List.length (filter isVeo pass2) <= n).
  { intros n Hn. rewrite (filter_isVeo_by_type _ _ P2).
    specialize (A4 n Hn). lia. }
  destruct (ltb total _).
  - unfold addFillerScenes.
    destruct (filter (fun s => (1 <? List.length (images s))%nat) pass2)
      as [|src rest] eqn:F.
    + exists pass2, []. rewrite app_nil_r. repeat split; auto; congruence.
    + destruct (gtb _ _).
      * exists pass2, [fillerScene src (sub (availableContentTime timing) total)].
        repeat split; auto; [congruence|]. right.
        exists src, (sub (availableContentTime timing) total).
        assert (Hin : In src (filter (fun s => (1 <? List.length (images s))%nat) pass2))
          by (rewrite F; left; reflexivity).
        apply filter_In in Hin as [Hin Hlen]. apply Nat.ltb_lt in Hlen. auto.
      * exists pass2, []. rewrite app_nil_r. repeat split; auto; congruence.
  - exists pass2, []. rewrite app_nil_r. repeat split; auto; congruence.
Qed.


(** *** [planScenes] as a whole *)

Lemma shownImages_by_content (a b : list Scene) :
  map content a = map content b -> shownImages a = shownImages b.
Proof.
  unfold shownImages. rewrite !flat_map_concat_map. intros H.
  replace (map images a) with (map snd (map content a))
    by (rewrite map_map; reflexivity).
  rewrite H, map_map. reflexivity.
Qed.

Lemma priorities_by_content (a b : list Scene) :
  map content a = map content b -> map priorityOf a = map priorityOf b.
Proof.
  intros H.
  assert (E : forall l, map priorityOf l
              = map (fun c => priorityOfRoom (snd (fst c))) (map content l))
    by (intros l; rewrite map_map; reflexivity).
  rewrite (E a), (E b), H. reflexivity.
Qed.

Lemma last_image (l : list ImageInput) :
  0 < List.length l ->
  exists x, skipn (List.length l - 1) l = [x] /\ In x l.
Proof.
  intros H. destruct (exists_last (l := l)) as [l' [x ->]].
  { destruct l; [simpl in H; lia | discriminate]. }
  exists x. rewrite length_app. simpl.
  replace (List.length l' + 1 - 1) with (List.length l' + 0) by lia.
  rewrite skipn_app, Nat.add_0_r, skipn_all.
  replace (List.length l' - List.length l') with 0 by lia. simpl.
  split; [reflexivity | apply in_or_app; right; left; reflexivity].
Qed.

(** How every plan is built: the groups hold the input once, the core of
    the plan is the priority-sorted scenes of the groups, and a filler
    taken from a scene of the core may follow. *)
Lemma planScenes_shape (options : Options) (input : list ImageInput)
  (outputConfig : OutputConfig) :
  exists m core extra,
    groupImagesByRoom input = Ok m
    /\ planScenes options input outputConfig
       = Ok (buildScenePlan (core ++ extra))
    /\ Permutation (shownImages core) input
    /\ StronglySorted byPriority core
    /\ (forall n, leb (maxVeoSegments options) (of_nat n) = true ->
        List.length (filter isVeo core) <= n)
    /\ (extra = []
        \/ exists sourceScene additionalTime,
             In sourceScene core
             /\ 1 < List.length (images sourceScene)
             /\ extra = [fillerScene sourceScene additionalTime]).
Proof.
  destruct (groupImagesByRoom_Ok input) as [m [G1 [G2 G3]]].
  set (timing := calculateTiming options outputConfig (List.length m)).
  destruct (optimizeScenes_shape options (createScenes m timing) timing)
    as [core [extra [O1 [O2 [O3 O4]]]]].
  exists m, core, extra. split; [exact G1|]. split; [|split; [|split; [|split]]].
  - unfold planScenes. rewrite G1. simpl. fold timing. rewrite O1. reflexivity.
  - rewrite (shownImages_by_content _ _ O2). unfold shownImages.
    rewrite (Permutation_flat_map images (sortBy_perm priorityOf _)).
    fold (shownImages (createScenes m timing)).
    unfold createScenes. rewrite shownImages_createScenesFrom. exact G3.
  - unfold byPriority. apply (proj2 (sorted_by_key priorityOf core)).
    rewrite (priorities_by_content _ _ O2).
    apply (proj1 (sorted_by_key priorityOf _)). apply sortBy_sorted.
  - exact O3.
  - exact O4.
Qed.


Lemma optimizeScenes_nil (options : Options) (timing : TimingConstraints) :
  optimizeScenes options [] timing = [].
Proof.
  unfold optimizeScenes. cbn [sortBy assignTechniques].
  destruct (negb (eqb (of_nat 0) (availableContentTime timing)));
    destruct (ltb (of_nat 0) (mul64 (availableContentTime timing) (binary64 (95 # 100))));
    reflexivity.
Qed.

Lemma StronglySorted_nth {A : Type} (R : A -> A -> Prop) (l : list A) :
  StronglySorted R l ->
  forall i j a b, nth_error l i = Some a -> nth_error l j = Some b ->
                  i < j -> R a b.
Proof.
  induction 1 as [|x xs Hs IH Hall]; intros i j a b Hi Hj Hlt.
  - destruct i; discriminate.
  - destruct j as [|j]; [lia|]. destruct i as [|i]; simpl in *.
    + injection Hi as <-. rewrite Forall_forall in Hall. apply Hall.
      eapply nth_error_In; eauto.
    + eapply IH; eauto. lia.
Qed.

Lemma sorted_entryAfterBedroom (l : list Scene) :
  StronglySorted byPriority l -> entryAfterBedroom l.
Proof.
  intros Hs i j e b Hi He Hj Hb.
  destruct (Nat.lt_trichotomy i j) as [Hlt | [-> | Hgt]]; [| |exact Hgt]; exfalso.
  - pose proof (StronglySorted_nth _ _ Hs i j e b Hi Hj Hlt) as P.
    unfold byPriority, priorityOf in P. rewrite He, Hb in P.
    vm_compute in P. lia.
  - rewrite Hi in Hj. injection Hj as ->. rewrite He in Hb. discriminate.
Qed.

(** C2 (as amended).  [planScenes] never throws, whatever the image
    list: the empty list is planned as a plan without scenes, and every
    non-empty list as a plan with at least one scene. *)
Theorem planScenes_never_throws (options : Options) (input : list ImageInput)
  (outputConfig : OutputConfig) :
  exists plan, planScenes options input outputConfig = Ok plan
    /\ (input = [] -> scenes plan = [])
    /\ (input <> [] -> scenes plan <> []).
Proof.
  destruct (planScenes_shape options input outputConfig)
    as [m [core [extra [G [P [Hperm _]]]]]].
  exists (buildScenePlan (core ++ extra)). split; [exact P|]. split.
  - intros ->. unfold planScenes in P. simpl in P.
    rewrite optimizeScenes_nil in P. injection P as P.
    simpl. rewrite <- P. reflexivity.
  - intros Hne. simpl. intros E. apply app_eq_nil in E as [-> _].
    simpl in Hperm. apply Permutation_nil in Hperm. congruence.
Qed.

(** C2, the claim as stated fails: the empty image list is planned, not
    rejected. *)
Lemma empty_input_is_planned :
  planScenes Samples.defaults [] (Samples.seconds 90) = Ok Samples.emptyPlan
  /\ ~ (exists e, planScenes Samples.defaults [] (Samples.seconds 90) = Throw e).
Proof.
  split; [reflexivity|]. intros [e H]. discriminate H.
Qed.

(** C3, the claim as stated fails: with two living-room photos and a
    100 s target the last photo is shown by the room's scene and again
    by the filler, so the scenes do not partition the input. *)
Lemma filler_repeats_an_image :
  exists plan,
    planScenes Samples.defaults Samples.twoLiving (Samples.seconds 100) = Ok plan
    /\ ~ partitions (scenes plan) Samples.twoLiving.
Proof.
  eexists. split; [vm_compute; reflexivity|].
  intros H. apply Permutation_length in H. vm_compute in H. discriminate.
Qed.

(** The first element a filter keeps: the elements before it are all
    dropped. *)
Lemma filter_first {A : Type} (f : A -> bool) (l : list A) (x : A) (rest : list A) :
  filter f l = x :: rest ->
  exists before after,
    l = (before ++ x :: after)%list
    /\ Forall (fun y => f y = false) before /\ f x = true.
Proof.
  induction l as [|y l IH]; cbn [filter]; intros H; [discriminate|].
  destruct (f y) eqn:E.
  - injection H as -> _. exists [], l. split; [reflexivity|].
    split; [constructor|exact E].
  - destruct (IH H) as [before [after [-> [F X]]]].
    exists (y :: before), after. split; [reflexivity|].
    split; [constructor; assumption|exact X].
Qed.

(** The filler is taken from the first scene that shows more than one
    image. *)
Lemma optimizeScenes_filler (options : Options) (l : list Scene)
  (timing : TimingConstraints) :
  exists core extra,
    optimizeScenes options l timing = (core ++ extra)%list
    /\ map content core = map content (sortBy priorityOf l)
    /\ (extra = []
        \/ exists before sourceScene after additionalTime,
             core = (before ++ sourceScene :: after)%list
             /\ Forall (fun s => List.length (images s) <= 1) before
             /\ 1 < List.length (images sourceScene)
             /\ extra = [fillerScene sourceScene additionalTime]).
Proof.
  unfold optimizeScenes.
  destruct (assignTechniques options (timing_maxVeoSegments timing)
              (sortBy priorityOf l) 0 (of_nat 0)) as [[pass1 used] total] eqn:A.
  apply assignTechniques_spec in A as [A1 _].
  set (pass2 := if negb (eqb total (availableContentTime timing))
                then adjustSceneDurations pass1 (availableContentTime timing)
                else pass1).
  assert (P1 : map content pass2 = map content (sortBy priorityOf l)).
  { unfold pass2. destruct (negb _); [|exact A1].
    rewrite (proj1 (adjustSceneDurations_content _ _)). exact A1. }
  destruct (ltb total _).
  - unfold addFillerScenes.
    destruct (filter (fun s => (1 <? List.length (images s))%nat) pass2)
      as [|src rest] eqn:F.
    + exists pass2, []. rewrite app_nil_r. auto.
    + destruct (gtb _ _).
      * exists pass2, [fillerScene src (sub (availableContentTime timing) total)].
        split; [reflexivity|]. split; [exact P1|]. right.
        apply filter_first in F as [before [after [E [Fb Fx]]]].
        exists before, src, after, (sub (availableContentTime timing) total).
        split; [exact E|]. split; [|split; [|reflexivity]].
        -- eapply Forall_impl; [|exact Fb]. cbv beta. intros s Hs.
           apply Nat.ltb_ge in Hs. exact Hs.
        -- apply Nat.ltb_lt in Fx. exact Fx.
      * exists pass2, []. rewrite app_nil_r. auto.
  - exists pass2, []. rewrite app_nil_r. auto.
Qed.

Lemma last_of_several (l : list ImageInput) :
  1 < List.length l ->
  exists front x,
    l = (front ++ [x])%list /\ front <> []
    /\ skipn (List.length l - 1) l = [x].
Proof.
  intros H. destruct (exists_last (l := l)) as [front [x ->]].
  { destruct l; [simpl in H; lia | discriminate]. }
  exists front, x. split; [reflexivity|]. rewrite length_app in *. cbn [List.length] in *.
  split.
  - intros ->. simpl in H. lia.
  - replace (List.length front + 1 - 1) with (List.length front + 0) by lia.
    rewrite skipn_app, Nat.add_0_r, skipn_all.
    replace (List.length front - List.length front) with 0 by lia. reflexivity.
Qed.

(** C3 (as amended).  The scenes of a plan, leaving aside the filler
    that may be appended last, partition the input: every input image is
    in exactly one of them.  The filler, when present, shows one image a
    second time: the last image of the first scene of the plan that
    shows more than one image. *)
Theorem scenes_partition_input_up_to_filler (options : Options)
  (input : list ImageInput) (outputConfig : OutputConfig) (plan : ScenePlan) :
  planScenes options input outputConfig = Ok plan ->
  exists core extra,
    scenes plan = (core ++ extra)%list
    /\ partitions core input
    /\ (extra = []
        \/ exists before sourceScene after front x additionalTime,
             core = (before ++ sourceScene :: after)%list
             /\ Forall (fun s => List.length (images s) <= 1) before
             /\ images sourceScene = (front ++ [x])%list
             /\ front <> []
             /\ extra = [fillerScene sourceScene additionalTime]
             /\ images (fillerScene sourceScene additionalTime) = [x]).
Proof.
  intros H.
  destruct (groupImagesByRoom_Ok input) as [m [G1 [G2 G3]]].
  unfold planScenes in H. rewrite G1 in H. cbn [bind] in H.
  set (timing := calculateTiming options outputConfig (List.length m)) in H.
  destruct (optimizeScenes_filler options (createScenes m timing) timing)
    as [core [extra [O1 [O2 O3]]]].
  rewrite O1 in H. injection H as <-. cbn [scenes buildScenePlan].
  exists core, extra. split; [reflexivity|]. split.
  - unfold partitions. rewrite (shownImages_by_content _ _ O2). unfold shownImages.
    rewrite (Permutation_flat_map images (sortBy_perm priorityOf _)).
    fold (shownImages (createScenes m timing)).
    unfold createScenes. rewrite shownImages_createScenesFrom. exact G3.
  - destruct O3 as [-> | [before [src [after [t [E [Fb [Len ->]]]]]]]];
      [left; reflexivity|].
    right. destruct (last_of_several (images src) Len) as [front [x [Ei [Ne Es]]]].
    exists before, src, after, front, x, t.
    split; [exact E|]. split; [exact Fb|]. split; [exact Ei|].
    split; [exact Ne|]. split; [reflexivity|]. exact Es.
Qed.

Lemma scenes_partition_input_up_to_filler_witness :
  exists core extra,
    scenes (Samples.planOf (planScenes Samples.defaults Samples.twoLiving
                              (Samples.seconds 100)))
    = (core ++ extra)%list
    /\ partitions core Samples.twoLiving
    /\ (extra = []
        \/ exists before sourceScene after front x additionalTime,
             core = (before ++ sourceScene :: after)%list
             /\ Forall (fun s => List.length (images s) <= 1) before
             /\ images sourceScene = (front ++ [x])%list
             /\ front <> []
             /\ extra = [fillerScene sourceScene additionalTime]
             /\ images (fillerScene sourceScene additionalTime) = [x]).
Proof.
  apply (scenes_partition_input_up_to_filler Samples.defaults Samples.twoLiving
           (Samples.seconds 100)).
  vm_compute. reflexivity.
Defined.

(** C4.  The number of scenes given the AI-synthesis technique is the
    [veoSegments] count of the plan and is at most [maxVeoSegments]
    (fifteen unless configured): it stays within every whole number [n]
    that [maxVeoSegments] does not exceed, so within [maxVeoSegments]
    itself when that is a whole number. *)
Theorem veo_segments_within_cap (n : nat) (options : Options)
  (input : list ImageInput) (outputConfig : OutputConfig) (plan : ScenePlan) :
  leb (maxVeoSegments options) (of_nat n) = true ->
  planScenes options input outputConfig = Ok plan ->
  veoSegments plan = List.length (filter isVeo (scenes plan))
  /\ List.length (filter isVeo (scenes plan)) <= n.
Proof.
  intros Hn H.
  destruct (planScenes_shape options input outputConfig)
    as [m [core [extra [G [P [_ [_ [Hcap Hextra]]]]]]]].
  rewrite P in H. injection H as <-. simpl. split; [reflexivity|].
  rewrite filter_app, length_app.
  specialize (Hcap n Hn).
  destruct Hextra as [-> | [src [t [_ [_ ->]]]]]; simpl; lia.
Qed.

Lemma veo_segments_within_cap_witness :
  veoSegments (Samples.planOf (planScenes Samples.defaults Samples.twoPerRoom
                                 (Samples.seconds 90)))
  = List.length (filter isVeo
      (scenes (Samples.planOf (planScenes Samples.defaults Samples.twoPerRoom
                                 (Samples.seconds 90)))))
  /\ List.length (filter isVeo
      (scenes (Samples.planOf (planScenes Samples.defaults Samples.twoPerRoom
                                 (Samples.seconds 90))))) <= 15.
Proof.
  apply (veo_segments_within_cap 15 Samples.defaults Samples.twoPerRoom
           (Samples.seconds 90)).
  - reflexivity.
  - vm_compute. reflexivity.
Defined.

(** C10, the claim as stated fails: with two bedroom photos around an
    entry photo and a 100 s target the plan is bedroom, entry, bedroom
    filler; it is not sorted by priority and an entry scene precedes a
    bedroom scene. *)
Lemma filler_breaks_priority_order :
  exists plan,
    planScenes Samples.defaults Samples.bedroomsAndEntry (Samples.seconds 100)
    = Ok plan
    /\ map scene_room (scenes plan) = ["bedroom"; "entry"; "bedroom"]
    /\ ~ StronglySorted byPriority (scenes plan)
    /\ ~ entryAfterBedroom (scenes plan).
Proof.
  eexists. split; [vm_compute; reflexivity|]. split; [reflexivity|]. split.
  - intros H. apply sorted_entryAfterBedroom in H.
    specialize (H 1 2 _ _ eq_refl eq_refl eq_refl eq_refl). lia.
  - intros H. specialize (H 1 2 _ _ eq_refl eq_refl eq_refl eq_refl). lia.
Qed.

(** C10 (as amended).  Leaving aside the filler that may be appended
    last, the scenes of a plan are in the fixed Veo-priority order
    (exterior, living, kitchen, bedroom, entry, bathroom, backyard, then
    unranked rooms), not in the room-flow order of the grouping: among
    them an entry scene always comes after every bedroom scene.  The
    filler goes last whatever its room. *)
Theorem scenes_in_priority_order_up_to_filler (options : Options)
  (input : list ImageInput) (outputConfig : OutputConfig) (plan : ScenePlan) :
  planScenes options input outputConfig = Ok plan ->
  exists core extra,
    scenes plan = (core ++ extra)%list
    /\ partitions core input
    /\ StronglySorted byPriority core
    /\ entryAfterBedroom core
    /\ (extra = []
        \/ exists sourceScene additionalTime,
             In sourceScene core
             /\ extra = [fillerScene sourceScene additionalTime]).
Proof.
  intros H.
  destruct (planScenes_shape options input outputConfig)
    as [m [core [extra [G [P [Hperm [Hsorted [_ Hextra]]]]]]]].
  rewrite P in H. injection H as <-.
  exists core, extra. repeat split; auto.
  - apply sorted_entryAfterBedroom. exact Hsorted.
  - destruct Hextra as [-> | [src [t [Hin [_ ->]]]]]; [left; reflexivity|].
    right. exists src, t. auto.
Qed.

Lemma scenes_in_priority_order_up_to_filler_witness :
  exists core extra,
    scenes (Samples.planOf (planScenes Samples.defaults Samples.bedroomsAndEntry
                              (Samples.seconds 100)))
    = (core ++ extra)%list
    /\ partitions core Samples.bedroomsAndEntry
    /\ StronglySorted byPriority core
    /\ entryAfterBedroom core
    /\ (extra = []
        \/ exists sourceScene additionalTime,
             In sourceScene core
             /\ extra = [fillerScene sourceScene additionalTime]).
Proof.
  apply (scenes_in_priority_order_up_to_filler Samples.defaults
           Samples.bedroomsAndEntry (Samples.seconds 100)).
  vm_compute. reflexivity.
Defined.

End PlannerFacts.

(** ** The scene planner: durations *)

Module PlannerTiming.
Import Js Planner PlannerFacts.

Lemma Qn_S (n : nat) : (Qn (S n) == Qn n + 1)%Q.
Proof.
  unfold Qn. rewrite Nat2Z.inj_succ. unfold Z.succ.
  rewrite inject_Z_plus. reflexivity.
Qed.

Lemma div_Fin (a b : Q) : ~ (b == 0)%Q -> div (Fin a) (Fin b) = Fin (a / b).
Proof.
  intros H. unfold div. destruct (Qeq_bool b 0) eqn:E; [|reflexivity].
  apply Qeq_bool_iff in E. contradiction.
Qed.

(** The three passes of [optimizeScenes], named. *)
Lemma optimizeScenes_stages (options : Options) (l : list Scene)
  (timing : TimingConstraints) :
  exists pass1 used total extra,
    assignTechniques options (timing_maxVeoSegments timing)
      (sortBy priorityOf l) 0 (of_nat 0) = (pass1, used, total)
    /\ optimizeScenes options l timing
       = ((if negb (eqb total (availableContentTime timing))
           then adjustSceneDurations pass1 (availableContentTime timing)
           else pass1) ++ extra)%list
    /\ (extra = [] \/ exists src t, extra = [fillerScene src t]).
Proof.
  unfold optimizeScenes.
  destruct (assignTechniques options (timing_maxVeoSegments timing)
              (sortBy priorityOf l) 0 (of_nat 0)) as [[pass1 used] total].
  exists pass1, used, total.
  set (pass2 := if negb (eqb total (availableContentTime timing))
                then adjustSceneDurations pass1 (availableContentTime timing)
                else pass1).
  destruct (ltb total (mul64 (availableContentTime timing) (binary64 (95 # 100)))).
  - unfold addFillerScenes.
    destruct (filter (fun s => (1 <? List.length (images s))%nat) pass2)
      as [|src rest].
    + exists []. rewrite app_nil_r. auto.
    + destruct (gtb (sub (availableContentTime timing) total) (of_nat 3)).
      * eexists. split; [reflexivity|]. split; [reflexivity|]. right. eauto.
      * exists []. rewrite app_nil_r. auto.
  - exists []. rewrite app_nil_r. auto.
Qed.


End PlannerTiming.

(** ** The render job controller *)

Module VeoFacts.
Import Js Veo VeoClient.

(** *** The base delay *)

Lemma pow_Fin (q : Q) (n : nat) : pow (Fin q) n = Fin (powQ q n).
Proof.
  induction n as [|n IH]; simpl; [reflexivity|]. rewrite IH. reflexivity.
Qed.

Lemma baseDelay_Fin (k : nat) : baseDelay k = Fin (baseQ k).
Proof.
  unfold baseDelay, baseQ. rewrite pow_Fin. unfold of_Z. cbn [mul min leb].
  destruct (Qle_bool _ _); reflexivity.
Qed.

Lemma backoff_Fin (k : nat) (r : Q) :
  backoff k r = Fin (baseQ k + r * inject_Z 1000).
Proof.
  unfold backoff. rewrite baseDelay_Fin. reflexivity.
Qed.

Lemma powQ_pos (n : nat) : (0 < powQ (3 # 2) n)%Q.
Proof.
  induction n as [|n IH]; simpl; [reflexivity|]. nra.
Qed.

Lemma baseQ_le_cap (k : nat) : (baseQ k <= inject_Z 30000)%Q.
Proof.
  unfold baseQ. cbv zeta.
  destruct (Qle_bool _ _) eqn:E; [apply Qle_bool_iff; exact E | apply Qle_refl].
Qed.

Lemma baseQ_step (k : nat) : (baseQ k <= baseQ (S k))%Q.
Proof.
  unfold baseQ. cbv zeta. cbn [powQ].
  pose proof (powQ_pos k) as P.
  set (p := powQ (3 # 2) k) in *.
  destruct (Qle_bool (inject_Z 1000 * p) (inject_Z 30000)) eqn:E1;
    destruct (Qle_bool (inject_Z 1000 * ((3 # 2) * p)) (inject_Z 30000)) eqn:E2.
  - change (inject_Z 1000) with 1000%Q. lra.
  - apply Qle_bool_iff in E1. exact E1.
  - assert (N1 : ~ (inject_Z 1000 * p <= inject_Z 30000)%Q)
      by (rewrite <- Qle_bool_iff; congruence).
    apply Qle_bool_iff in E2.
    change (inject_Z 1000) with 1000%Q in *. lra.
  - apply Qle_refl.
Qed.

Lemma baseQ_mono (a b : nat) : a <= b -> (baseQ a <= baseQ b)%Q.
Proof.
  induction 1 as [|b Hab IH]; [apply Qle_refl|].
  eapply Qle_trans; [exact IH | apply baseQ_step].
Qed.

(** From the second attempt on, the base delay grows by more than the
    jitter can take back, until the cap is reached. *)
Lemma baseQ_gap (a : nat) :
  2 <= a -> a <= 8 -> (baseQ a + inject_Z 1000 <= baseQ (S a))%Q.
Proof.
  intros H2 H8.
  assert (C : a = 2 \/ a = 3 \/ a = 4 \/ a = 5 \/ a = 6 \/ a = 7 \/ a = 8) by lia.
  destruct C as [-> | [-> | [-> | [-> | [-> | [-> | ->]]]]]];
    vm_compute; discriminate.
Qed.


(** *** One poll *)

Lemma pollOnce_outcome (w : World) (operationName token : string) (k : nat)
  (st st' : St) (r : result (option VeoOperation)) :
  pollOnce w operationName token k st = (r, st') ->
  submissions st' = submissions st
  /\ ((r = Ok None
       /\ pending (pollReply w k)
       /\ trace st' = (trace st ++ [Poll operationName k;
                                    Sleep (backoff k (random w (randomsDrawn st)))])%list
       /\ randomsDrawn st' = S (randomsDrawn st))
      \/ (r <> Ok None
          /\ trace st' = (trace st ++ [Poll operationName k])%list
          /\ randomsDrawn st' = randomsDrawn st)).
Proof.
  unfold pollOnce, fetchPoll, bindM, emit, lift, throw, ret, delay, mathRandom.
  cbn [trace randomsDrawn submissions].
  destruct (pollReply w k) as [resp|e] eqn:R.
  - destruct (ok resp) eqn:Hok; cbn [negb].
    + destruct (json resp) as [operation|e] eqn:J.
      * destruct (done operation) as [[|]|] eqn:D.
        -- destruct (error operation); intros H; injection H as <- <-;
             (split; [reflexivity|]); right; repeat split; discriminate.
        -- intros H; injection H as <- <-. split; [reflexivity|]. left.
           cbn [trace randomsDrawn]. rewrite <- app_assoc.
           repeat split. exists resp, operation. repeat split; auto. congruence.
        -- intros H; injection H as <- <-. split; [reflexivity|]. left.
           cbn [trace randomsDrawn]. rewrite <- app_assoc.
           repeat split. exists resp, operation. repeat split; auto. congruence.
      * intros H; injection H as <- <-. split; [reflexivity|].
        right; repeat split; discriminate.
    + intros H; injection H as <- <-. split; [reflexivity|].
      right; repeat split; discriminate.
  - intros H; injection H as <- <-. split; [reflexivity|].
    right; repeat split; discriminate.
Qed.

(** *** The polling loop ends and is bounded *)

Lemma pollLoop_terminates (w : World) (operationName token : string)
  (maxAttempts : nat) : forall (fuel attempts : nat) (st : St),
  maxAttempts <= attempts + fuel ->
  exists outcome st',
    pollLoop w operationName token maxAttempts fuel attempts st
    = Some (outcome, st').
Proof.
  induction fuel as [|fuel IH]; intros attempts st H; simpl.
  - destruct (Nat.ltb_spec attempts maxAttempts); [lia | eauto].
  - destruct (Nat.ltb_spec attempts maxAttempts); [|eauto].
    destruct (pollOnce w operationName token (S attempts) st) as [[[op|]|e] st1];
      eauto.
    apply IH. lia.
Qed.

Lemma pollLoop_trace (w : World) (operationName token : string)
  (maxAttempts : nat) : forall (fuel attempts : nat) (st st' : St) outcome,
  pollLoop w operationName token maxAttempts fuel attempts st
  = Some (outcome, st') ->
  submissions st' = submissions st
  /\ exists new,
       trace st' = (trace st ++ new)%list
       /\ pollCount new + attempts <= Nat.max maxAttempts attempts
       /\ List.length (sleeps new) <= pollCount new
       /\ filter isDownload new = []
       /\ sleeps new
          = map (fun i => backoff (S (attempts + i)) (random w (randomsDrawn st + i)))
                (seq 0 (List.length (sleeps new))).
Proof.
  induction fuel as [|fuel IH]; intros attempts st st' outcome H; simpl in H.
  - destruct (Nat.ltb_spec attempts maxAttempts); [discriminate|].
    injection H as <- <-. split; [reflexivity|]. exists [].
    rewrite app_nil_r. repeat split; simpl; lia.
  - destruct (Nat.ltb_spec attempts maxAttempts) as [Hlt|Hge].
    + destruct (pollOnce w operationName token (S attempts) st)
        as [r st1] eqn:P.
      apply pollOnce_outcome in P as [S1 [[-> [_ [T1 R1]]] | [Hr [T1 R1]]]].
      * apply IH in H as [S2 [new [T2 [C2 [L2 [D2 Z2]]]]]].
        split; [congruence|].
        exists ([Poll operationName (S attempts);
                 Sleep (backoff (S attempts) (random w (randomsDrawn st)))]
                ++ new)%list.
        rewrite T2, T1, <- app_assoc.
        split; [reflexivity|].
        unfold pollCount in *. cbn [app filter isPoll sleeps List.length].
        split; [lia|]. split; [lia|]. split; [exact D2|].
        cbn [seq map]. rewrite Nat.add_0_r, Nat.add_0_r. f_equal.
        rewrite Z2 at 1. rewrite <- seq_shift, map_map.
        apply map_ext. intros i. rewrite R1. f_equal; f_equal; lia.
      * assert (E : outcome = match r with
                                | Ok (Some operation) => Ok operation
                                | Ok None => outcome
                                | Throw e => Throw e
                                end /\ st' = st1).
        { destruct r as [[operation|]|e]; [| congruence |];
            injection H as <- <-; auto. }
        destruct E as [_ ->]. split; [exact S1|].
        exists [Poll operationName (S attempts)].
        split; [exact T1|]. unfold pollCount. simpl.
        repeat split; try lia.
    + injection H as <- <-. split; [reflexivity|]. exists [].
      rewrite app_nil_r. repeat split; simpl; lia.
Qed.


Lemma ltb_Fin (x y : Q) : (x < y)%Q -> ltb (Fin x) (Fin y) = true.
Proof.
  intros H. unfold ltb.
  destruct (Qcompare x y) eqn:E; [exfalso | reflexivity | exfalso].
  - apply Qeq_alt in E. lra.
  - apply Qgt_alt in E. lra.
Qed.

Lemma leb_Fin (x y : Q) : (x <= y)%Q -> leb (Fin x) (Fin y) = true.
Proof.
  intros H. unfold leb. apply Qle_bool_iff. exact H.
Qed.

(** C5, the claim as stated fails: with the jitter added, the delay
    after the second attempt can be shorter than the delay after the
    first (1500 + 900 ms, then 2250 + 0 ms), well below the cap. *)
Lemma jitter_shortens_the_second_delay :
  fairRandom Samples.slowService
  /\ exists outcome st' d1 d2,
       pollOperation Samples.slowService "operation" "token"
         defaultMaxAttempts initial = (outcome, st')
       /\ nth_error (sleeps (trace st')) 0 = Some d1
       /\ nth_error (sleeps (trace st')) 1 = Some d2
       /\ same d1 (of_Z 2400) /\ same d2 (of_Z 2250)
       /\ ltb d2 d1 = true
       /\ ltb d1 (of_Z 30000) = true.
Proof.
  split.
  - intros [|n]; simpl; split; vm_compute; congruence.
  - do 4 eexists. split; [vm_compute; reflexivity|].
    split; [vm_compute; reflexivity|].
    split; [vm_compute; reflexivity|].
    repeat split; vm_compute; reflexivity.
Qed.

(** C5 (as amended).  [pollOperation] ends after at most [maxAttempts]
    polls, whatever the service answers.  The delay slept after attempt
    [k] is [min(1000 * 1.5^k, 30000)] plus a jitter of [random * 1000];
    its base part is non-decreasing in [k] and never exceeds 30000 ms.
    With the jitter (between 0 and 1000 ms) the delay itself grows from
    the second attempt up to the cap, while the delay after the second
    attempt may be shorter than the one after the first. *)
Theorem poll_loop_is_bounded_and_base_delay_grows (w : World)
  (operationName token : string) (maxAttempts : nat) (st : St) :
  (exists outcome st' new,
     pollLoop w operationName token maxAttempts maxAttempts 0 st
     = Some (outcome, st')
     /\ pollOperation w operationName token maxAttempts st = (outcome, st')
     /\ trace st' = (trace st ++ new)%list
     /\ pollCount new <= maxAttempts
     /\ List.length (sleeps new) <= pollCount new
     /\ sleeps new
        = map (fun i => backoff (S i) (random w (randomsDrawn st + i)))
              (seq 0 (List.length (sleeps new))))
  /\ (forall a b, a <= b -> leb (baseDelay a) (baseDelay b) = true)
  /\ (forall a, leb (baseDelay a) (of_Z 30000) = true)
  /\ (forall k r, (0 <= r)%Q -> (r < 1)%Q ->
        leb (baseDelay k) (backoff k r) = true
        /\ ltb (backoff k r) (add (baseDelay k) (of_Z 1000)) = true)
  /\ (forall a b r r', 2 <= a -> a <= 8 -> a < b ->
        (0 <= r)%Q -> (r < 1)%Q -> (0 <= r')%Q -> (r' < 1)%Q ->
        ltb (backoff a r) (backoff b r') = true).
Proof.
  split; [|split; [|split; [|split]]].
  - destruct (pollLoop_terminates w operationName token maxAttempts
                maxAttempts 0 st) as [outcome [st' H]]; [lia|].
    exists outcome, st'.
    destruct (pollLoop_trace _ _ _ _ _ _ _ _ _ H)
      as [_ [new [T [C [L [_ Z]]]]]].
    exists new. split; [exact H|]. split.
    + unfold pollOperation. rewrite H. reflexivity.
    + repeat split; auto. rewrite Nat.add_0_r, Nat.max_0_r in C. exact C.
  - intros a b H. rewrite !baseDelay_Fin. apply leb_Fin, baseQ_mono, H.
  - intros a. rewrite baseDelay_Fin. apply leb_Fin, baseQ_le_cap.
  - intros k r H0 H1. rewrite backoff_Fin, baseDelay_Fin. split.
    + apply leb_Fin. change (inject_Z 1000) with 1000%Q. lra.
    + apply ltb_Fin. change (inject_Z 1000) with 1000%Q. lra.
  - intros a b r r' H2 H8 Hab Hr0 Hr1 Hr0' Hr1'.
    rewrite !backoff_Fin. apply ltb_Fin.
    pose proof (baseQ_gap a H2 H8) as G.
    pose proof (baseQ_mono (S a) b Hab) as M.
    change (inject_Z 1000) with 1000%Q in *. lra.
Qed.

(** *** A job that ends with an error *)

Lemma pollOnce_pending (w : World) (operationName token : string) (k : nat)
  (st : St) :
  pending (pollReply w k) ->
  exists st', pollOnce w operationName token k st = (Ok None, st').
Proof.
  intros [resp [operation [R [Hok [J D]]]]].
  unfold pollOnce, fetchPoll, bindM, emit, lift, throw, ret, delay, mathRandom.
  rewrite R, Hok. cbn [negb]. rewrite J.
  destruct (done operation) as [[|]|]; [congruence | |]; eexists; reflexivity.
Qed.

Lemma pollOnce_failure (w : World) (operationName token : string) (k : nat)
  (st : St) (e : VeoError) :
  reportsFailure (pollReply w k) e ->
  exists st', pollOnce w operationName token k st
              = (Throw (OperationFailed (message e)), st').
Proof.
  intros [resp [operation [R [Hok [J [D E]]]]]].
  unfold pollOnce, fetchPoll, bindM, emit, lift, throw, ret.
  rewrite R, Hok. cbn [negb]. rewrite J, D, E. eexists; reflexivity.
Qed.

Lemma pollLoop_failure (w : World) (operationName token : string)
  (maxAttempts : nat) (e : VeoError) :
  forall (d attempts fuel : nat) (st : St),
  (forall j, attempts < j -> j <= attempts + d -> pending (pollReply w j)) ->
  reportsFailure (pollReply w (attempts + S d)) e ->
  attempts + S d <= maxAttempts -> d < fuel ->
  exists st',
    pollLoop w operationName token maxAttempts fuel attempts st
    = Some (Throw (OperationFailed (message e)), st').
Proof.
  induction d as [|d IH]; intros attempts fuel st Hp Hf Hle Hfuel;
    (destruct fuel as [|fuel]; [lia|]); simpl;
    (destruct (Nat.ltb_spec attempts maxAttempts); [|lia]).
  - replace (attempts + 1) with (S attempts) in Hf by lia.
    destruct (pollOnce_failure w operationName token (S attempts) st e Hf)
      as [st1 ->]. eauto.
  - destruct (pollOnce_pending w operationName token (S attempts) st)
      as [st1 ->]; [apply Hp; lia|].
    apply IH; try lia.
    + intros j H1 H2. apply Hp; lia.
    + replace (S attempts + S d) with (attempts + S (S d)) by lia. exact Hf.
Qed.

(** C7.  When the poll that finds the operation done carries an error
    payload, the render job fails with [OperationFailed] and the
    message of the service; nothing is downloaded and no result is
    returned. *)
Theorem done_with_error_is_OperationFailed (w : World) (params : VeoParams)
  (st : St) (k : nat) (e : VeoError) (token : string)
  (accepted : HttpResponse) (operation : VeoOperation) :
  getAccessToken w = Ok token ->
  submitReply w (submissions st) = Ok accepted ->
  ok accepted = true -> json accepted = Ok operation ->
  1 <= k -> k <= defaultMaxAttempts ->
  (forall j, 1 <= j -> j < k -> pending (pollReply w j)) ->
  reportsFailure (pollReply w k) e ->
  exists st',
    generateClip w params st = (Throw (OperationFailed (message e)), st')
    /\ (forall clip, fst (generateClip w params st) <> Ok clip)
    /\ filter isDownload (trace st') = filter isDownload (trace st).
Proof.
  intros Ht Hs Hok Hj H1 Hk Hp Hf.
  assert (G : exists st',
             generateClip w params st = (Throw (OperationFailed (message e)), st')
             /\ filter isDownload (trace st') = filter isDownload (trace st)).
  { unfold generateClip, submitRequest, fetchSubmit, bindM, lift.
    rewrite Ht. cbv beta iota. rewrite Hs. cbv beta iota.
    rewrite Hok. cbn [negb]. cbv beta iota. rewrite Hj. cbv beta iota.
    unfold pollOperation.
    match goal with |- context [pollLoop w ?n ?t ?m ?f 0 ?s] =>
      destruct (pollLoop_failure w n t m e (k - 1) 0 f s) as [st' L]
    end.
    - intros j A B. apply Hp; lia.
    - replace (0 + S (k - 1)) with k by lia. exact Hf.
    - lia.
    - unfold defaultMaxAttempts in *. lia.
    - rewrite L. exists st'. split; [reflexivity|].
      apply pollLoop_trace in L as [_ [new [T [_ [_ [D _]]]]]].
      rewrite T. cbn [trace]. rewrite !filter_app, D. simpl.
      rewrite !app_nil_r. reflexivity. }
  destruct G as [st' [G D]]. exists st'. split; [exact G|]. split; [|exact D].
  intros clip. rewrite G. discriminate.
Qed.

Lemma done_with_error_is_OperationFailed_witness :
  exists st',
    generateClip Samples.failingService Samples.clipRequest initial
    = (Throw (OperationFailed "internal error"), st')
    /\ (forall clip, fst (generateClip Samples.failingService
                            Samples.clipRequest initial) <> Ok clip)
    /\ filter isDownload (trace st') = filter isDownload (trace initial).
Proof.
  apply (done_with_error_is_OperationFailed Samples.failingService
           Samples.clipRequest initial 3
           {| code := 13%Z; message := "internal error" |} "token"
           {| ok := true; status := 200; text := EmptyString;
              json := Ok Samples.runningOperation |}
           Samples.runningOperation).
  - reflexivity.
  - reflexivity.
  - reflexivity.
  - reflexivity.
  - lia.
  - unfold defaultMaxAttempts. lia.
  - intros j A B.
    assert (C : j = 1 \/ j = 2) by lia.
    destruct C as [-> | ->];
      (eexists; eexists; split; [reflexivity|]; split; [reflexivity|];
       split; [reflexivity|]; discriminate).
  - eexists; eexists. split; [reflexivity|]. split; [reflexivity|].
    split; [reflexivity|]. split; reflexivity.
Defined.


(** *** The retry policy and the submission *)

Lemma submitRequest_counts (w : World) (params : VeoParams) (st st' : St)
  (r : result VeoOperation) :
  submitRequest w params st = (r, st') ->
  submissions st' = S (submissions st) /\ sleeps (trace st') = sleeps (trace st).
Proof.
  unfold submitRequest, fetchSubmit, bindM, lift, throw.
  destruct (submitReply w (submissions st)) as [resp|e];
    [destruct (negb (ok resp))|]; intros H; injection H as <- <-;
    cbn [submissions trace]; (split; [reflexivity|]);
    induction (trace st) as [|[] t IH]; simpl; congruence.
Qed.

Lemma retryLoop_terminates {T : Type} (w : World) (operation : M T)
  (maxRetries : nat) (base : number) :
  forall (fuel attempt : nat) (lastError : option exn) (st : St),
  maxRetries < attempt + fuel ->
  exists outcome st',
    retryLoop w operation maxRetries base fuel attempt lastError st
    = Some (outcome, st').
Proof.
  induction fuel as [|fuel IH]; intros attempt lastError st H; simpl.
  - destruct (Nat.leb_spec attempt maxRetries); [lia | eauto].
  - destruct (Nat.leb_spec attempt maxRetries); [|eauto].
    destruct (operation st) as [[v|e] st1]; [eauto|].
    destruct (nonRetryable e); [eauto|].
    destruct (attempt <? maxRetries)%nat; apply IH; lia.
Qed.

(** The policy gives up after [maxRetries] submissions. *)
Lemma retryLoop_submissions (w : World) (params : VeoParams)
  (maxRetries : nat) (base : number) :
  forall (fuel attempt : nat) (lastError : option exn) (st st' : St) outcome,
  retryLoop w (submitRequest w params) maxRetries base fuel attempt lastError st
  = Some (outcome, st') ->
  submissions st' + attempt <= submissions st + Nat.max (S maxRetries) attempt.
Proof.
  induction fuel as [|fuel IH]; intros attempt lastError st st' outcome H;
    simpl in H.
  - destruct (Nat.leb_spec attempt maxRetries); [discriminate|].
    injection H as <- <-. lia.
  - destruct (Nat.leb_spec attempt maxRetries) as [Hle|Hgt].
    + destruct (submitRequest w params st) as [[v|e] st1] eqn:S1;
        apply submitRequest_counts in S1 as [S1 _].
      * injection H as <- <-. lia.
      * destruct (nonRetryable e); [injection H as <- <-; lia|].
        destruct (attempt <? maxRetries)%nat; apply IH in H;
          cbn [submissions] in H; lia.
    + injection H as <- <-. lia.
Qed.

(** An error of a class that is not retried ends the policy at once:
    the operation has run exactly once and no delay was slept. *)
Lemma withRetry_rethrows_at_once {T : Type} (w : World) (operation : M T)
  (maxRetries : nat) (base : number) (st st1 : St) (e : exn) :
  1 <= maxRetries ->
  operation st = (Throw e, st1) -> nonRetryable e = true ->
  withRetry w operation maxRetries base st = (Throw e, st1).
Proof.
  intros Hm Hop Hn. unfold withRetry.
  destruct maxRetries as [|m]; [lia|]. simpl. rewrite Hop, Hn. reflexivity.
Qed.

Lemma withRetry_submissions (w : World) (params : VeoParams)
  (maxRetries : nat) (base : number) (st : St) :
  submissions (snd (withRetry w (submitRequest w params) maxRetries base st))
  <= submissions st + maxRetries.
Proof.
  unfold withRetry.
  destruct (retryLoop_terminates w (submitRequest w params) maxRetries base
              maxRetries 1 None st) as [outcome [st' H]]; [lia|].
  rewrite H. apply retryLoop_submissions in H. simpl. lia.
Qed.

(** Whatever the error of the submission, [generateClip] reports it
    after that one submission: nothing is retried and no delay is slept. *)
Lemma generateClip_does_not_retry (w : World) (params : VeoParams)
  (st st1 : St) (token : string) (e : exn) :
  getAccessToken w = Ok token ->
  submitRequest w params st = (Throw e, st1) ->
  generateClip w params st = (Throw e, st1)
  /\ submissions st1 = S (submissions st)
  /\ sleeps (trace st1) = sleeps (trace st).
Proof.
  intros Ht Hs. split.
  - unfold generateClip, bindM at 1, lift. rewrite Ht. cbv beta iota.
    unfold bindM at 1. rewrite Hs. reflexivity.
  - apply submitRequest_counts in Hs. exact Hs.
Qed.

(** C6, the code at the failing input.  The first submission is
    answered with HTTP 503 and a second one would be accepted:
    [generateClip] fails after its single submission, without any delay,
    while the retry policy of [withRetry], applied to the same
    submission, obtains the operation at its second attempt after a
    delay of 1000 ms plus jitter. *)
Theorem generateClip_submits_once_without_retry :
  (exists st',
     generateClip Samples.flakyService Samples.clipRequest initial
     = (Throw (Error "Veo API request failed: 503 Service Unavailable"), st')
     /\ nonRetryable (Error "Veo API request failed: 503 Service Unavailable")
        = false
     /\ submissions st' = 1
     /\ sleeps (trace st') = [])
  /\ (exists st'',
        withRetry Samples.flakyService
          (submitRequest Samples.flakyService Samples.clipRequest)
          defaultMaxRetries defaultBaseDelay initial
        = (Ok Samples.runningOperation, st'')
        /\ submissions st'' = 2
        /\ exists d, sleeps (trace st'') = [d] /\ same d (of_Z 1500)).
Proof.
  split.
  - eexists. split; [vm_compute; reflexivity|]. repeat split.
  - eexists. split; [vm_compute; reflexivity|]. split; [reflexivity|].
    eexists. split; [vm_compute; reflexivity|]. vm_compute. reflexivity.
Qed.

End VeoFacts.

(** ** The pan/zoom generator: validation *)

Module KenBurnsFacts.
Import Js Fx KenBurns.

Example filter_for_full_hd :
  buildFilter Samples.machine Samples.kenBurnsDefaults
    (Samples.panZoom "front.jpg" (of_nat 4))
  = Ok ("scale=1920:1080:force_original_aspect_ratio=decrease,"
        ++ "pad=1920:1080:(ow-iw)/2:(oh-ih)/2").
Proof. reflexivity. Qed.

(** With the image in place, a zero duration is refused once the output
    directory has been created and before ffmpeg is started. *)
Example zero_duration_is_refused :
  generateKenBurns Samples.machine Samples.kenBurnsDefaults
    (Samples.panZoom "front.jpg" (of_nat 0))
  = (Throw (Error "Invalid duration: 0. Must be a positive finite number."),
     [Mkdir ".cache/home-tour"]).
Proof. reflexivity. Qed.

Lemma invalid_iff (x : number) : invalid x = false <-> positive x.
Proof.
  unfold invalid, isFinite, leb, of_nat, positive. destruct x as [q| | |]; simpl.
  - destruct (Qle_bool q (inject_Z 0)) eqn:E.
    + apply Qle_bool_iff in E. change (inject_Z 0) with 0%Q in E.
      split; [discriminate | lra].
    + assert (N : ~ (q <= inject_Z 0)%Q) by (rewrite <- Qle_bool_iff; congruence).
      change (inject_Z 0) with 0%Q in N. split; [lra | reflexivity].
  - split; [discriminate | tauto].
  - split; [discriminate | tauto].
  - split; [discriminate | tauto].
Qed.

(** The validation accepts exactly the requests whose four numbers are
    finite and positive. *)
Lemma buildFilter_validates (w : World) (options : Options)
  (params : KenBurnsParams) :
  (~ validRequest options params ->
   exists e, buildFilter w options params = Throw e
             /\ InvalidParametersError w options params e)
  /\ (validRequest options params ->
      exists filter, buildFilter w options params = Ok filter).
Proof.
  unfold validRequest, buildFilter, InvalidParametersError.
  rewrite <- !invalid_iff.
  destruct (invalid (duration params)); simpl.
  - split; [eauto | intros [H _]; discriminate].
  - destruct (invalid (width params)); simpl;
      [split; [eauto 6 | intros [_ [H _]]; discriminate]|].
    destruct (invalid (height params)); simpl;
      [split; [eauto 6 | intros [_ [_ [H _]]]; discriminate]|].
    destruct (invalid (fps options)); simpl.
    + split; [eauto 6 | intros [_ [_ [_ H]]]; discriminate].
    + split; [intros H; exfalso; apply H; auto | eauto].
Qed.

(** C8, the claim as stated fails: a request with a zero duration for
    an image that does not exist fails with the image-not-found error,
    not with an [InvalidParametersError]. *)
Lemma missing_image_is_reported_first :
  ~ validRequest Samples.kenBurnsDefaults
      (Samples.panZoom "missing.jpg" (of_nat 0))
  /\ generateKenBurns Samples.machine Samples.kenBurnsDefaults
       (Samples.panZoom "missing.jpg" (of_nat 0))
     = (Throw (Error "Input image not found: missing.jpg"), [])
  /\ ~ InvalidParametersError Samples.machine Samples.kenBurnsDefaults
         (Samples.panZoom "missing.jpg" (of_nat 0))
         (Error "Input image not found: missing.jpg").
Proof.
  split; [|split; [reflexivity|]].
  - intros [H _]. vm_compute in H. discriminate H.
  - intros [H | [H | H]]; vm_compute in H; discriminate H.
Qed.

(** C8 (as amended).  A request in which the duration, the width, the
    height or the frame rate is non-finite or non-positive always fails
    before any external process is started.  The failure is the
    image-not-found error when the input image is missing, and an
    [InvalidParametersError] when the image exists and the output
    directory could be created.  Conversely, with the four numbers
    finite and positive the validation does not raise. *)
Theorem invalid_request_fails_before_any_process (w : World)
  (options : Options) (params : KenBurnsParams) :
  (~ validRequest options params ->
   (exists e, fst (generateKenBurns w options params) = Throw e)
   /\ filter isSpawn (snd (generateKenBurns w options params)) = []
   /\ (existsSync w (imagePath params) = false ->
       fst (generateKenBurns w options params) = Throw (imageNotFound params))
   /\ (existsSync w (imagePath params) = true ->
       mkdir w (dirname w (outputPath params)) = Ok tt ->
       exists e, fst (generateKenBurns w options params) = Throw e
                 /\ InvalidParametersError w options params e))
  /\ (validRequest options params ->
      exists filter, buildFilter w options params = Ok filter).
Proof.
  destruct (buildFilter_validates w options params) as [Hbad Hgood].
  split; [|exact Hgood].
  intros Hinv. destruct (Hbad Hinv) as [e [Hb He]].
  unfold generateKenBurns, raise, act, andThen.
  destruct (existsSync w (imagePath params)); cbn [negb].
  - destruct (mkdir w (dirname w (outputPath params))) as [[]|e'];
      cbn [fst snd]; rewrite ?Hb; cbn [fst snd app filter isSpawn];
      repeat split; eauto; discriminate.
  - cbn [fst snd filter]. repeat split; eauto; discriminate.
Qed.

End KenBurnsFacts.

(** ** The timeline assembler: audio *)

Module AssemblerFacts.
Import Js Fx Assembler.

(** A voice-over at full volume from the start, over music at 0.12
    starting after 1.5 s. *)
Example voice_over_music :
  buildAudioMixGraph [Samples.voice; Samples.backgroundMusic]
  = [Chain 0 [] 0;
     Chain 1 [Volume (Fin (12 # 100)); ADelay (of_Z 1500)] 1;
     AMix [0; 1] 2 longest "mixed_audio"].
Proof. reflexivity. Qed.



(** In a run of [assembleVideo] that succeeds, the audio path computed by
    [createAudioMix] is the one handed to the final mux command, which
    is the last process started. *)
Lemma assembleVideo_muxes_the_mix (w : World) (options : Options)
  (params : AssemblyParams) (result : string) :
  fst (assembleVideo w options params) = Ok result ->
  let tempDir := dirname w (outputPath params) in
  let tempVideoPath := join w tempDir ("temp_video_" ++ now w ++ ".mp4") in
  exists audioPath before mixLog,
    createAudioMix w options (audioTracks params) tempDir = (Ok audioPath, mixLog)
    /\ snd (assembleVideo w options params)
       = (before ++ mixLog
          ++ [Spawn (muxCommand options tempVideoPath audioPath (outputPath params))]
          ++ cleanup w [join w tempDir ("concat_" ++ now w ++ ".txt");
                        tempVideoPath])%list.
Proof.
  cbv zeta. unfold assembleVideo, finally, andThen, combineVideoAndAudio, spawn, act, pure.
  destruct (validateInputs w params) as [[[]|e0] t0]; [|discriminate].
  destruct (createVideoTimeline w options (segments params) _ params)
    as [[[]|e1] t1]; [|discriminate].
  destruct (createAudioMix w options (audioTracks params) _)
    as [[audioPath|e2] t2]; [|discriminate].
  destruct (run w _) as [[]|e3]; [|discriminate].
  intros _. exists audioPath, (t0 ++ t1)%list, t2. split; [reflexivity|].
  cbn [fst snd]. rewrite app_nil_r, <- !app_assoc. reflexivity.
Qed.

End AssemblerFacts.

Module PlannerGrouping.
Import Js Planner PlannerFacts.
Local Open Scope list_scope.

Lemma map_has_set_present (k k' : string) (v g : list ImageInput) (m : RoomMap) :
  map_get k m = Some g -> map_has k' (map_set k v m) = map_has k' m.
Proof.
  intros H. unfold map_has. rewrite map_get_set.
  destruct (k =? k') eqn:E; [|reflexivity].
  apply String.eqb_eq in E. subst. rewrite H. reflexivity.
Qed.

Lemma push_at_get (k : string) (x : ImageInput) (g : list ImageInput) (m : RoomMap) :
  map_get k m = Some g ->
  push_at k x m = Ok (map_set k (g ++ [x]) m)
  /\ keys (map_set k (g ++ [x]) m) = keys m
  /\ (forall k', map_has k' (map_set k (g ++ [x]) m) = map_has k' m)
  /\ (forall k', map_get k' (map_set k (g ++ [x]) m)
                 = match map_get k' m with
                   | Some g' => Some (if k =? k' then (g' ++ [x])%list else g')
                   | None => None
                   end).
Proof.
  intros G. unfold push_at. rewrite G. split; [reflexivity|].
  split; [eapply keys_map_set_present; eassumption|].
  split; [intros k'; eapply map_has_set_present; eassumption|].
  intros k'. rewrite map_get_set. destruct (k =? k') eqn:E.
  - apply String.eqb_eq in E. subst. rewrite G. reflexivity.
  - destruct (map_get k' m); reflexivity.
Qed.

Lemma groupImage_get (m : RoomMap) (x : ImageInput) :
  In "other" (keys m) ->
  exists m', groupImage m x = Ok m' /\ keys m' = keys m
    /\ (forall k, map_has k m' = map_has k m)
    /\ (forall k, map_get k m'
                  = match map_get k m with
                    | Some g => Some (if bucket m x =? k then (g ++ [x])%list else g)
                    | None => None
                    end).
Proof.
  intros Hother. unfold groupImage, bucket.
  destruct (map_has (roomOf x) m) eqn:H.
  - unfold map_has in H. destruct (map_get (roomOf x) m) as [g|] eqn:G; [|discriminate].
    destruct (push_at_get _ x _ _ G) as [P [K [Hs Gs]]].
    eexists. split; [exact P|]. split; [exact K|]. split; [exact Hs|exact Gs].
  - apply map_get_In_keys in Hother.
    destruct (map_get "other" m) as [g|] eqn:G; [|congruence].
    destruct (push_at_get _ x _ _ G) as [P [K [Hs Gs]]].
    eexists. split; [exact P|]. split; [exact K|]. split; [exact Hs|exact Gs].
Qed.

Lemma groupAll_get (l : list ImageInput) : forall m,
  In "other" (keys m) ->
  exists m', groupAll l m = Ok m' /\ keys m' = keys m
    /\ (forall k, map_get k m'
                  = match map_get k m with
                    | Some g => Some (g ++ filter (fun i => bucket m i =? k) l)%list
                    | None => None
                    end).
Proof.
  induction l as [|x l IH]; intros m Hother.
  - exists m. split; [reflexivity|]. split; [reflexivity|].
    intros k. simpl. destruct (map_get k m); [rewrite app_nil_r|]; reflexivity.
  - destruct (groupImage_get m x Hother) as [m1 [E1 [K1 [H1 G1]]]].
    destruct (IH m1) as [m' [E' [K' G']]]; [rewrite K1; exact Hother|].
    exists m'. cbn [groupAll]. rewrite E1. cbn [bind].
    split; [exact E'|]. split; [congruence|].
    intros k. rewrite G', G1. destruct (map_get k m) as [g|]; [|reflexivity].
    f_equal.
    assert (F : filter (fun i => bucket m1 i =? k) l
                = filter (fun i => bucket m i =? k) l).
    { apply filter_ext. intros i. unfold bucket. rewrite H1. reflexivity. }
    rewrite F. cbn [filter]. destruct (bucket m x =? k).
    + rewrite <- app_assoc. reflexivity.
    + reflexivity.
Qed.

Lemma assoc_canonical (f : string -> list ImageInput) (m : RoomMap) :
  NoDup (keys m) ->
  (forall k, In k (keys m) -> map_get k m = Some (f k)) ->
  m = map (fun k => (k, f k)) (keys m).
Proof.
  induction m as [|[k v] m IH]; intros N H; [reflexivity|].
  simpl in N. inversion N as [|? ? Hn N']; subst.
  simpl. f_equal.
  - specialize (H k (or_introl eq_refl)). simpl in H.
    rewrite String.eqb_refl in H. congruence.
  - apply IH; [exact N'|]. intros k' Hk'.
    specialize (H k' (or_intror Hk')). simpl in H.
    destruct (k =? k') eqn:E; [|exact H].
    apply String.eqb_eq in E. subst. contradiction.
Qed.

Lemma map_has_existsb (r : string) (m : RoomMap) :
  map_has r m = existsb (fun k => k =? r) (keys m).
Proof.
  unfold map_has. induction m as [|[k v] m IH]; [reflexivity|].
  simpl. destruct (k =? r); [reflexivity|exact IH].
Qed.

Lemma existsb_eqb_sym (r : string) (l : list string) :
  existsb (fun k => k =? r) l = existsb (String.eqb r) l.
Proof.
  induction l as [|k l IH]; [reflexivity|].
  simpl. rewrite IH, (String.eqb_sym k r). reflexivity.
Qed.

Lemma roomOrder_not_other (r : string) : In r roomOrder -> (r =? "other") = false.
Proof.
  intros H. simpl in H.
  repeat (destruct H as [<- | H]; [reflexivity|]). contradiction.
Qed.

Lemma knownRoom_In (i : ImageInput) : knownRoom i = true <-> In (roomOf i) roomOrder.
Proof.
  unfold knownRoom. rewrite existsb_exists. split.
  - intros [x [Hx E]]. apply String.eqb_eq in E. subst. exact Hx.
  - intros H. exists (roomOf i). split; [exact H|apply String.eqb_refl].
Qed.

Lemma map_has_initialGroups (i : ImageInput) :
  map_has (roomOf i) initialGroups = knownRoom i || (roomOf i =? "other").
Proof.
  rewrite map_has_existsb. unfold knownRoom.
  change (keys initialGroups) with (roomOrder ++ ["other"])%list.
  rewrite existsb_app. f_equal.
  - apply existsb_eqb_sym.
  - cbn [existsb]. rewrite orb_false_r. apply String.eqb_sym.
Qed.

Lemma bucket_initial_room (r : string) (i : ImageInput) :
  In r roomOrder -> (bucket initialGroups i =? r) = (roomOf i =? r).
Proof.
  intros Hr. unfold bucket.
  destruct (map_has (roomOf i) initialGroups) eqn:H; [reflexivity|].
  rewrite map_has_initialGroups in H. apply orb_false_elim in H as [K _].
  rewrite String.eqb_sym, (roomOrder_not_other r Hr). symmetry.
  apply String.eqb_neq. intros E.
  assert (T : knownRoom i = true) by (apply knownRoom_In; rewrite E; exact Hr).
  congruence.
Qed.

Lemma bucket_initial_other (i : ImageInput) :
  (bucket initialGroups i =? "other") = negb (knownRoom i).
Proof.
  unfold bucket.
  destruct (map_has (roomOf i) initialGroups) eqn:H.
  - rewrite map_has_initialGroups in H.
    destruct (knownRoom i) eqn:K.
    + apply knownRoom_In in K. apply (roomOrder_not_other _ K).
    + simpl in H. rewrite H. reflexivity.
  - rewrite map_has_initialGroups in H. apply orb_false_elim in H as [K _].
    rewrite K. reflexivity.
Qed.

(** The first loop files every image under its own label when that is a
    room of [roomOrder], and under ['other'] otherwise. *)
Lemma groupAll_initialGroups (input : list ImageInput) :
  groupAll input initialGroups
  = Ok (map (fun r => (r, labelled r input)) roomOrder
        ++ [("other", unlabelled input)])%list.
Proof.
  destruct (groupAll_get input initialGroups) as [m [E [K G]]].
  { change (keys initialGroups) with (roomOrder ++ ["other"])%list.
    apply in_or_app. right. left. reflexivity. }
  rewrite E. f_equal.
  rewrite (assoc_canonical
             (fun k => if k =? "other" then unlabelled input else labelled k input) m).
  - rewrite K. reflexivity.
  - rewrite K. apply NoDup_keys_initialGroups.
  - intros k Hk. rewrite K in Hk. rewrite G.
    change (keys initialGroups) with (roomOrder ++ ["other"])%list in Hk.
    apply in_app_or in Hk as [Hk | [<- | []]].
    + rewrite (roomOrder_not_other k Hk).
      assert (I : map_get k initialGroups = Some []).
      { simpl in Hk.
        repeat (destruct Hk as [<- | Hk]; [reflexivity|]). contradiction. }
      rewrite I. simpl. f_equal. apply filter_ext. intros i.
      apply bucket_initial_room. exact Hk.
    + change (map_get "other" initialGroups) with (Some (@nil ImageInput)).
      simpl. f_equal. apply filter_ext. intros i. apply bucket_initial_other.
Qed.


Lemma filter_map_comm {A B : Type} (f : B -> bool) (g : A -> B) (l : list A) :
  filter f (map g l) = map g (filter (fun x => f (g x)) l).
Proof.
  induction l as [|x l IH]; [reflexivity|].
  simpl. destruct (f (g x)); simpl; rewrite IH; reflexivity.
Qed.

Lemma roomsPresent_In (r : string) (input : list ImageInput) :
  In r (roomsPresent input) -> In r roomOrder /\ labelled r input <> [].
Proof.
  unfold roomsPresent. rewrite filter_In. intros [H L]. split; [exact H|].
  intros E. rewrite E in L. discriminate.
Qed.

(** The groups left once the empty ones are removed. *)
Lemma grouped_nonempty (input : list ImageInput) :
  removeEmptyGroups
    (map (fun r => (r, labelled r input)) roomOrder
     ++ [("other", unlabelled input)])
  = (map (fun r => (r, labelled r input)) (roomsPresent input)
     ++ [("other", unlabelled input)])%list.
Proof.
  unfold removeEmptyGroups. rewrite filter_app. f_equal.
  - rewrite filter_map_comm. f_equal. unfold roomsPresent.
    apply filter_ext_in. intros r Hr. cbn [fst snd].
    rewrite (roomOrder_not_other r Hr). cbn [negb]. rewrite andb_true_r.
    destruct (List.length (labelled r input)); reflexivity.
  - cbn [filter fst snd]. rewrite String.eqb_refl. cbn [negb].
    rewrite andb_false_r. reflexivity.
Qed.

Lemma map_get_groups_In (f : string -> list ImageInput) (r : string)
  (l : list string) (rest : RoomMap) :
  In r l -> map_get r (map (fun k => (k, f k)) l ++ rest) = Some (f r).
Proof.
  induction l as [|k l IH]; intros H; [contradiction|].
  simpl. destruct (k =? r) eqn:E.
  - apply String.eqb_eq in E. subst. reflexivity.
  - destruct H as [-> | H]; [rewrite String.eqb_refl in E; discriminate|].
    apply IH. exact H.
Qed.

Lemma map_get_groups_other (f : string -> list ImageInput) (l : list string)
  (v : list ImageInput) :
  (forall r, In r l -> (r =? "other") = false) ->
  map_get "other" (map (fun k => (k, f k)) l ++ [("other", v)]) = Some v.
Proof.
  induction l as [|k l IH]; intros H; [reflexivity|].
  simpl. rewrite (H k (or_introl eq_refl)). apply IH.
  intros r Hr. apply H. right. exact Hr.
Qed.

Lemma keys_groups (f : string -> list ImageInput) (l : list string) :
  keys (map (fun k => (k, f k)) l) = l.
Proof.
  unfold keys. rewrite map_map. simpl. apply map_id.
Qed.

Lemma keys_map_delete (k : string) (m : RoomMap) :
  keys (map_delete k m) = filter (fun k' => negb (k' =? k)) (keys m).
Proof.
  unfold map_delete, keys. induction m as [|[k' v] m IH]; [reflexivity|].
  simpl. destruct (negb (k' =? k)); simpl; rewrite IH; reflexivity.
Qed.

Lemma keys_app (a b : RoomMap) : keys (a ++ b) = (keys a ++ keys b)%list.
Proof. unfold keys. apply map_app. Qed.

Lemma map_set_twice (k : string) (v v' : list ImageInput) (m : RoomMap) :
  map_set k v (map_set k v' m) = map_set k v m.
Proof.
  induction m as [|[k0 v0] m IH]; simpl.
  - rewrite String.eqb_refl. reflexivity.
  - destruct (k0 =? k) eqn:E; simpl; rewrite E; [reflexivity|].
    rewrite IH. reflexivity.
Qed.

(** The fallback of [redistributeOtherImages]: without a candidate room
    every image goes to ['living'], which is created when missing. *)
Lemma redistributeLoop_fallback (others : list ImageInput) : forall m,
  others <> [] ->
  redistributeLoop others [] m
  = Ok (map_set "living"
          (match map_get "living" m with Some g => g | None => [] end ++ others) m).
Proof.
  induction others as [|x rest IH]; intros m Hne; [congruence|].
  cbn [redistributeLoop].
  assert (P : forall m1 g, map_get "living" m1 = Some g ->
              (m2 <- push_at "living" x m1 ;; redistributeLoop rest [] m2)
              = Ok (map_set "living" (g ++ x :: rest) m1)).
  { intros m1 g G. unfold push_at. rewrite G. cbn [bind].
    destruct rest as [|y rest'].
    - reflexivity.
    - rewrite IH by discriminate. rewrite map_get_set, String.eqb_refl.
      rewrite <- app_assoc. cbn [app]. rewrite map_set_twice. reflexivity. }
  unfold map_has. destruct (map_get "living" m) as [g|] eqn:G.
  - apply P. exact G.
  - rewrite (P (map_set "living" [] m) []).
    + cbn [app]. rewrite map_set_twice. reflexivity.
    + rewrite map_get_set, String.eqb_refl. reflexivity.
Qed.

(** With a candidate room every image is appended to a group that is
    already there. *)
Lemma redistributeLoop_appends (others : list ImageInput) : forall sortedRooms m,
  sortedRooms <> [] -> Forall (fun k => In k (keys m)) sortedRooms ->
  exists m', redistributeLoop others sortedRooms m = Ok m' /\ keys m' = keys m
    /\ forall k, exists extra,
         map_get k m' = option_map (fun g => (g ++ extra)%list) (map_get k m)
         /\ incl extra others
         /\ (~ In k sortedRooms -> extra = []).
Proof.
  induction others as [|x rest IH]; intros sortedRooms m Hne Hall.
  - exists m. split; [reflexivity|]. split; [reflexivity|].
    intros k. exists []. split.
    + destruct (map_get k m); simpl; [rewrite app_nil_r|]; reflexivity.
    + split; [apply incl_refl|reflexivity].
  - destruct sortedRooms as [|t s]; [congruence|].
    cbn [redistributeLoop].
    assert (Ht : In t (keys m)) by (inversion Hall; assumption).
    apply map_get_In_keys in Ht.
    destruct (map_get t m) as [g|] eqn:G; [|congruence].
    destruct (push_at_get t x g m G) as [P [K [_ Gs]]].
    rewrite P. cbn [bind].
    set (m1 := map_set t (g ++ [x]) m) in *.
    assert (Perm : Permutation (sortBy (groupLength m1) (t :: s)) (t :: s))
      by apply sortBy_perm.
    destruct (IH (sortBy (groupLength m1) (t :: s)) m1) as [m' [E [K' H']]].
    + intros E. rewrite E in Perm. apply Permutation_nil in Perm. discriminate.
    + rewrite K. eapply Permutation_Forall; [symmetry; exact Perm|exact Hall].
    + exists m'. split; [exact E|]. split; [congruence|].
      intros k. destruct (H' k) as [extra [A [B C]]].
      rewrite Gs in A. destruct (t =? k) eqn:Etk.
      * apply String.eqb_eq in Etk. subst k. rewrite G in A |- *.
        exists (x :: extra). split.
        { rewrite A. simpl. rewrite <- app_assoc. reflexivity. }
        split.
        { intros y [<- | Hy]; [left; reflexivity|right; apply B; exact Hy]. }
        { intros N. exfalso. apply N. left. reflexivity. }
      * exists extra. split.
        { rewrite A. destruct (map_get k m); reflexivity. }
        split.
        { apply incl_tl. exact B. }
        { intros N. apply C. intros I. apply N.
          eapply Permutation_in; [exact Perm|exact I]. }
Qed.

(** X1.  When every image carries the label of one of the seven known
    rooms, [groupImagesByRoom] returns exactly one group per room that
    labels an image, in the order of [roomOrder], each holding its
    images in input order; the empty ['other'] group is kept as the
    last entry, so the map has one entry more than there are rooms. *)
Theorem labelled_images_are_grouped_by_room (input : list ImageInput) :
  unlabelled input = [] ->
  groupImagesByRoom input
  = Ok (map (fun r => (r, labelled r input)) (roomsPresent input)
        ++ [("other", [])])%list.
Proof.
  intros U. unfold groupImagesByRoom.
  rewrite groupAll_initialGroups. cbn [bind].
  rewrite grouped_nonempty, U.
  rewrite map_get_groups_other.
  - reflexivity.
  - intros r Hr. apply roomOrder_not_other. apply (roomsPresent_In r input Hr).
Qed.

Lemma labelled_images_are_grouped_by_room_witness :
  groupImagesByRoom Samples.twoPerRoom
  = Ok (map (fun r => (r, labelled r Samples.twoPerRoom))
            (roomsPresent Samples.twoPerRoom)
        ++ [("other", [])])%list.
Proof.
  apply (labelled_images_are_grouped_by_room Samples.twoPerRoom). reflexivity.
Defined.

Lemma unlabelled_all (input : list ImageInput) :
  (forall image, In image input -> knownRoom image = false) ->
  unlabelled input = input /\ roomsPresent input = [].
Proof.
  intros H. split.
  - unfold unlabelled. induction input as [|x l IH]; [reflexivity|].
    simpl. rewrite (H x (or_introl eq_refl)). simpl. f_equal.
    apply IH. intros i Hi. apply H. right. exact Hi.
  - unfold roomsPresent.
    assert (E : forall r, In r roomOrder -> labelled r input = []).
    { intros r Hr. unfold labelled. induction input as [|x l IH]; [reflexivity|].
      simpl. destruct (roomOf x =? r) eqn:Er.
      - apply String.eqb_eq in Er.
        assert (T : knownRoom x = true) by (apply knownRoom_In; rewrite Er; exact Hr).
        rewrite (H x (or_introl eq_refl)) in T. discriminate.
      - apply IH. intros i Hi. apply H. right. exact Hi. }
    induction roomOrder as [|r rs IHr]; [reflexivity|].
    simpl. rewrite (E r (or_introl eq_refl)). simpl.
    apply IHr. intros r' Hr'. apply E. right. exact Hr'.
Qed.

(** X2.  When no image of a non-empty input carries the label of a
    known room, [groupImagesByRoom] returns the single group ['living']
    holding every image in input order. *)
Theorem images_without_known_room_become_living (input : list ImageInput) :
  input <> [] ->
  (forall image, In image input -> knownRoom image = false) ->
  groupImagesByRoom input = Ok [("living", input)].
Proof.
  intros Hne H. destruct (unlabelled_all input H) as [U R].
  unfold groupImagesByRoom.
  rewrite groupAll_initialGroups. cbn [bind].
  rewrite grouped_nonempty, U, R. cbn [map app map_get orElse].
  rewrite String.eqb_refl.
  destruct input as [|x l]; [congruence|].
  cbn [List.length Nat.ltb Nat.leb].
  unfold redistributeOtherImages. cbn [filter fst snd].
  rewrite String.eqb_refl. cbn [negb andb map sortBy].
  rewrite redistributeLoop_fallback by discriminate.
  reflexivity.
Qed.

Lemma images_without_known_room_become_living_witness :
  groupImagesByRoom [Samples.photo "a.jpg" "garage"; Samples.photo "b.jpg" "attic"]
  = Ok [("living", [Samples.photo "a.jpg" "garage"; Samples.photo "b.jpg" "attic"])].
Proof.
  apply (images_without_known_room_become_living
           [Samples.photo "a.jpg" "garage"; Samples.photo "b.jpg" "attic"]).
  - discriminate.
  - intros image [<- | [<- | []]]; reflexivity.
Defined.

(** X3.  When some images carry a known label and some do not, the
    ['other'] group is removed, the groups are those of the rooms that
    label an image, in the order of [roomOrder], and each group starts
    with its own labelled images in input order, followed only by
    images without a known label; no image is lost or duplicated. *)
Theorem unlabelled_images_join_existing_rooms (input : list ImageInput) :
  unlabelled input <> [] -> roomsPresent input <> [] ->
  exists m,
    groupImagesByRoom input = Ok m
    /\ keys m = roomsPresent input
    /\ (forall r, In r (roomsPresent input) ->
        exists extra,
          map_get r m = Some (labelled r input ++ extra)%list
          /\ incl extra (unlabelled input))
    /\ Permutation (allImages m) input.
Proof.
  intros U R.
  destruct (groupImagesByRoom_Ok input) as [m0 [E0 [_ Perm]]].
  revert E0. unfold groupImagesByRoom.
  rewrite groupAll_initialGroups. cbn [bind].
  rewrite grouped_nonempty.
  set (groups := map (fun r => (r, labelled r input)) (roomsPresent input)).
  set (m2 := (groups ++ [("other", unlabelled input)])%list).
  assert (NoOther : forall r, In r (roomsPresent input) -> (r =? "other") = false).
  { intros r Hr. apply roomOrder_not_other. apply (roomsPresent_In r input Hr). }
  assert (GO : map_get "other" m2 = Some (unlabelled input))
    by (apply map_get_groups_other; exact NoOther).
  rewrite GO. cbn [orElse].
  destruct (unlabelled input) as [|u us] eqn:EU; [congruence|].
  cbn [List.length Nat.ltb Nat.leb].
  unfold redistributeOtherImages.
  assert (C : map fst (filter (fun kv => negb (fst kv =? "other")
                                          && (0 <? List.length (snd kv))%nat) m2)
              = roomsPresent input).
  { unfold m2. rewrite filter_app. cbn [filter fst snd].
    rewrite String.eqb_refl. cbn [negb andb]. rewrite app_nil_r.
    unfold groups. rewrite filter_map_comm, map_map. cbn [fst snd].
    rewrite map_id. apply forallb_filter_id.
    apply forallb_forall. intros r Hr. rewrite (NoOther r Hr). cbn [negb andb].
    destruct (roomsPresent_In r input Hr) as [_ L].
    destruct (labelled r input); [congruence|reflexivity]. }
  rewrite C.
  assert (Km2 : keys m2 = (roomsPresent input ++ ["other"])%list).
  { unfold m2. rewrite keys_app. unfold groups. rewrite keys_groups. reflexivity. }
  destruct (redistributeLoop_appends (u :: us)
              (sortBy (groupLength m2) (roomsPresent input)) m2)
    as [m3 [E3 [K3 H3]]].
  - intros E. pose proof (sortBy_perm (groupLength m2) (roomsPresent input)) as P.
    rewrite E in P. apply Permutation_nil in P. congruence.
  - eapply Permutation_Forall;
      [symmetry; apply sortBy_perm|].
    apply Forall_forall. intros r Hr. rewrite Km2. apply in_or_app. left. exact Hr.
  - rewrite E3. cbn [bind]. intros E0. injection E0 as <-.
    exists (map_delete "other" m3). split; [reflexivity|]. split.
    + rewrite keys_map_delete, K3, Km2, filter_app. cbn [filter].
      rewrite String.eqb_refl. cbn [negb]. rewrite app_nil_r.
      apply forallb_filter_id. apply forallb_forall. intros r Hr.
      rewrite (NoOther r Hr). reflexivity.
    + split; [|exact Perm].
      intros r Hr. destruct (H3 r) as [extra [A [B _]]].
      exists extra. split; [|exact B].
      unfold map_delete. rewrite map_get_filter_kept.
      * rewrite A. unfold m2, groups. rewrite map_get_groups_In by exact Hr.
        reflexivity.
      * intros v. cbn [fst]. rewrite (NoOther r Hr). reflexivity.
Qed.

Lemma unlabelled_images_join_existing_rooms_witness :
  exists m,
    groupImagesByRoom
      [Samples.photo "u1" "garage"; Samples.photo "k1" "kitchen";
       Samples.photo "l1" "living"] = Ok m
    /\ keys m = ["living"; "kitchen"]
    /\ (forall r, In r ["living"; "kitchen"] ->
        exists extra,
          map_get r m
          = Some (labelled r [Samples.photo "u1" "garage"; Samples.photo "k1" "kitchen";
                              Samples.photo "l1" "living"] ++ extra)%list
          /\ incl extra [Samples.photo "u1" "garage"])
    /\ Permutation (allImages m)
         [Samples.photo "u1" "garage"; Samples.photo "k1" "kitchen";
          Samples.photo "l1" "living"].
Proof.
  apply (unlabelled_images_join_existing_rooms
           [Samples.photo "u1" "garage"; Samples.photo "k1" "kitchen";
            Samples.photo "l1" "living"]); discriminate.
Defined.

End PlannerGrouping.

Module PlannerScenes.
Import Js Planner PlannerFacts.
Local Open Scope list_scope.

Lemma imagesPerScene_is_3 (n : nat) : 4 < n -> ceilDiv n (ceilDiv n 3) = 3.
Proof.
  intros H. unfold ceilDiv.
  pose proof (Nat.div_mod_eq (n + 3 - 1) 3) as D.
  pose proof (Nat.mod_upper_bound (n + 3 - 1) 3 ltac:(lia)) as B.
  set (q := (n + 3 - 1) / 3) in *. set (r := (n + 3 - 1) mod 3) in *.
  symmetry. apply (Nat.div_unique _ _ 3 (n + q - 1 - 3 * q)); lia.
Qed.

Lemma ceilDiv_3_bounds (n : nat) : 0 < n -> (ceilDiv n 3 - 1) * 3 < n.
Proof.
  intros H. unfold ceilDiv.
  pose proof (Nat.div_mod_eq (n + 3 - 1) 3) as D.
  pose proof (Nat.mod_upper_bound (n + 3 - 1) 3 ltac:(lia)) as B.
  set (q := (n + 3 - 1) / 3) in *. set (r := (n + 3 - 1) mod 3) in *.
  lia.
Qed.

Lemma length_slice_3 (i : nat) (l : list ImageInput) :
  List.length (slice (i * 3) ((i + 1) * 3) l) = Nat.min 3 (List.length l - i * 3).
Proof.
  unfold slice. rewrite length_firstn, length_skipn. lia.
Qed.

(** X4.  [createRoomScenes] shows every image of the room once.  A
    room other than the exterior with more than four images is split
    into [ceil(n / 3)] scenes named [room_1], [room_2], ..., each with one
    to three images; any other room gives one scene, named after the
    room, with all its images. *)
Theorem rooms_with_many_images_are_split (room : string)
  (roomImages : list ImageInput) (timing : TimingConstraints) (startIndex : nat) :
  let roomScenes := createRoomScenes room roomImages timing startIndex in
  shownImages roomScenes = roomImages
  /\ (4 < List.length roomImages /\ room <> "exterior" ->
      List.length roomScenes = ceilDiv (List.length roomImages) 3
      /\ map id roomScenes
         = map (fun i => (room ++ "_" ++ string_of_nat (i + 1))%string)
               (seq 0 (ceilDiv (List.length roomImages) 3))
      /\ Forall (fun s => 1 <= List.length (images s) <= 3) roomScenes)
  /\ (List.length roomImages <= 4 \/ room = "exterior" ->
      exists s, roomScenes = [s] /\ id s = room /\ images s = roomImages).
Proof.
  intros roomScenes. split; [apply shownImages_createRoomScenes|]. split.
  - intros [Hn Hr]. unfold roomScenes, createRoomScenes.
    apply Nat.ltb_lt in Hn. rewrite Hn.
    apply String.eqb_neq in Hr. rewrite Hr. cbn [negb andb].
    apply Nat.ltb_lt in Hn. rewrite (imagesPerScene_is_3 _ Hn).
    split; [rewrite length_map, length_seq; reflexivity|].
    split; [rewrite map_map; reflexivity|].
    apply Forall_forall. intros s Hs. apply in_map_iff in Hs as [i [<- Hi]].
    apply in_seq in Hi. cbn [images]. rewrite length_slice_3.
    pose proof (ceilDiv_3_bounds (List.length roomImages) ltac:(lia)) as B.
    lia.
  - intros H. unfold roomScenes, createRoomScenes.
    assert (C : (4 <? List.length roomImages)%nat && negb (room =? "exterior") = false).
    { destruct H as [H | ->].
      - apply Nat.ltb_ge in H. rewrite H. reflexivity.
      - rewrite String.eqb_refl. apply andb_false_r. }
    rewrite C. eexists. split; [reflexivity|]. split; reflexivity.
Qed.

Lemma createRoomScenes_wellSized (room : string) (l : list ImageInput)
  (timing : TimingConstraints) (k : nat) :
  l <> [] -> Forall wellSized (createRoomScenes room l timing k).
Proof.
  intros Hne.
  pose proof (rooms_with_many_images_are_split room l timing k) as [_ [A B]].
  pose proof (createRoomScenes_fresh room l timing k) as F.
  destruct (Nat.le_gt_cases (List.length l) 4) as [Hle | Hgt].
  - destruct (B (or_introl Hle)) as [s [E [_ I]]]. rewrite E in F |- *.
    constructor; [|constructor]. unfold wellSized. rewrite I.
    split; [destruct l; [congruence|simpl; lia]|]. intros _. exact Hle.
  - destruct (String.eqb_spec room "exterior") as [-> | Hr].
    + destruct (B (or_intror eq_refl)) as [s [E [_ I]]]. rewrite E in F |- *.
      constructor; [|constructor]. unfold wellSized. rewrite I.
      split; [lia|]. inversion F as [|? ? [R _] _]; subst. congruence.
    + destruct (A (conj Hgt Hr)) as [_ [_ S]].
      eapply Forall_impl; [|exact S]. intros s [P Q]. split; lia.
Qed.

Lemma createScenesFrom_wellSized (timing : TimingConstraints) :
  forall (m : RoomMap) (k : nat), Forall wellSized (createScenesFrom m timing k).
Proof.
  induction m as [|[room l] m IH]; intros k; [constructor|].
  cbn [createScenesFrom]. destruct (List.length l =? 0)%nat eqn:E; [apply IH|].
  apply Forall_app. split; [|apply IH].
  apply createRoomScenes_wellSized. intros ->. discriminate.
Qed.

Lemma wellSized_by_content (a b : list Scene) :
  map content a = map content b -> Forall wellSized b -> Forall wellSized a.
Proof.
  revert b. induction a as [|x a IH]; intros [|y b] E F; try discriminate;
    [constructor|].
  simpl in E. injection E as _ Er Ei Et. inversion F as [|? ? Fy Fb]; subst.
  constructor; [|apply (IH b Et Fb)].
  unfold wellSized in *. rewrite Er, Ei. exact Fy.
Qed.

(** X5.  Every scene of every plan shows at least one image, and at
    most four unless it is a scene of the exterior. *)
Theorem every_scene_shows_one_to_four_images (options : Options)
  (input : list ImageInput) (outputConfig : OutputConfig) :
  exists plan,
    planScenes options input outputConfig = Ok plan
    /\ Forall (fun s => 1 <= List.length (images s)
                        /\ (scene_room s <> "exterior" ->
                            List.length (images s) <= 4))
              (scenes plan).
Proof.
  destruct (groupImagesByRoom_Ok input) as [m [G _]].
  unfold planScenes. rewrite G. cbn [bind].
  eexists. split; [reflexivity|]. cbn [scenes buildScenePlan].
  set (timing := calculateTiming options outputConfig (List.length m)).
  destruct (optimizeScenes_shape options (createScenes m timing) timing)
    as [core [extra [E [C [_ X]]]]].
  rewrite E. apply Forall_app. split.
  - apply (wellSized_by_content _ _ C).
    eapply Permutation_Forall; [symmetry; apply sortBy_perm|].
    apply createScenesFrom_wellSized.
  - destruct X as [-> | [src [t [Hin [Hlen ->]]]]]; [constructor|].
    constructor; [|constructor]. cbn [fillerScene images scene_room].
    destruct (last_image (images src)) as [x [L _]]; [lia|].
    rewrite L. simpl. split; [lia|]. intros _. lia.
Qed.

Lemma assignTechniques_all_kenburns (options : Options) (cap : number) :
  forall (l : list Scene) (used : nat) (total : number),
  ltb (of_nat used) cap && preferVeoOverKenBurns options = false ->
  map type (fst (fst (assignTechniques options cap l used total)))
  = repeat kenburns (List.length l).
Proof.
  induction l as [|s l IH]; intros used total H; [reflexivity|].
  cbn [assignTechniques]. rewrite H.
  destruct (assignTechniques options cap l used
              (add total (duration (withDuration (withType s kenburns)
                                      (min (duration s) (of_nat 6))))))
    as [[rest' usedEnd] totalEnd] eqn:A.
  cbn [fst map type withDuration withType List.length repeat]. f_equal.
  specialize (IH used (add total (duration (withDuration (withType s kenburns)
                                      (min (duration s) (of_nat 6))))) H).
  rewrite A in IH. exact IH.
Qed.

Lemma assignTechniques_veo_first (options : Options) (cap : number) :
  forall (l : list Scene) (used : nat) (total : number),
  exists k j,
    map type (fst (fst (assignTechniques options cap l used total)))
    = repeat veo k ++ repeat kenburns j.
Proof.
  induction l as [|s l IH]; intros used total.
  - exists 0, 0. reflexivity.
  - destruct (ltb (of_nat used) cap && preferVeoOverKenBurns options) eqn:H.
    + cbn [assignTechniques]. rewrite H.
      destruct (IH (S used) (add total (duration (withType s veo)))) as [k [j E]].
      destruct (assignTechniques options cap l (S used)
                  (add total (duration (withType s veo))))
        as [[rest' usedEnd] totalEnd].
      exists (S k), j. cbn [fst map type withType repeat app] in *.
      rewrite E. reflexivity.
    + exists 0, (List.length (s :: l)).
      apply assignTechniques_all_kenburns. exact H.
Qed.

Lemma count_types (k j : nat) (l : list Scene) :
  map type l = repeat veo k ++ repeat kenburns j ->
  List.length (filter (fun s => SceneType_eqb (type s) veo) l) = k
  /\ List.length (filter (fun s => SceneType_eqb (type s) kenburns) l) = j
  /\ List.length l = k + j.
Proof.
  revert l. induction k as [|k IH]; intros l E.
  - cbn [repeat app] in E. revert l E. induction j as [|j IHj]; intros l E.
    + destruct l; [repeat split; reflexivity|discriminate].
    + destruct l as [|s l]; [discriminate|]. simpl in E. injection E as Es El.
      destruct (IHj l El) as [A [B C]]. simpl. rewrite Es. simpl.
      repeat split; lia.
  - destruct l as [|s l]; [discriminate|]. simpl in E. injection E as Es El.
    destruct (IH l El) as [A [B C]]. simpl. rewrite Es. simpl.
    repeat split; lia.
Qed.

(** X6.  In every plan the AI-synthesis scenes come first: the scene
    types are [veoSegments] times [veo] followed by [kenBurnsSegments]
    times [kenburns], and the two counts add up to the number of
    scenes. *)
Theorem ai_scenes_come_first (options : Options)
  (input : list ImageInput) (outputConfig : OutputConfig) :
  exists plan,
    planScenes options input outputConfig = Ok plan
    /\ map type (scenes plan)
       = repeat veo (veoSegments plan) ++ repeat kenburns (kenBurnsSegments plan)
    /\ veoSegments plan + kenBurnsSegments plan = List.length (scenes plan).
Proof.
  destruct (groupImagesByRoom_Ok input) as [m [G _]].
  unfold planScenes. rewrite G. cbn [bind].
  eexists. split; [reflexivity|].
  cbn [scenes buildScenePlan veoSegments kenBurnsSegments].
  set (timing := calculateTiming options outputConfig (List.length m)).
  set (l := createScenes m timing).
  assert (T : exists k j, map type (optimizeScenes options l timing)
                          = repeat veo k ++ repeat kenburns j).
  { destruct (PlannerTiming.optimizeScenes_stages options l timing)
      as [pass1 [used [total [extra [A [E X]]]]]].
    destruct (assignTechniques_veo_first options (timing_maxVeoSegments timing)
                (sortBy priorityOf l) 0 (of_nat 0)) as [k [j P]].
    rewrite A in P. cbn [fst] in P.
    assert (P2 : map type (if negb (eqb total (availableContentTime timing))
                           then adjustSceneDurations pass1 (availableContentTime timing)
                           else pass1)
                 = repeat veo k ++ repeat kenburns j).
    { destruct (negb (eqb total (availableContentTime timing))); [|exact P].
      rewrite (proj2 (adjustSceneDurations_content pass1 _)). exact P. }
    rewrite E, map_app, P2.
    destruct X as [-> | [src [t ->]]].
    - exists k, j. rewrite app_nil_r. reflexivity.
    - exists k, (j + 1). cbn [map type fillerScene].
      rewrite repeat_app, app_assoc. reflexivity. }
  destruct T as [k [j T]].
  destruct (count_types k j _ T) as [A [B C]].
  rewrite A, B. split; [exact T|]. lia.
Qed.

End PlannerScenes.

Module PlannerDurations.
Import Js Planner PlannerFacts.
Local Open Scope list_scope.

Lemma finite_add (x y : number) :
  isFinite x = true -> isFinite y = true -> isFinite (add x y) = true.
Proof. destruct x, y; try discriminate; reflexivity. Qed.

Lemma finite_neg (x : number) : isFinite x = true -> isFinite (neg x) = true.
Proof. destruct x; try discriminate; reflexivity. Qed.

Lemma finite_sub (x y : number) :
  isFinite x = true -> isFinite y = true -> isFinite (sub x y) = true.
Proof. intros A B. apply finite_add; [exact A|apply finite_neg; exact B]. Qed.

Lemma finite_mul (x y : number) :
  isFinite x = true -> isFinite y = true -> isFinite (mul x y) = true.
Proof. destruct x, y; try discriminate; reflexivity. Qed.

Lemma finite_min (x y : number) :
  isFinite x = true -> isFinite y = true -> isFinite (min x y) = true.
Proof.
  destruct x, y; try discriminate; intros _ _; unfold min;
    destruct (leb _ _); reflexivity.
Qed.

Lemma finite_max (x y : number) :
  isFinite x = true -> isFinite y = true -> isFinite (max x y) = true.
Proof.
  destruct x, y; try discriminate; intros _ _; unfold max;
    destruct (leb _ _); reflexivity.
Qed.

Lemma clamp_range (lo hi x : Q) :
  (lo <= hi)%Q ->
  exists y, max (Fin lo) (min (Fin hi) (Fin x)) = Fin y /\ (lo <= y /\ y <= hi)%Q.
Proof.
  intros H. unfold max, min, leb.
  destruct (Qle_bool hi x) eqn:A.
  - destruct (Qle_bool lo hi) eqn:B.
    + exists hi. split; [reflexivity|]. split; [exact H|apply Qle_refl].
    + exists lo. split; [reflexivity|]. split; [apply Qle_refl|exact H].
  - assert (A' : (x < hi)%Q).
    { apply Qnot_le_lt. intros C. apply Qle_bool_iff in C. congruence. }
    destruct (Qle_bool lo x) eqn:B.
    + apply Qle_bool_iff in B. exists x. split; [reflexivity|].
      split; [exact B|apply Qlt_le_weak; exact A'].
    + exists lo. split; [reflexivity|]. split; [apply Qle_refl|exact H].
Qed.

Lemma of_nat_nonzero (n : nat) : 0 < n -> ~ (inject_Z (Z.of_nat n) == 0)%Q.
Proof.
  intros H E. unfold Qeq in E. simpl in E. lia.
Qed.

(** The timing of a plan with finite settings. *)
Lemma calculateTiming_finite (options : Options) (outputConfig : OutputConfig)
  (n : nat) (lo hi : Q) :
  isFinite (targetSeconds outputConfig) = true ->
  isFinite (maxVeoSegments options) = true ->
  isFinite (crossfadeDuration options) = true ->
  minSegmentDuration options = Fin lo -> maxSegmentDuration options = Fin hi ->
  (lo <= hi)%Q -> 0 < n ->
  exists a i,
    availableContentTime (calculateTiming options outputConfig n) = Fin a
    /\ idealSegmentDuration (calculateTiming options outputConfig n) = Fin i
    /\ (lo <= i /\ i <= hi)%Q.
Proof.
  intros Ft Fc Ff Elo Ehi Hle Hn.
  unfold calculateTiming. cbn [availableContentTime idealSegmentDuration].
  set (avail := sub (targetSeconds outputConfig) _).
  assert (Fa : isFinite avail = true).
  { unfold avail. apply finite_sub; [exact Ft|].
    apply finite_mul; [|exact Ff].
    apply finite_max; [reflexivity|].
    apply finite_sub; [|reflexivity].
    apply finite_min; [reflexivity|].
    apply finite_mul; [exact Fc|reflexivity]. }
  destruct avail as [a| | |]; try discriminate.
  rewrite Elo, Ehi. unfold of_nat.
  rewrite (PlannerTiming.div_Fin a _ (of_nat_nonzero n Hn)).
  destruct (clamp_range lo hi (a / inject_Z (Z.of_nat n)) Hle) as [i [E B]].
  exists a, i. split; [reflexivity|]. split; [exact E|exact B].
Qed.

Lemma min_six (i : Q) :
  (4 <= i)%Q ->
  exists z, min (Fin i) (of_nat 6) = Fin z /\ (4 <= z /\ z <= 6)%Q.
Proof.
  intros H. unfold min, of_nat, leb.
  destruct (Qle_bool i (inject_Z (Z.of_nat 6))) eqn:A.
  - apply Qle_bool_iff in A. exists i. split; [reflexivity|].
    split; [exact H|exact A].
  - exists (inject_Z (Z.of_nat 6)). split; [reflexivity|].
    split; vm_compute; discriminate.
Qed.

Lemma assignTechniques_inRange (options : Options) (cap : number) (i : Q) :
  (4 <= i)%Q -> (i <= 8)%Q ->
  forall (l : list Scene) (used : nat) (total : number),
  Forall (fun s => duration s = Fin i) l ->
  Forall inRange (fst (fst (assignTechniques options cap l used total))).
Proof.
  intros Hlo Hhi. induction l as [|s l IH]; intros used total F; [constructor|].
  inversion F as [|? ? Fs Fl]; subst.
  cbn [assignTechniques].
  destruct (ltb (of_nat used) cap && preferVeoOverKenBurns options).
  - specialize (IH (S used) (add total (duration (withType s veo))) Fl).
    destruct (assignTechniques options cap l (S used)
                (add total (duration (withType s veo))))
      as [[rest' usedEnd] totalEnd].
    cbn [fst] in *. constructor; [|exact IH].
    split.
    + exists i. split; [exact Fs|]. split; lra.
    + intros _. exists i. split; [exact Fs|]. split; lra.
  - set (s' := withDuration (withType s kenburns) (min (duration s) (of_nat 6))).
    specialize (IH used (add total (duration s')) Fl).
    destruct (assignTechniques options cap l used (add total (duration s')))
      as [[rest' usedEnd] totalEnd].
    cbn [fst] in *. constructor; [|exact IH].
    split.
    + unfold s'. cbn [duration withDuration]. rewrite Fs.
      destruct (min_six i Hlo) as [z [E [A B]]].
      exists z. split; [exact E|]. split; lra.
    + unfold s'. cbn [type withDuration withType]. discriminate.
Qed.

Lemma sumFrom_inRange (l : list Scene) :
  Forall inRange l ->
  forall t0, exists t1, sumFrom (Fin t0) l = Fin t1
                        /\ (t0 + 3 * Qn (List.length l) <= t1)%Q.
Proof.
  induction 1 as [|s l [[d [E [A B]]] _] F IH]; intros t0.
  - exists t0. split; [reflexivity|].
    change (Qn (List.length (@nil Scene))) with 0%Q. lra.
  - cbn [sumFrom fold_left]. rewrite E. cbn [add].
    destruct (IH (t0 + d)%Q) as [t1 [E1 B1]].
    exists t1. split; [exact E1|].
    cbn [List.length]. rewrite PlannerTiming.Qn_S. lra.
Qed.

Lemma adjustSceneDurations_inRange (l : list Scene) (a : Q) :
  Forall inRange l -> Forall inRange (adjustSceneDurations l (Fin a)).
Proof.
  intros F. unfold adjustSceneDurations.
  destruct (sumFrom_inRange l F 0%Q) as [T [ET BT]].
  change (sumDurations l) with (sumFrom (Fin 0%Q) l).
  rewrite ET. apply Forall_forall. intros s' Hs'.
  apply in_map_iff in Hs' as [s [<- Hs]].
  assert (Tpos : (0 < T)%Q).
  { destruct l as [|x l']; [contradiction|].
    cbn [List.length] in BT. rewrite PlannerTiming.Qn_S in BT.
    assert (0 <= Qn (List.length l'))%Q.
    { unfold Qn. change 0%Q with (inject_Z 0). rewrite <- Zle_Qle. lia. }
    lra. }
  assert (NZ : ~ (T == 0)%Q) by lra.
  rewrite (PlannerTiming.div_Fin a T NZ).
  pose proof (proj1 (Forall_forall _ _) F s Hs) as [[d [E _]] _].
  rewrite E. cbn [mul].
  destruct (type s) eqn:Ty.
  - destruct (clamp_range (inject_Z (Z.of_nat 4)) (inject_Z (Z.of_nat 8))
                (d * (a / T))) as [y [Ey [A B]]]; [vm_compute; discriminate|].
    split.
    + exists y. cbn [duration withDuration]. split; [exact Ey|].
      change (inject_Z (Z.of_nat 4)) with 4%Q in A.
      change (inject_Z (Z.of_nat 8)) with 8%Q in B. split; lra.
    + intros _. exists y. cbn [duration withDuration]. split; [exact Ey|].
      split; [exact A|exact B].
  - destruct (clamp_range (inject_Z (Z.of_nat 3)) (inject_Z (Z.of_nat 10))
                (d * (a / T))) as [y [Ey [A B]]]; [vm_compute; discriminate|].
    split.
    + exists y. cbn [duration withDuration]. split; [exact Ey|].
      split; [exact A|exact B].
    + cbn [type withDuration]. rewrite Ty. discriminate.
Qed.

Lemma addFillerScenes_inRange (l : list Scene) (x : Q) :
  Forall inRange l -> Forall inRange (addFillerScenes l (Fin x)).
Proof.
  intros F. unfold addFillerScenes.
  destruct (filter (fun s => (1 <? List.length (images s))%nat) l) as [|src rest];
    [exact F|].
  destruct (gtb (Fin x) (of_nat 3)) eqn:G; [|exact F].
  apply Forall_app. split; [exact F|]. constructor; [|constructor].
  assert (X : (3 < x)%Q).
  { unfold gtb, ltb, of_nat in G.
    destruct (Qcompare (inject_Z (Z.of_nat 3)) x) eqn:C; try discriminate.
    apply Qlt_alt in C. exact C. }
  split.
  - unfold lastsBetween. cbn [duration fillerScene]. unfold min, of_nat, leb.
    destruct (Qle_bool x (inject_Z (Z.of_nat 6))) eqn:A.
    + apply Qle_bool_iff in A. change (inject_Z (Z.of_nat 6)) with 6%Q in A.
      exists x. split; [reflexivity|]. split; lra.
    + exists (inject_Z (Z.of_nat 6)). split; [reflexivity|].
      split; vm_compute; discriminate.
  - cbn [type fillerScene]. discriminate.
Qed.

(** X7.  With a finite target, finite settings and segment bounds
    within 4 s to 8 s (as the defaults are), every scene of the plan
    lasts a finite time between 3 s and 10 s, and every AI-synthesis
    scene between 4 s and 8 s. *)
Theorem scene_durations_stay_in_range (options : Options)
  (input : list ImageInput) (outputConfig : OutputConfig) (lo hi : Q) :
  isFinite (targetSeconds outputConfig) = true ->
  isFinite (maxVeoSegments options) = true ->
  isFinite (crossfadeDuration options) = true ->
  minSegmentDuration options = Fin lo -> maxSegmentDuration options = Fin hi ->
  (4 <= lo)%Q -> (lo <= hi)%Q -> (hi <= 8)%Q ->
  exists plan,
    planScenes options input outputConfig = Ok plan
    /\ Forall (fun s => lastsBetween 3 10 s
                        /\ (type s = veo -> lastsBetween 4 8 s))
              (scenes plan).
Proof.
  intros Ft Fc Ff Elo Ehi H4 Hle H8.
  destruct (groupImagesByRoom_Ok input) as [m [G _]].
  unfold planScenes. rewrite G. cbn [bind].
  eexists. split; [reflexivity|]. cbn [scenes buildScenePlan].
  destruct m as [|kv m'].
  { unfold createScenes. cbn [createScenesFrom]. rewrite optimizeScenes_nil.
    constructor. }
  set (m := kv :: m') in *.
  set (timing := calculateTiming options outputConfig (List.length m)).
  destruct (calculateTiming_finite options outputConfig (List.length m) lo hi
              Ft Fc Ff Elo Ehi Hle ltac:(simpl; lia)) as [a [i [Ea [Ei [Bl Bh]]]]].
  fold timing in Ea, Ei.
  assert (Fresh : Forall (fun s => duration s = Fin i)
                         (sortBy priorityOf (createScenes m timing))).
  { eapply Permutation_Forall; [symmetry; apply sortBy_perm|].
    eapply Forall_impl; [|apply (createScenesFrom_fresh timing m 0)].
    intros s [_ [_ D]]. rewrite D. exact Ei. }
  unfold optimizeScenes.
  pose proof (assignTechniques_inRange options (timing_maxVeoSegments timing) i
                ltac:(lra) ltac:(lra) _ 0 (of_nat 0) Fresh) as P1.
  pose proof (assignTechniques_spec options (timing_maxVeoSegments timing)
                (sortBy priorityOf (createScenes m timing)) 0 (of_nat 0)) as Spec.
  destruct (assignTechniques options (timing_maxVeoSegments timing)
              (sortBy priorityOf (createScenes m timing)) 0 (of_nat 0))
    as [[pass1 used] total].
  cbn [fst] in P1.
  destruct (Spec _ _ _ eq_refl) as [_ [_ [Etotal _]]].
  destruct (sumFrom_inRange pass1 P1 0%Q) as [T [ET _]].
  change (of_nat 0) with (Fin 0%Q) in Etotal. rewrite ET in Etotal.
  rewrite Ea, Etotal.
  assert (P2 : Forall inRange
                 (if negb (eqb (Fin T) (Fin a))
                  then adjustSceneDurations pass1 (Fin a) else pass1)).
  { destruct (negb (eqb (Fin T) (Fin a)));
      [apply adjustSceneDurations_inRange|]; exact P1. }
  destruct (ltb (Fin T) (mul64 (Fin a) (binary64 (95 # 100)))); [|exact P2].
  cbn [sub neg add]. apply addFillerScenes_inRange. exact P2.
Qed.

Lemma scene_durations_stay_in_range_witness :
  exists plan,
    planScenes Samples.defaults Samples.twoPerRoom (Samples.seconds 90) = Ok plan
    /\ Forall (fun s => lastsBetween 3 10 s
                        /\ (type s = veo -> lastsBetween 4 8 s))
              (scenes plan).
Proof.
  apply (scene_durations_stay_in_range Samples.defaults Samples.twoPerRoom
           (Samples.seconds 90) 4 8);
    try reflexivity; vm_compute; discriminate.
Defined.

End PlannerDurations.

Module PlannerTotal.
Import Js Planner PlannerFacts PlannerDurations.
Local Open Scope list_scope.


Lemma Qn_0 : (Qn 0 == 0)%Q.
Proof. reflexivity. Qed.





End PlannerTotal.

Module VeoPolling.
Import Js Veo VeoClient VeoFacts.
Local Open Scope list_scope.

Lemma pollOnce_pending_state (w : World) (operationName token : string) (k : nat)
  (st : St) :
  pending (pollReply w k) ->
  exists st',
    pollOnce w operationName token k st = (Ok None, st')
    /\ trace st' = trace st ++ [Poll operationName k;
                                Sleep (backoff k (random w (randomsDrawn st)))]
    /\ randomsDrawn st' = S (randomsDrawn st)
    /\ submissions st' = submissions st.
Proof.
  intros P. destruct (pollOnce_pending w operationName token k st P) as [st' E].
  exists st'. split; [exact E|].
  destruct (pollOnce_outcome _ _ _ _ _ _ _ E) as [Sb [[_ [_ [T R]]] | [N _]]];
    [|congruence].
  repeat split; assumption.
Qed.

Lemma pollOnce_success (w : World) (operationName token : string) (k : nat)
  (st : St) (operation : VeoOperation) :
  reportsSuccess (pollReply w k) operation ->
  exists st',
    pollOnce w operationName token k st = (Ok (Some operation), st')
    /\ trace st' = trace st ++ [Poll operationName k]
    /\ randomsDrawn st' = randomsDrawn st
    /\ submissions st' = submissions st.
Proof.
  intros [resp [R [Hok [J [D E]]]]].
  unfold pollOnce, fetchPoll, bindM, emit, lift, throw, ret.
  rewrite R, Hok. cbn [negb]. rewrite J, D, E.
  eexists. split; [reflexivity|]. repeat split; reflexivity.
Qed.

Lemma pollOnce_fails (w : World) (operationName token : string) (k : nat)
  (st : St) (e : exn) :
  pollFails (pollReply w k) e ->
  exists st',
    pollOnce w operationName token k st = (Throw e, st')
    /\ trace st' = trace st ++ [Poll operationName k]
    /\ randomsDrawn st' = randomsDrawn st
    /\ submissions st' = submissions st.
Proof.
  unfold pollOnce, fetchPoll, bindM, emit, lift, throw, ret.
  intros [R | [resp [R [[Hok ->] | [Hok J]]]]]; rewrite R.
  - eexists. split; [reflexivity|]. repeat split; reflexivity.
  - rewrite Hok. cbn [negb].
    eexists. split; [reflexivity|]. repeat split; reflexivity.
  - rewrite Hok. cbn [negb]. rewrite J.
    eexists. split; [reflexivity|]. repeat split; reflexivity.
Qed.

(** The turns of the loop that find the job still running. *)
Lemma pollLoop_skips_pending (w : World) (operationName token : string)
  (maxAttempts : nat) :
  forall (d attempts fuel : nat) (st : St),
  (forall j, attempts < j -> j <= attempts + d -> pending (pollReply w j)) ->
  attempts + d <= maxAttempts -> d <= fuel ->
  exists st_d,
    pollLoop w operationName token maxAttempts fuel attempts st
    = pollLoop w operationName token maxAttempts (fuel - d) (attempts + d) st_d
    /\ trace st_d
       = trace st ++ pendingRounds w operationName (randomsDrawn st) attempts d
    /\ randomsDrawn st_d = randomsDrawn st + d
    /\ submissions st_d = submissions st.
Proof.
  induction d as [|d IH]; intros attempts fuel st Hp Hle Hfuel.
  - exists st. rewrite Nat.sub_0_r, !Nat.add_0_r. cbn [pendingRounds].
    rewrite app_nil_r. repeat split; reflexivity.
  - destruct fuel as [|fuel]; [lia|]. cbn [pollLoop].
    destruct (Nat.ltb_spec attempts maxAttempts); [|lia].
    destruct (pollOnce_pending_state w operationName token (S attempts) st)
      as [st1 [E [T [R S1]]]]; [apply Hp; lia|].
    rewrite E.
    destruct (IH (S attempts) fuel st1) as [st_d [L [T' [R' S']]]];
      [intros j A B; apply Hp; lia | lia | lia |].
    exists st_d. rewrite L.
    replace (S fuel - S d) with (fuel - d) by lia.
    replace (attempts + S d) with (S attempts + d) by lia.
    split; [reflexivity|]. split; [|split; [lia|congruence]].
    rewrite T', T, R. cbn [pendingRounds]. rewrite <- app_assoc. reflexivity.
Qed.

Lemma pollCount_pendingRounds (w : World) (operationName : string) :
  forall d r0 from, pollCount (pendingRounds w operationName r0 from d) = d.
Proof.
  unfold pollCount. induction d as [|d IH]; intros r0 from; [reflexivity|].
  cbn [pendingRounds filter isPoll List.length]. rewrite IH. reflexivity.
Qed.

Lemma sleeps_pendingRounds (w : World) (operationName : string) :
  forall d r0 from,
  sleeps (pendingRounds w operationName r0 from d)
  = map (fun i => backoff (S (from + i)) (random w (r0 + i))) (seq 0 d).
Proof.
  induction d as [|d IH]; intros r0 from; [reflexivity|].
  cbn [pendingRounds sleeps seq map]. rewrite !Nat.add_0_r. f_equal.
  rewrite IH, <- seq_shift, map_map. apply map_ext. intros i.
  rewrite !Nat.add_succ_r. reflexivity.
Qed.

Lemma pollOperation_first_finished (w : World)
  (operationName token : string) (maxAttempts k : nat)
  (operation : VeoOperation) (st : St) :
  1 <= k -> k <= maxAttempts ->
  (forall j, 1 <= j -> j < k -> pending (pollReply w j)) ->
  reportsSuccess (pollReply w k) operation ->
  exists st',
    pollOperation w operationName token maxAttempts st = (Ok operation, st')
    /\ trace st'
       = trace st ++ pendingRounds w operationName (randomsDrawn st) 0 (k - 1)
         ++ [Poll operationName k]
    /\ randomsDrawn st' = randomsDrawn st + (k - 1)
    /\ submissions st' = submissions st.
Proof.
  intros H1 Hk Hp Hs. unfold pollOperation.
  destruct (pollLoop_skips_pending w operationName token maxAttempts
              (k - 1) 0 maxAttempts st) as [st_d [L [T [R Sb]]]];
    [intros j A B; apply Hp; lia | lia | lia |].
  rewrite L. cbn [Nat.add].
  destruct (maxAttempts - (k - 1)) as [|fuel] eqn:F; [lia|].
  cbn [pollLoop]. destruct (Nat.ltb_spec (k - 1) maxAttempts); [|lia].
  replace (S (k - 1)) with k by lia.
  destruct (pollOnce_success w operationName token k st_d operation Hs)
    as [st' [E [T' [R' S']]]].
  rewrite E. exists st'. split; [reflexivity|].
  split; [rewrite T', T, <- app_assoc; reflexivity|].
  split; congruence.
Qed.

(** X8.  When the polls before the [k]-th leave the job running and
    the [k]-th reports it done without an error, [pollOperation] returns
    the operation of that poll after exactly [k] polls, having slept
    once after each of the [k - 1] earlier ones, the [i]-th time for
    [backoff i]; nothing is submitted. *)
Theorem pollOperation_returns_the_first_finished_operation (w : World)
  (operationName token : string) (maxAttempts k : nat)
  (operation : VeoOperation) (st : St) :
  1 <= k -> k <= maxAttempts ->
  (forall j, 1 <= j -> j < k -> pending (pollReply w j)) ->
  reportsSuccess (pollReply w k) operation ->
  exists st',
    pollOperation w operationName token maxAttempts st = (Ok operation, st')
    /\ trace st'
       = trace st ++ pendingRounds w operationName (randomsDrawn st) 0 (k - 1)
         ++ [Poll operationName k]
    /\ sleeps (pendingRounds w operationName (randomsDrawn st) 0 (k - 1))
       = map (fun i => backoff (S i) (random w (randomsDrawn st + i)))
             (seq 0 (k - 1))
    /\ submissions st' = submissions st.
Proof.
  intros H1 Hk Hp Hs.
  destruct (pollOperation_first_finished w operationName token maxAttempts k
              operation st H1 Hk Hp Hs) as [st' [E [T [_ Sb]]]].
  exists st'. split; [exact E|]. split; [exact T|].
  split; [apply sleeps_pendingRounds|exact Sb].
Qed.

Lemma pollOperation_returns_the_first_finished_operation_witness :
  exists st',
    pollOperation Samples.steadyService "operation" "token" defaultMaxAttempts
      initial = (Ok Samples.finishedOperation, st')
    /\ trace st'
       = trace initial
         ++ pendingRounds Samples.steadyService "operation"
              (randomsDrawn initial) 0 (3 - 1)
         ++ [Poll "operation" 3]
    /\ sleeps (pendingRounds Samples.steadyService "operation"
                 (randomsDrawn initial) 0 (3 - 1))
       = map (fun i => backoff (S i)
                         (random Samples.steadyService (randomsDrawn initial + i)))
             (seq 0 (3 - 1))
    /\ submissions st' = submissions initial.
Proof.
  apply (pollOperation_returns_the_first_finished_operation
           Samples.steadyService "operation" "token" defaultMaxAttempts 3
           Samples.finishedOperation initial).
  - lia.
  - unfold defaultMaxAttempts. lia.
  - intros j A B. assert (C : j = 1 \/ j = 2) by lia.
    destruct C as [-> | ->];
      (eexists; eexists; split; [reflexivity|]; split; [reflexivity|];
       split; [reflexivity|]; discriminate).
  - eexists. split; [reflexivity|]. repeat split; reflexivity.
Defined.

(** X9.  When every poll leaves the job running, [pollOperation]
    fails with [OperationTimedOut] after exactly [maxAttempts] polls and
    as many delays: it sleeps once more after the last poll before it
    gives up.  With [maxAttempts = 0] it fails without polling. *)
Theorem pollOperation_times_out_after_maxAttempts_polls (w : World)
  (operationName token : string) (maxAttempts : nat) (st : St) :
  (forall j, 1 <= j -> j <= maxAttempts -> pending (pollReply w j)) ->
  exists st',
    pollOperation w operationName token maxAttempts st
    = (Throw OperationTimedOut, st')
    /\ trace st'
       = trace st ++ pendingRounds w operationName (randomsDrawn st) 0 maxAttempts
    /\ pollCount (pendingRounds w operationName (randomsDrawn st) 0 maxAttempts)
       = maxAttempts
    /\ sleeps (pendingRounds w operationName (randomsDrawn st) 0 maxAttempts)
       = map (fun i => backoff (S i) (random w (randomsDrawn st + i)))
             (seq 0 maxAttempts).
Proof.
  intros Hp. unfold pollOperation.
  destruct (pollLoop_skips_pending w operationName token maxAttempts
              maxAttempts 0 maxAttempts st) as [st_d [L [T [R Sb]]]];
    [intros j A B; apply Hp; lia | lia | lia |].
  rewrite L. cbn [Nat.add]. rewrite Nat.sub_diag. cbn [pollLoop].
  rewrite Nat.ltb_irrefl.
  exists st_d. split; [reflexivity|]. split; [exact T|].
  split; [apply pollCount_pendingRounds|apply sleeps_pendingRounds].
Qed.

Lemma pollOperation_times_out_after_maxAttempts_polls_witness :
  exists st',
    pollOperation Samples.slowService "operation" "token" 5 initial
    = (Throw OperationTimedOut, st')
    /\ trace st'
       = trace initial
         ++ pendingRounds Samples.slowService "operation" (randomsDrawn initial) 0 5
    /\ pollCount (pendingRounds Samples.slowService "operation"
                    (randomsDrawn initial) 0 5) = 5
    /\ sleeps (pendingRounds Samples.slowService "operation"
                 (randomsDrawn initial) 0 5)
       = map (fun i => backoff (S i)
                         (random Samples.slowService (randomsDrawn initial + i)))
             (seq 0 5).
Proof.
  apply (pollOperation_times_out_after_maxAttempts_polls
           Samples.slowService "operation" "token" 5 initial).
  intros j _ _. eexists; eexists. split; [reflexivity|].
  split; [reflexivity|]. split; [reflexivity|]. discriminate.
Defined.

(** X10.  A poll request that fails (the request is rejected, the
    status is not a success, or the body cannot be decoded) ends
    [pollOperation] with that failure at once: the failed poll is the
    last one, whatever number of attempts is left. *)
Theorem failed_poll_request_ends_the_job (w : World)
  (operationName token : string) (maxAttempts k : nat) (e : exn) (st : St) :
  1 <= k -> k <= maxAttempts ->
  (forall j, 1 <= j -> j < k -> pending (pollReply w j)) ->
  pollFails (pollReply w k) e ->
  exists st',
    pollOperation w operationName token maxAttempts st = (Throw e, st')
    /\ trace st'
       = trace st ++ pendingRounds w operationName (randomsDrawn st) 0 (k - 1)
         ++ [Poll operationName k]
    /\ pollCount (pendingRounds w operationName (randomsDrawn st) 0 (k - 1)
                  ++ [Poll operationName k]) = k.
Proof.
  intros H1 Hk Hp Hf. unfold pollOperation.
  destruct (pollLoop_skips_pending w operationName token maxAttempts
              (k - 1) 0 maxAttempts st) as [st_d [L [T [R Sb]]]];
    [intros j A B; apply Hp; lia | lia | lia |].
  rewrite L. cbn [Nat.add].
  destruct (maxAttempts - (k - 1)) as [|fuel] eqn:F; [lia|].
  cbn [pollLoop]. destruct (Nat.ltb_spec (k - 1) maxAttempts); [|lia].
  replace (S (k - 1)) with k by lia.
  destruct (pollOnce_fails w operationName token k st_d e Hf)
    as [st' [E [T' _]]].
  rewrite E. exists st'. split; [reflexivity|].
  split; [rewrite T', T, <- app_assoc; reflexivity|].
  unfold pollCount. rewrite filter_app, length_app.
  fold (pollCount (pendingRounds w operationName (randomsDrawn st) 0 (k - 1))).
  rewrite pollCount_pendingRounds. simpl. lia.
Qed.

Lemma failed_poll_request_ends_the_job_witness :
  exists st',
    pollOperation Samples.brokenPollService "operation" "token"
      defaultMaxAttempts initial
    = (Throw (Error "Failed to poll operation: 500"), st')
    /\ trace st'
       = trace initial
         ++ pendingRounds Samples.brokenPollService "operation"
              (randomsDrawn initial) 0 (3 - 1)
         ++ [Poll "operation" 3]
    /\ pollCount (pendingRounds Samples.brokenPollService "operation"
                    (randomsDrawn initial) 0 (3 - 1)
                  ++ [Poll "operation" 3]) = 3.
Proof.
  apply (failed_poll_request_ends_the_job
           Samples.brokenPollService "operation" "token" defaultMaxAttempts 3
           (Error "Failed to poll operation: 500") initial).
  - lia.
  - unfold defaultMaxAttempts. lia.
  - intros j A B. assert (C : j = 1 \/ j = 2) by lia.
    destruct C as [-> | ->];
      (eexists; eexists; split; [reflexivity|]; split; [reflexivity|];
       split; [reflexivity|]; discriminate).
  - right. eexists. split; [reflexivity|]. left. split; reflexivity.
Defined.


(** X12.  The successful run of [generateClip]: with a token, an
    accepted submission, a job found done at the [k]-th poll whose
    response names a well-formed storage URI, and a download and a
    frame extraction that succeed, the clip returned is the downloaded
    file, at the path that [path.join] makes of the temporary directory
    and the fresh name, with the requested duration, and the client has
    made, in this order, one submission, [k] polls of the submitted
    operation with [k - 1] delays between them, one download and one
    frame extraction. *)
Theorem generateClip_happy_path (w : World) (params : VeoParams) (st : St)
  (k : nat) (token uri bucket object : string)
  (accepted : HttpResponse) (operation polled : VeoOperation) :
  getAccessToken w = Ok token ->
  submitReply w (submissions st) = Ok accepted ->
  ok accepted = true -> json accepted = Ok operation ->
  1 <= k -> k <= defaultMaxAttempts ->
  (forall j, 1 <= j -> j < k -> pending (pollReply w j)) ->
  reportsSuccess (pollReply w k) polled ->
  selectVideoUri polled = Ok uri ->
  parseGcsUri uri = Some (bucket, object) ->
  storageDownload w uri (join w (tmpDir w) (freshName w)) = Ok tt ->
  ffmpegExtract w (join w (tmpDir w) (freshName w)) = Ok tt ->
  let out := (join w (tmpDir w) (freshName w)) in
  let frame := replaceFirst ".mp4" "_last_frame.png" out in
  exists st',
    generateClip w params st
    = (Ok {| videoPath := out; lastFramePath := Some frame;
             result_duration := duration params |}, st')
    /\ trace st'
       = trace st
         ++ [Submit (requestUrl params) (requestBody params)]
         ++ pendingRounds w (name operation) (randomsDrawn st) 0 (k - 1)
         ++ [Poll (name operation) k;
             Download bucket object out;
             ExtractLastFrame out
               (max (of_nat 0) (sub (duration params) (Fin (4 # 100)))) frame]
    /\ submissions st' = S (submissions st).
Proof.
  intros Ht Hs Hok Hj H1 Hk Hp Hfin Huri Hparse Hdl Hff out frame.
  unfold generateClip, submitRequest, fetchSubmit, bindM, lift.
  rewrite Ht. cbv beta iota. rewrite Hs. cbv beta iota.
  rewrite Hok. cbn [negb]. cbv beta iota. rewrite Hj. cbv beta iota.
  match goal with |- context [pollOperation w ?n ?t ?m ?s] =>
    destruct (pollOperation_first_finished w n t m k polled s H1 Hk Hp Hfin)
      as [st2 [E [T [R Sb]]]]
  end.
  rewrite E. cbn [trace randomsDrawn submissions] in T, R, Sb.
  unfold processResult, downloadFromGcs, extractLastFrame, bindM, lift, emit,
    mathRandom, ret, throw.
  rewrite Huri. cbv beta iota. rewrite Hparse. cbv beta iota.
  cbn [trace randomsDrawn submissions]. rewrite Hdl. cbv beta iota.
  rewrite Hff. cbv beta iota.
  eexists. split; [reflexivity|]. cbn [trace submissions].
  split; [|exact Sb].
  rewrite T. rewrite <- !app_assoc. reflexivity.
Qed.

Lemma generateClip_happy_path_witness :
  let out := join Samples.steadyService (tmpDir Samples.steadyService)
                   (freshName Samples.steadyService) in
  let frame := replaceFirst ".mp4" "_last_frame.png" out in
  exists st',
    generateClip Samples.steadyService Samples.clipRequest initial
    = (Ok {| videoPath := out; lastFramePath := Some frame;
             result_duration := duration Samples.clipRequest |}, st')
    /\ trace st'
       = trace initial
         ++ [Submit (requestUrl Samples.clipRequest)
                    (requestBody Samples.clipRequest)]
         ++ pendingRounds Samples.steadyService (name Samples.runningOperation)
              (randomsDrawn initial) 0 (3 - 1)
         ++ [Poll (name Samples.runningOperation) 3;
             Download "bucket" "output/clip.mp4" out;
             ExtractLastFrame out
               (max (of_nat 0) (sub (duration Samples.clipRequest) (Fin (4 # 100))))
               frame]
    /\ submissions st' = S (submissions initial).
Proof.
  apply (generateClip_happy_path Samples.steadyService Samples.clipRequest
           initial 3 "token" "gs://bucket/output/clip.mp4" "bucket"
           "output/clip.mp4"
           {| ok := true; status := 200; text := EmptyString;
              json := Ok Samples.runningOperation |}
           Samples.runningOperation Samples.finishedOperation).
  - reflexivity.
  - reflexivity.
  - reflexivity.
  - reflexivity.
  - lia.
  - unfold defaultMaxAttempts. lia.
  - intros j A B. assert (C : j = 1 \/ j = 2) by lia.
    destruct C as [-> | ->];
      (eexists; eexists; split; [reflexivity|]; split; [reflexivity|];
       split; [reflexivity|]; discriminate).
  - eexists. split; [reflexivity|]. repeat split; reflexivity.
  - reflexivity.
  - reflexivity.
  - reflexivity.
  - reflexivity.
Defined.

End VeoPolling.

Module VeoJob.
Import Js Veo VeoClient VeoFacts.
Local Open Scope list_scope.

Lemma pollLoop_only_polls (w : World) (operationName token : string)
  (maxAttempts : nat) : forall (fuel attempts : nat) (st st' : St) outcome,
  pollLoop w operationName token maxAttempts fuel attempts st
  = Some (outcome, st') ->
  submissions st' = submissions st
  /\ exists new,
       trace st' = trace st ++ new
       /\ forallb quiet new = true
       /\ pollCount new + attempts <= Nat.max maxAttempts attempts
       /\ (forall operation, outcome = Ok operation -> 1 <= pollCount new).
Proof.
  induction fuel as [|fuel IH]; intros attempts st st' outcome H; simpl in H.
  - destruct (Nat.ltb_spec attempts maxAttempts); [discriminate|].
    injection H as <- <-. split; [reflexivity|]. exists [].
    rewrite app_nil_r. repeat split; simpl; try lia. discriminate.
  - destruct (Nat.ltb_spec attempts maxAttempts) as [Hlt|Hge].
    + destruct (pollOnce w operationName token (S attempts) st)
        as [r st1] eqn:P.
      apply pollOnce_outcome in P as [S1 [[-> [_ [T1 R1]]] | [Hr [T1 R1]]]].
      * apply IH in H as [S2 [new [T2 [Q2 [C2 O2]]]]].
        split; [congruence|].
        exists ([Poll operationName (S attempts);
                 Sleep (backoff (S attempts) (random w (randomsDrawn st)))]
                ++ new).
        rewrite T2, T1, <- app_assoc.
        split; [reflexivity|].
        unfold pollCount in *. cbn [app filter isPoll forallb quiet isSleep List.length].
        split; [exact Q2|]. split; [lia|].
        intros operation E. specialize (O2 operation E). lia.
      * assert (E : st' = st1).
        { destruct r as [[operation|]|e]; [| congruence |];
            injection H as <- <-; auto. }
        subst st'. split; [exact S1|].
        exists [Poll operationName (S attempts)].
        split; [exact T1|]. unfold pollCount. simpl.
        repeat split; try lia.
    + injection H as <- <-. split; [reflexivity|]. exists [].
      rewrite app_nil_r. repeat split; simpl; try lia. discriminate.
Qed.

Lemma quiet_counts (new : list Event) :
  forallb quiet new = true ->
  submitCount new = 0 /\ downloadCount new = 0 /\ extractCount new = 0.
Proof.
  unfold submitCount, downloadCount, extractCount.
  induction new as [|e new IH]; intros H; [repeat split; reflexivity|].
  simpl in H. apply andb_prop in H as [Q H]. destruct (IH H) as [A [B C]].
  destruct e; try discriminate; simpl; repeat split; assumption.
Qed.

(** What [processResult] does to the outside. *)
Lemma processResult_effects (w : World) (operation : VeoOperation)
  (params : VeoParams) (st : St) :
  exists new,
    trace (snd (processResult w operation params st)) = trace st ++ new
    /\ submitCount new = 0 /\ pollCount new = 0
    /\ downloadCount new <= 1 /\ extractCount new <= 1
    /\ (forall clip, fst (processResult w operation params st) = Ok clip ->
        downloadCount new = 1 /\ extractCount new = 1
        /\ result_duration clip = duration params
        /\ videoPath clip = (join w (tmpDir w) (freshName w))).
Proof.
  unfold processResult, downloadFromGcs, extractLastFrame, bindM, lift, emit,
    mathRandom, ret, throw.
  destruct (selectVideoUri operation) as [uri|e];
    [destruct (parseGcsUri uri) as [[bucket object]|];
     [destruct (storageDownload w uri (join w (tmpDir w) (freshName w)));
      [destruct (ffmpegExtract w (join w (tmpDir w) (freshName w)))|]|]|];
    cbn [fst snd trace]; rewrite <- ?app_assoc;
    first [ eexists; split; [reflexivity|]
          | exists []; rewrite app_nil_r; split; [reflexivity|] ];
    unfold submitCount, pollCount, downloadCount, extractCount;
    cbn [app filter isSubmit isPoll isDownload isExtractLastFrame List.length];
    (split; [reflexivity|]); (split; [reflexivity|]);
    (split; [lia|]); (split; [lia|]);
    intros clip H; try discriminate.
  injection H as <-. repeat split; reflexivity.
Qed.


Lemma counts_app (a b : list Event) :
  submitCount (a ++ b) = submitCount a + submitCount b
  /\ pollCount (a ++ b) = pollCount a + pollCount b
  /\ downloadCount (a ++ b) = downloadCount a + downloadCount b
  /\ extractCount (a ++ b) = extractCount a + extractCount b.
Proof.
  unfold submitCount, pollCount, downloadCount, extractCount.
  rewrite !filter_app, !length_app. repeat split; reflexivity.
Qed.

Ltac nothing_more :=
  (split; [cbv; lia|]); (split; [cbv; lia|]);
  (split; [cbv; lia|]); (split; [cbv; lia|]);
  let clip := fresh "clip" in let H := fresh "H" in
  intros clip H; discriminate.

(** X11.  Whatever the service answers, one call of [generateClip]
    makes at most one submission, at most [defaultMaxAttempts] polls, at
    most one download and at most one frame extraction; when it returns
    a clip it has made exactly one submission, at least one poll, one
    download and one extraction, and the clip carries the requested
    duration. *)
Theorem generateClip_runs_one_job_at_most (w : World) (params : VeoParams)
  (st : St) :
  exists new,
    trace (snd (generateClip w params st)) = trace st ++ new
    /\ submitCount new <= 1
    /\ pollCount new <= defaultMaxAttempts
    /\ downloadCount new <= 1
    /\ extractCount new <= 1
    /\ (forall clip, fst (generateClip w params st) = Ok clip ->
        submitCount new = 1 /\ 1 <= pollCount new
        /\ downloadCount new = 1 /\ extractCount new = 1
        /\ result_duration clip = duration params).
Proof.
  unfold generateClip, submitRequest, fetchSubmit, bindM, lift, throw.
  destruct (getAccessToken w) as [token|e]; cbv beta iota.
  2: { exists []. rewrite app_nil_r. cbn [fst snd].
       split; [reflexivity|]. nothing_more. }
  destruct (submitReply w (submissions st)) as [resp|e]; cbv beta iota.
  2: { eexists. cbn [fst snd trace]. split; [reflexivity|].
       nothing_more. }
  destruct (negb (ok resp)); cbv beta iota.
  { eexists. cbn [fst snd trace]. split; [reflexivity|].
    nothing_more. }
  destruct (json resp) as [operation|e]; cbv beta iota.
  2: { eexists. cbn [fst snd trace]. split; [reflexivity|].
       nothing_more. }
  match goal with |- context [pollOperation w ?n ?t ?m ?s] =>
    set (st1 := s);
    assert (P : submissions (snd (pollOperation w n t m st1)) = submissions st1
                /\ exists polls,
                     trace (snd (pollOperation w n t m st1)) = trace st1 ++ polls
                     /\ forallb quiet polls = true
                     /\ pollCount polls <= m
                     /\ (forall polled,
                           fst (pollOperation w n t m st1) = Ok polled ->
                           1 <= pollCount polls));
    [|destruct (pollOperation w n t m st1) as [[polled|e] st2]]
  end.
  { unfold pollOperation.
    destruct (pollLoop w (name operation) token defaultMaxAttempts
                defaultMaxAttempts 0 st1) as [[outcome st2]|] eqn:L.
    - apply pollLoop_only_polls in L as [S2 [polls [T2 [Q2 [C2 O2]]]]].
      cbn [fst snd]. split; [exact S2|]. exists polls.
      split; [exact T2|]. split; [exact Q2|]. split; [lia|exact O2].
    - cbn [fst snd]. split; [reflexivity|]. exists []. rewrite app_nil_r.
      split; [reflexivity|]. split; [reflexivity|].
      split; [cbv; lia|]. intros polled H. discriminate. }
  - cbn [fst snd] in P. destruct P as [_ [polls [T2 [Q2 [C2 O2]]]]].
    destruct (quiet_counts polls Q2) as [Z1 [Z2 Z3]].
    destruct (processResult_effects w polled params st2)
      as [fin [T3 [F1 [F2 [F3 [F4 F5]]]]]].
    exists ([Submit (requestUrl params) (requestBody params)] ++ polls ++ fin).
    split.
    { rewrite T3, T2. unfold st1. cbn [trace]. rewrite <- !app_assoc. reflexivity. }
    destruct (counts_app [Submit (requestUrl params) (requestBody params)]
                (polls ++ fin)) as [A1 [A2 [A3 A4]]].
    destruct (counts_app polls fin) as [B1 [B2 [B3 B4]]].
    rewrite A1, A2, A3, A4, B1, B2, B3, B4, Z1, Z2, Z3, F1, F2.
    change (submitCount [Submit (requestUrl params) (requestBody params)]) with 1.
    change (pollCount [Submit (requestUrl params) (requestBody params)]) with 0.
    change (downloadCount [Submit (requestUrl params) (requestBody params)]) with 0.
    change (extractCount [Submit (requestUrl params) (requestBody params)]) with 0.
    split; [lia|]. split; [lia|]. split; [lia|]. split; [lia|].
    intros clip H. destruct (F5 clip H) as [G1 [G2 [G3 _]]].
    specialize (O2 polled eq_refl). repeat split; try lia. exact G3.
  - cbn [fst snd] in P |- *. destruct P as [_ [polls [T2 [Q2 [C2 O2]]]]].
    destruct (quiet_counts polls Q2) as [Z1 [Z2 Z3]].
    exists ([Submit (requestUrl params) (requestBody params)] ++ polls).
    split.
    { rewrite T2. unfold st1. cbn [trace]. rewrite <- !app_assoc. reflexivity. }
    destruct (counts_app [Submit (requestUrl params) (requestBody params)] polls)
      as [A1 [A2 [A3 A4]]].
    rewrite A1, A2, A3, A4, Z1, Z2, Z3.
    change (submitCount [Submit (requestUrl params) (requestBody params)]) with 1.
    change (pollCount [Submit (requestUrl params) (requestBody params)]) with 0.
    change (downloadCount [Submit (requestUrl params) (requestBody params)]) with 0.
    change (extractCount [Submit (requestUrl params) (requestBody params)]) with 0.
    split; [lia|]. split; [lia|]. split; [lia|]. split; [lia|].
    intros clip H. discriminate.
Qed.

End VeoJob.

Module VeoStorage.
Import Js Veo VeoClient VeoFacts.

Lemma substring_all (s : string) : substring 0 (String.length s) s = s.
Proof. induction s as [|c s IH]; [reflexivity|]. simpl. rewrite IH. reflexivity. Qed.

Lemma prefix_gs (uri : string) :
  String.prefix "gs://" uri = true ->
  uri = "gs://" ++ substring 5 (String.length uri - 5) uri.
Proof.
  intros P.
  do 5 (destruct uri as [|? uri]; [discriminate|]; cbn [String.prefix] in P;
        match type of P with
        | context [ascii_dec ?a ?b] => destruct (ascii_dec a b); [subst|discriminate]
        end).
  simpl. rewrite Nat.sub_0_r, substring_all. reflexivity.
Qed.

Lemma splitAtSlash_sound (s : string) : forall b o,
  splitAtSlash s = Some (b, o) -> s = b ++ "/" ++ o /\ noSlash b = true.
Proof.
  induction s as [|c s IH]; intros b o H; [discriminate|].
  simpl in H. destruct (isSlash c) eqn:E.
  - injection H as <- <-. unfold isSlash in E. apply Ascii.eqb_eq in E. subst.
    split; reflexivity.
  - destruct (splitAtSlash s) as [[b' o']|]; [|discriminate].
    injection H as <- <-. destruct (IH b' o' eq_refl) as [-> N].
    split; [reflexivity|]. simpl. rewrite E, N. reflexivity.
Qed.

Lemma splitAtSlash_complete (b o : string) :
  noSlash b = true -> splitAtSlash (b ++ String "/"%char o) = Some (b, o).
Proof.
  induction b as [|c b IH]; intros N; [reflexivity|].
  cbn [noSlash] in N. apply andb_prop in N as [C N].
  cbn [append splitAtSlash].
  destruct (isSlash c); [discriminate|]. rewrite (IH N). reflexivity.
Qed.

Lemma parseGcsUri_sound (uri bucket object : string) :
  parseGcsUri uri = Some (bucket, object) ->
  uri = "gs://" ++ bucket ++ "/" ++ object
  /\ nonEmpty bucket = true /\ noSlash bucket = true
  /\ nonEmpty object = true /\ noLineTerminator object = true.
Proof.
  unfold parseGcsUri. destruct (String.prefix "gs://" uri) eqn:P; [|discriminate].
  destruct (splitAtSlash (substring 5 (String.length uri - 5) uri))
    as [[b o]|] eqn:Sp; [|discriminate].
  destruct (nonEmpty b) eqn:Nb; [|discriminate].
  destruct (nonEmpty o) eqn:No; [|discriminate].
  destruct (noLineTerminator o) eqn:Nl; [|discriminate].
  intros H. injection H as <- <-.
  destruct (splitAtSlash_sound _ _ _ Sp) as [E N].
  split; [rewrite (prefix_gs uri P) at 1; rewrite E; reflexivity|].
  repeat split; assumption.
Qed.

Lemma prefix_append (p s : string) : String.prefix p (p ++ s) = true.
Proof.
  induction p as [|c p IH]; [destruct s; reflexivity|].
  cbn [append String.prefix]. destruct (ascii_dec c c); [exact IH|congruence].
Qed.

Lemma parseGcsUri_complete (bucket object : string) :
  nonEmpty bucket = true -> noSlash bucket = true ->
  nonEmpty object = true -> noLineTerminator object = true ->
  parseGcsUri ("gs://" ++ bucket ++ "/" ++ object) = Some (bucket, object).
Proof.
  intros Nb Ns No Nl. unfold parseGcsUri.
  rewrite prefix_append.
  change (substring 5 (String.length ("gs://" ++ bucket ++ "/" ++ object) - 5)
            ("gs://" ++ bucket ++ "/" ++ object))
    with (substring 0 (String.length (bucket ++ "/" ++ object) - 0)
            (bucket ++ "/" ++ object)).
  rewrite Nat.sub_0_r, substring_all.
  change (bucket ++ "/" ++ object) with (bucket ++ String "/"%char object).
  rewrite (splitAtSlash_complete _ _ Ns).
  rewrite Nb, No, Nl. reflexivity.
Qed.

(** A line separator in the object path makes the URI invalid. *)
Example line_separator_is_refused :
  parseGcsUri ("gs://bucket/clip" ++ lineSeparator ++ ".mp4") = None
  /\ parseGcsUri ("gs://bucket/clip" ++ paragraphSeparator ++ ".mp4") = None
  /\ parseGcsUri ("gs://bucket/clip" ++ String "010"%char ".mp4") = None
  /\ parseGcsUri ("gs://buc" ++ lineSeparator ++ "ket/clip.mp4")
     = Some ("buc" ++ lineSeparator ++ "ket", "clip.mp4").
Proof. repeat split. Qed.

(** X13.  [parseGcsUri] accepts exactly the texts [gs://bucket/object]
    with a non-empty bucket free of slashes and a non-empty object
    free of line terminators, and returns these two parts.  (The line
    terminators are LF, CR, U+2028 and U+2029, the characters the dot
    of the pattern does not match.) *)
Theorem parseGcsUri_accepts_exactly_bucket_and_object (uri bucket object : string) :
  parseGcsUri uri = Some (bucket, object)
  <-> (uri = "gs://" ++ bucket ++ "/" ++ object
       /\ nonEmpty bucket = true /\ noSlash bucket = true
       /\ nonEmpty object = true /\ noLineTerminator object = true).
Proof.
  split.
  - apply parseGcsUri_sound.
  - intros [-> [Nb [Ns [No Nl]]]]. apply parseGcsUri_complete; assumption.
Qed.

(** X14.  The URI returned by a successful [uploadToGcs] is
    [gs://bucket/gcsPath] for the bucket of the call or, failing that,
    of the configuration.  [parseGcsUri] reads the same bucket and path
    back from it when the bucket has no slash and the path is non-empty
    and free of line terminators (LF, CR, U+2028, U+2029); with a slash
    in the bucket it never does. *)
Theorem uploaded_uri_parses_back (configBucket : option string)
  (storage : Storage) (localPath gcsPath : string) (bucketName : option string)
  (uri : string) :
  uploadToGcs configBucket storage localPath gcsPath bucketName = Ok uri ->
  exists bucket,
    chosenBucket configBucket bucketName = Some bucket
    /\ nonEmpty bucket = true
    /\ uri = "gs://" ++ bucket ++ "/" ++ gcsPath
    /\ (noSlash bucket = true -> nonEmpty gcsPath = true ->
        noLineTerminator gcsPath = true ->
        parseGcsUri uri = Some (bucket, gcsPath))
    /\ (noSlash bucket = false -> parseGcsUri uri <> Some (bucket, gcsPath)).
Proof.
  unfold uploadToGcs.
  destruct (chosenBucket configBucket bucketName) as [bucket|] eqn:C;
    [|discriminate].
  destruct (readFile storage localPath) as [content|e]; [|discriminate].
  cbn [bind]. destruct (save storage bucket gcsPath content); [|discriminate].
  cbn [bind]. intros H. injection H as <-.
  exists bucket. split; [reflexivity|]. split.
  { unfold chosenBucket, truthyString in C.
    destruct bucketName as [b|]; [destruct (nonEmpty b) eqn:Nb|].
    - injection C as <-. exact Nb.
    - destruct configBucket as [c|]; [|discriminate].
      destruct (nonEmpty c) eqn:Nc; [|discriminate]. injection C as <-. exact Nc.
    - destruct configBucket as [c|]; [|discriminate].
      destruct (nonEmpty c) eqn:Nc; [|discriminate]. injection C as <-. exact Nc. }
  split; [reflexivity|]. split.
  - intros Ns No Nl. apply parseGcsUri_complete; try assumption.
    unfold chosenBucket, truthyString in C.
    destruct bucketName as [b|]; [destruct (nonEmpty b) eqn:Nb|].
    + injection C as <-. exact Nb.
    + destruct configBucket as [c|]; [|discriminate].
      destruct (nonEmpty c) eqn:Nc; [|discriminate]. injection C as <-. exact Nc.
    + destruct configBucket as [c|]; [|discriminate].
      destruct (nonEmpty c) eqn:Nc; [|discriminate]. injection C as <-. exact Nc.
  - intros Ns P. apply parseGcsUri_sound in P as [_ [_ [N _]]]. congruence.
Qed.

Lemma uploaded_uri_parses_back_witness :
  exists bucket,
    chosenBucket (Some "tours") None = Some bucket
    /\ nonEmpty bucket = true
    /\ "gs://tours/inputs/1_front.jpg" = "gs://" ++ bucket ++ "/" ++ "inputs/1_front.jpg"
    /\ (noSlash bucket = true -> nonEmpty "inputs/1_front.jpg" = true ->
        noLineTerminator "inputs/1_front.jpg" = true ->
        parseGcsUri "gs://tours/inputs/1_front.jpg"
        = Some (bucket, "inputs/1_front.jpg"))
    /\ (noSlash bucket = false ->
        parseGcsUri "gs://tours/inputs/1_front.jpg"
        <> Some (bucket, "inputs/1_front.jpg")).
Proof.
  apply (uploaded_uri_parses_back (Some "tours") Samples.openStorage
           "front.jpg" "inputs/1_front.jpg" None "gs://tours/inputs/1_front.jpg").
  reflexivity.
Defined.

End VeoStorage.

Module VeoRetry.
Import Js Veo VeoClient VeoFacts.
Local Open Scope list_scope.

Lemma sleeps_app (a b : list Event) : sleeps (a ++ b) = sleeps a ++ sleeps b.
Proof.
  induction a as [|e a IH]; [reflexivity|].
  destruct e; simpl; rewrite IH; reflexivity.
Qed.

Lemma submitRequest_state (w : World) (params : VeoParams) (st : St) :
  snd (submitRequest w params st)
  = {| randomsDrawn := randomsDrawn st;
       submissions := S (submissions st);
       trace := trace st ++ [Submit (requestUrl params) (requestBody params)] |}.
Proof.
  unfold submitRequest, fetchSubmit, bindM, lift, throw.
  destruct (submitReply w (submissions st)) as [resp|e]; [|reflexivity].
  destruct (negb (ok resp)); reflexivity.
Qed.

Lemma submitRequest_result (w : World) (params : VeoParams) (st st0 : St) :
  submissions st = submissions st0 ->
  fst (submitRequest w params st) = fst (submitRequest w params st0).
Proof.
  intros E. unfold submitRequest, fetchSubmit, bindM, lift, throw. rewrite E.
  destruct (submitReply w (submissions st0)) as [resp|e]; [|reflexivity].
  destruct (negb (ok resp)); reflexivity.
Qed.

(** The attempts that fail with a retryable error before the last
    allowed one. *)
Lemma retryLoop_fails_through (w : World) (params : VeoParams)
  (maxRetries : nat) (base : number) :
  forall (j attempt fuel : nat) (lastError : option exn) (st : St),
  attempt + j <= maxRetries -> j <= fuel ->
  (forall k, submissions st <= k -> k < submissions st + j ->
             failsRetryably w params k) ->
  exists st_j last,
    retryLoop w (submitRequest w params) maxRetries base fuel attempt lastError st
    = retryLoop w (submitRequest w params) maxRetries base (fuel - j)
        (attempt + j) last st_j
    /\ submissions st_j = submissions st + j
    /\ randomsDrawn st_j = randomsDrawn st + j
    /\ sleeps (trace st_j)
       = sleeps (trace st)
         ++ map (fun i => retryDelay base (attempt + i)
                            (Fin (random w (randomsDrawn st + i)))) (seq 0 j)
    /\ (j = 0 -> last = lastError /\ st_j = st).
Proof.
  induction j as [|j IH]; intros attempt fuel lastError st Hle Hfuel Hf.
  - exists st, lastError. rewrite Nat.sub_0_r, !Nat.add_0_r. cbn [seq map].
    rewrite app_nil_r. repeat split; reflexivity.
  - destruct fuel as [|fuel]; [lia|]. cbn [retryLoop].
    destruct (Nat.leb_spec attempt maxRetries); [|lia].
    destruct (Hf (submissions st) ltac:(lia) ltac:(lia) st eq_refl) as [e [E N]].
    pose proof (submitRequest_state w params st) as S1.
    destruct (submitRequest w params st) as [r st1]. cbn [fst snd] in E, S1.
    subst r. rewrite N.
    destruct (Nat.ltb_spec attempt maxRetries); [|lia].
    unfold bindM at 1, mathRandom at 1, delay at 1, emit at 1.
    cbv beta iota.
    match goal with |- context [retryLoop _ _ _ _ fuel (S attempt) (Some e) ?s] =>
      set (st2 := s)
    end.
    destruct (IH (S attempt) fuel (Some e) st2) as [st_j [last [L [Sb [R [Z _]]]]]].
    + lia.
    + lia.
    + intros k A B. apply Hf; unfold st2 in *; rewrite S1 in *;
        cbn [submissions] in *; lia.
    + exists st_j, last. rewrite L.
      replace (S fuel - S j) with (fuel - j) by lia.
      replace (attempt + S j) with (S attempt + j) by lia.
      split; [reflexivity|].
      unfold st2 in Sb, R, Z. rewrite S1 in Sb, R, Z.
      cbn [submissions randomsDrawn trace] in Sb, R, Z.
      split; [lia|]. split; [lia|]. split; [|intros; lia].
      rewrite Z, !sleeps_app. cbn [sleeps]. rewrite <- !app_assoc.
      cbn [app seq map]. rewrite !Nat.add_0_r. f_equal. f_equal.
      rewrite <- seq_shift, map_map. apply map_ext. intros i.
      rewrite !Nat.add_succ_r. reflexivity.
Qed.

(** X15.  When each of the [maxRetries] submissions fails with a
    retryable error, [withRetry] makes exactly [maxRetries] submissions,
    sleeps [maxRetries - 1] times, the [i]-th time for
    [base * 2^(i-1)] plus the jitter, and rethrows the error of the
    last submission.  With [maxRetries = 0] it throws [undefined]
    without running the operation. *)
Theorem withRetry_gives_up_after_maxRetries (w : World) (params : VeoParams)
  (base : number) (maxRetries : nat) (st : St) :
  (forall k, submissions st <= k -> k < submissions st + maxRetries ->
             failsRetryably w params k) ->
  exists e st',
    withRetry w (submitRequest w params) maxRetries base st = (Throw e, st')
    /\ submissions st' = submissions st + maxRetries
    /\ sleeps (trace st')
       = sleeps (trace st) ++ retryDelays w base (randomsDrawn st) (maxRetries - 1)
    /\ (maxRetries = 0 -> e = Undefined /\ st' = st)
    /\ (0 < maxRetries ->
        nonRetryable e = false
        /\ forall last, submissions last = submissions st + maxRetries - 1 ->
                        fst (submitRequest w params last) = Throw e).
Proof.
  intros Hf. unfold withRetry. destruct maxRetries as [|n].
  - cbn [retryLoop Nat.leb]. exists Undefined, st.
    split; [reflexivity|]. split; [lia|]. split.
    + unfold retryDelays. cbn [seq map]. rewrite app_nil_r. reflexivity.
    + split; [intros _; split; reflexivity|intros H; lia].
  - destruct (retryLoop_fails_through w params (S n) base n 1 (S n) None st)
      as [st_j [last [L [Sb [R [Z _]]]]]]; [lia|lia| |].
    { intros k A B. apply Hf; lia. }
    rewrite L. replace (S n - n) with 1 by lia. replace (1 + n) with (S n) by lia.
    cbn [retryLoop]. rewrite Nat.leb_refl.
    destruct (Hf (submissions st_j) ltac:(lia) ltac:(lia) st_j eq_refl) as [e [E N]].
    pose proof (submitRequest_state w params st_j) as S1.
    pose proof (submitRequest_result w params) as Res.
    destruct (submitRequest w params st_j) as [r st1] eqn:Run.
    cbn [fst snd] in E, S1. subst r. rewrite N.
    replace (S n <? S n)%nat with false by (symmetry; apply Nat.ltb_irrefl).
    replace (S (S n) <=? S n)%nat with false by (symmetry; apply Nat.leb_gt; lia).
    exists e, st1. split; [reflexivity|]. rewrite S1.
    cbn [submissions trace]. split; [lia|]. split.
    + rewrite sleeps_app, Z. cbn [sleeps]. rewrite app_nil_r.
      replace (S n - 1) with n by lia. unfold retryDelays. f_equal.
    + split; [intros H; discriminate|]. intros _. split; [exact N|].
      intros st0 H0. rewrite (Res st0 st_j) by lia. rewrite Run. reflexivity.
Qed.


Lemma withRetry_gives_up_after_maxRetries_witness :
  exists e st',
    withRetry Samples.downService
      (submitRequest Samples.downService Samples.clipRequest)
      defaultMaxRetries defaultBaseDelay initial = (Throw e, st')
    /\ submissions st' = submissions initial + defaultMaxRetries
    /\ sleeps (trace st')
       = sleeps (trace initial)
         ++ retryDelays Samples.downService defaultBaseDelay
              (randomsDrawn initial) (defaultMaxRetries - 1)
    /\ (defaultMaxRetries = 0 -> e = Undefined /\ st' = initial)
    /\ (0 < defaultMaxRetries ->
        nonRetryable e = false
        /\ forall last,
             submissions last = submissions initial + defaultMaxRetries - 1 ->
             fst (submitRequest Samples.downService Samples.clipRequest last)
             = Throw e).
Proof.
  apply (withRetry_gives_up_after_maxRetries Samples.downService
           Samples.clipRequest defaultBaseDelay defaultMaxRetries initial).
  intros k _ _ st _. eexists. split; reflexivity.
Defined.

(** X16.  [withRetry] ends at the first attempt that succeeds or fails
    with an error it does not retry: after [j] retryable failures,
    [j < maxRetries], the outcome of attempt [j + 1] is returned as it
    is, after [j + 1] submissions and [j] delays. *)
Theorem withRetry_ends_at_the_first_settled_attempt (w : World)
  (params : VeoParams) (base : number) (maxRetries j : nat) (st : St)
  (r : result VeoOperation) :
  j < maxRetries ->
  (forall k, submissions st <= k -> k < submissions st + j ->
             failsRetryably w params k) ->
  (forall st_j, submissions st_j = submissions st + j ->
                fst (submitRequest w params st_j) = r) ->
  settled r ->
  exists st',
    withRetry w (submitRequest w params) maxRetries base st = (r, st')
    /\ submissions st' = submissions st + S j
    /\ sleeps (trace st')
       = sleeps (trace st) ++ retryDelays w base (randomsDrawn st) j.
Proof.
  intros Hj Hf Hr Hs. unfold withRetry.
  destruct (retryLoop_fails_through w params maxRetries base j 1 maxRetries None st)
    as [st_j [last [L [Sb [R [Z _]]]]]]; [lia|lia|exact Hf|].
  rewrite L. destruct (maxRetries - j) as [|fuel] eqn:F; [lia|].
  cbn [retryLoop]. destruct (Nat.leb_spec (1 + j) maxRetries); [|lia].
  pose proof (submitRequest_state w params st_j) as S1.
  specialize (Hr st_j Sb).
  destruct (submitRequest w params st_j) as [r' st1]. cbn [fst snd] in Hr, S1.
  subst r'.
  assert (T : submissions st1 = submissions st + S j
              /\ sleeps (trace st1)
                 = sleeps (trace st) ++ retryDelays w base (randomsDrawn st) j).
  { rewrite S1. cbn [submissions trace]. split; [lia|].
    rewrite sleeps_app, Z. cbn [sleeps]. rewrite app_nil_r. reflexivity. }
  destruct r as [v|e].
  - exists st1. split; [reflexivity|exact T].
  - simpl in Hs. rewrite Hs. exists st1. split; [reflexivity|exact T].
Qed.

Lemma withRetry_ends_at_the_first_settled_attempt_witness :
  exists st',
    withRetry Samples.flakyService
      (submitRequest Samples.flakyService Samples.clipRequest)
      defaultMaxRetries defaultBaseDelay initial
    = (Ok Samples.runningOperation, st')
    /\ submissions st' = submissions initial + 2
    /\ sleeps (trace st')
       = sleeps (trace initial)
         ++ retryDelays Samples.flakyService defaultBaseDelay
              (randomsDrawn initial) 1.
Proof.
  apply (withRetry_ends_at_the_first_settled_attempt Samples.flakyService
           Samples.clipRequest defaultBaseDelay defaultMaxRetries 1 initial
           (Ok Samples.runningOperation)).
  - unfold defaultMaxRetries. lia.
  - intros k A B st E. assert (K : submissions st = 0) by (simpl in *; lia).
    unfold submitRequest, fetchSubmit, bindM, lift, throw. rewrite K.
    eexists. split; reflexivity.
  - intros st_j E. simpl in E.
    unfold submitRequest, fetchSubmit, bindM, lift, throw. rewrite E. reflexivity.
  - exact I.
Defined.

End VeoRetry.

Module KenBurnsBatch.
Import Js Fx KenBurns.
Local Open Scope list_scope.

(** X17.  The motion settings of a Ken Burns request never reach
    ffmpeg: [generateKenBurns] does the same with any zoom and pan
    direction as with none, [generateOptimizedForRoom] is
    [generateKenBurns] on the same image, output, duration and size
    whatever the room, and the filter of a valid request is the scale
    and pad of the frame size and nothing else. *)
Theorem motion_settings_never_reach_ffmpeg (w : World) (options : Options) :
  (forall params zoom pan,
     generateKenBurns w options (withMotion params zoom pan)
     = generateKenBurns w options (withMotion params None None))
  /\ (forall image out d wd ht room,
        generateOptimizedForRoom w options image out d wd ht room
        = generateKenBurns w options
            {| imagePath := image; outputPath := out; duration := d;
               width := wd; height := ht;
               zoomDirection := None; panDirection := None |})
  /\ (forall params filter,
        buildFilter w options params = Ok filter ->
        filter = ("scale=" ++ numberToString w (width params) ++ ":"
                  ++ numberToString w (height params)
                  ++ ":force_original_aspect_ratio=decrease,"
                  ++ "pad=" ++ numberToString w (width params) ++ ":"
                  ++ numberToString w (height params)
                  ++ ":(ow-iw)/2:(oh-ih)/2")%string).
Proof.
  split; [reflexivity|]. split.
  - intros image out d wd ht room. reflexivity.
  - intros params filter. unfold buildFilter.
    destruct (invalid (duration params)); [discriminate|].
    destruct (invalid (width params) || invalid (height params)); [discriminate|].
    destruct (invalid (fps options)); [discriminate|].
    intros H. injection H as <-. reflexivity.
Qed.

Lemma generateKenBurns_returns_outputPath (w : World) (options : Options)
  (params : KenBurnsParams) (out : string) :
  fst (generateKenBurns w options params) = Ok out -> out = outputPath params.
Proof.
  unfold generateKenBurns, raise, act, andThen.
  destruct (negb (existsSync w (imagePath params))); [discriminate|].
  destruct (mkdir w (dirname w (outputPath params))); [|discriminate].
  destruct (buildFilter w options params) as [filter|e]; [|discriminate].
  cbn [app]. destruct (run w (renderCommand w options params filter));
    cbn [fst]; [|discriminate].
  intros H. injection H as <-. reflexivity.
Qed.

Lemma generateBatchFrom_all_render (w : nat -> World) (options : Options) :
  forall (l : list KenBurnsParams) (i : nat),
  (forall k params, nth_error l k = Some params -> renders w options (i + k) params) ->
  fst (generateBatchFrom w options i l) = Ok (map outputPath l).
Proof.
  induction l as [|p l IH]; intros i H; [reflexivity|].
  cbn [generateBatchFrom].
  destruct (H 0 p eq_refl) as [out E]. rewrite Nat.add_0_r in E.
  pose proof (generateKenBurns_returns_outputPath (w i) options p out E) as ->.
  destruct (generateKenBurns (w i) options p) as [r t]. cbn [fst] in E. subst r.
  specialize (IH (S i)).
  destruct (generateBatchFrom w options (S i) l) as [r' t']. cbn [fst] in *.
  rewrite IH; [reflexivity|].
  intros k q Hk. replace (S i + k) with (i + S k) by lia. apply H. exact Hk.
Qed.

Lemma generateBatchFrom_stops (w : nat -> World) (options : Options) :
  forall (before : list KenBurnsParams) (i : nat) (p : KenBurnsParams)
         (after : list KenBurnsParams) (e : exn),
  (forall k params, nth_error before k = Some params ->
                    renders w options (i + k) params) ->
  fst (generateKenBurns (w (i + List.length before)) options p) = Throw e ->
  generateBatchFrom w options i (before ++ p :: after)
  = (Throw (batchFailure p e),
     snd (generateBatchFrom w options i before)
     ++ snd (generateKenBurns (w (i + List.length before)) options p)).
Proof.
  induction before as [|q before IH]; intros i p after e H F.
  - cbn [app generateBatchFrom List.length pure snd] in *.
    rewrite Nat.add_0_r in F |- *.
    destruct (generateKenBurns (w i) options p) as [r t]. cbn [fst snd] in *.
    subst r. reflexivity.
  - cbn [app generateBatchFrom List.length].
    destruct (H 0 q eq_refl) as [out E]. rewrite Nat.add_0_r in E.
    destruct (generateKenBurns (w i) options q) as [r t]. cbn [fst] in E. subst r.
    rewrite (IH (S i) p after e).
    + destruct (generateBatchFrom w options (S i) before) as [r' t'].
      cbn [snd]. rewrite app_assoc.
      replace (S i + List.length before) with (i + S (List.length before)) by lia.
      reflexivity.
    + intros k params Hk. replace (S i + k) with (i + S k) by lia.
      apply H. exact Hk.
    + replace (S i + List.length before) with (i + S (List.length before)) by lia.
      exact F.
Qed.

(** X18.  [generateBatch] renders the requests in order and stops at
    the first one that fails: when all requests render it returns their
    output paths in order, and when the requests [before] render and the
    next one fails with [e], the batch fails with the message
    ["Failed to generate Ken Burns for <imagePath>: <e as a string>"],
    after the renders of [before] and the failed attempt and nothing
    more; the requests after it are not started.  For a request whose
    image does not exist the message ends in
    ["Error: Input image not found: <imagePath>"] and the failed
    attempt has done nothing. *)
Theorem generateBatch_stops_at_the_first_failure (w : nat -> World)
  (options : Options) (before : list KenBurnsParams) :
  (forall k params, nth_error before k = Some params -> renders w options k params) ->
  fst (generateBatch w options before) = Ok (map outputPath before)
  /\ (forall p after e,
        fst (generateKenBurns (w (List.length before)) options p) = Throw e ->
        generateBatch w options (before ++ p :: after)
        = (Throw (Error ("Failed to generate Ken Burns for " ++ imagePath p
                         ++ ": " ++ errorToString e)%string),
           snd (generateBatch w options before)
           ++ snd (generateKenBurns (w (List.length before)) options p)))
  /\ (forall p after,
        existsSync (w (List.length before)) (imagePath p) = false ->
        generateBatch w options (before ++ p :: after)
        = (Throw (Error ("Failed to generate Ken Burns for " ++ imagePath p
                         ++ ": Error: Input image not found: "
                         ++ imagePath p)%string),
           snd (generateBatch w options before))).
Proof.
  intros H.
  assert (Stop : forall p after e,
            fst (generateKenBurns (w (List.length before)) options p) = Throw e ->
            generateBatch w options (before ++ p :: after)
            = (Throw (batchFailure p e),
               snd (generateBatch w options before)
               ++ snd (generateKenBurns (w (List.length before)) options p))).
  { intros p after e F. unfold generateBatch.
    apply (generateBatchFrom_stops w options before 0 p after e); assumption. }
  split; [|split].
  - unfold generateBatch. apply generateBatchFrom_all_render. exact H.
  - intros p after e F. rewrite (Stop p after e F). reflexivity.
  - intros p after F.
    assert (G : generateKenBurns (w (List.length before)) options p
                = (Throw (imageNotFound p), [])).
    { unfold generateKenBurns, raise. rewrite F. reflexivity. }
    rewrite (Stop p after (imageNotFound p)) by (rewrite G; reflexivity).
    rewrite G. cbn [snd]. rewrite app_nil_r. reflexivity.
Qed.

Lemma generateBatch_stops_at_the_first_failure_witness :
  fst (generateBatch (fun _ => Samples.machine) Samples.kenBurnsDefaults
         [Samples.panZoom "front.jpg" (of_nat 4)])
  = Ok (map outputPath [Samples.panZoom "front.jpg" (of_nat 4)])
  /\ (forall p after e,
        fst (generateKenBurns Samples.machine Samples.kenBurnsDefaults p) = Throw e ->
        generateBatch (fun _ => Samples.machine) Samples.kenBurnsDefaults
          ([Samples.panZoom "front.jpg" (of_nat 4)] ++ p :: after)
        = (Throw (Error ("Failed to generate Ken Burns for " ++ imagePath p
                         ++ ": " ++ errorToString e)%string),
           snd (generateBatch (fun _ => Samples.machine) Samples.kenBurnsDefaults
                  [Samples.panZoom "front.jpg" (of_nat 4)])
           ++ snd (generateKenBurns Samples.machine Samples.kenBurnsDefaults p)))
  /\ (forall p after,
        existsSync Samples.machine (imagePath p) = false ->
        generateBatch (fun _ => Samples.machine) Samples.kenBurnsDefaults
          ([Samples.panZoom "front.jpg" (of_nat 4)] ++ p :: after)
        = (Throw (Error ("Failed to generate Ken Burns for " ++ imagePath p
                         ++ ": Error: Input image not found: "
                         ++ imagePath p)%string),
           snd (generateBatch (fun _ => Samples.machine) Samples.kenBurnsDefaults
                  [Samples.panZoom "front.jpg" (of_nat 4)]))).
Proof.
  apply (generateBatch_stops_at_the_first_failure (fun _ => Samples.machine)
           Samples.kenBurnsDefaults [Samples.panZoom "front.jpg" (of_nat 4)]).
  intros k params H. destruct k as [|[|k]]; simpl in H; try discriminate.
  injection H as <-. eexists. reflexivity.
Defined.

End KenBurnsBatch.

Module AssemblerRuns.
Import Js Fx Assembler.
Local Open Scope list_scope.

Lemma firstMissing_found (w : World) (before : list string) (f : string)
  (after : list string) :
  (forall x, In x before -> existsSync w x = true) ->
  existsSync w f = false ->
  firstMissing w (before ++ f :: after) = Some f.
Proof.
  induction before as [|x before IH]; intros H F.
  - simpl. rewrite F. reflexivity.
  - simpl. rewrite (H x (or_introl eq_refl)). apply IH; [|exact F].
    intros y Hy. apply H. right. exact Hy.
Qed.

Lemma firstMissing_none (w : World) (files : list string) :
  (forall x, In x files -> existsSync w x = true) -> firstMissing w files = None.
Proof.
  induction files as [|x files IH]; intros H; [reflexivity|].
  simpl. rewrite (H x (or_introl eq_refl)). apply IH.
  intros y Hy. apply H. right. exact Hy.
Qed.

(** X19.  A missing input stops the assembly before any ffmpeg
    process is started: [assembleVideo] throws for the first segment
    whose file is missing and, when all segments exist, for the first
    audio track whose file is missing, having only created the output
    directory; nothing is cleaned up in that case. *)
Theorem missing_input_stops_the_assembly (w : World) (options : Options)
  (params : AssemblyParams) :
  mkdir w (dirname w (outputPath params)) = Ok tt ->
  (forall before s after,
     segments params = before ++ s :: after ->
     (forall x, In x before -> existsSync w (segment_path x) = true) ->
     existsSync w (segment_path s) = false ->
     assembleVideo w options params
     = (Throw (Error ("Video segment not found: " ++ segment_path s)),
        [Mkdir (dirname w (outputPath params))]))
  /\ (forall before t after,
        (forall x, In x (segments params) -> existsSync w (segment_path x) = true) ->
        audioTracks params = before ++ t :: after ->
        (forall x, In x before -> existsSync w (path x) = true) ->
        existsSync w (path t) = false ->
        assembleVideo w options params
        = (Throw (Error ("Audio track not found: " ++ path t)),
           [Mkdir (dirname w (outputPath params))])).
Proof.
  intros M. split.
  - intros before s after E H F.
    unfold assembleVideo, validateInputs, act, andThen, raise. rewrite M, E.
    rewrite map_app. cbn [map].
    rewrite firstMissing_found; [reflexivity| |exact F].
    intros x Hx. apply in_map_iff in Hx as [y [<- Hy]]. apply H. exact Hy.
  - intros before t after Hs E H F.
    unfold assembleVideo, validateInputs, act, andThen, raise. rewrite M.
    rewrite firstMissing_none.
    + rewrite E, map_app. cbn [map].
      rewrite firstMissing_found; [reflexivity| |exact F].
      intros x Hx. apply in_map_iff in Hx as [y [<- Hy]]. apply H. exact Hy.
    + intros x Hx. apply in_map_iff in Hx as [y [<- Hy]]. apply Hs. exact Hy.
Qed.


Lemma missing_input_stops_the_assembly_witness :
  (forall before s after,
     segments (Samples.assembly [Samples.clip "a.mp4"; Samples.clip "missing.jpg"] [])
     = before ++ s :: after ->
     (forall x, In x before -> existsSync Samples.machine (segment_path x) = true) ->
     existsSync Samples.machine (segment_path s) = false ->
     assembleVideo Samples.machine Samples.assemblerDefaults
       (Samples.assembly [Samples.clip "a.mp4"; Samples.clip "missing.jpg"] [])
     = (Throw (Error ("Video segment not found: " ++ segment_path s)),
        [Mkdir (dirname Samples.machine
                  (outputPath (Samples.assembly
                     [Samples.clip "a.mp4"; Samples.clip "missing.jpg"] [])))]))
  /\ (forall before t after,
        (forall x, In x (segments (Samples.assembly
                            [Samples.clip "a.mp4"; Samples.clip "missing.jpg"] [])) ->
                   existsSync Samples.machine (segment_path x) = true) ->
        audioTracks (Samples.assembly
                       [Samples.clip "a.mp4"; Samples.clip "missing.jpg"] [])
        = before ++ t :: after ->
        (forall x, In x before -> existsSync Samples.machine (path x) = true) ->
        existsSync Samples.machine (path t) = false ->
        assembleVideo Samples.machine Samples.assemblerDefaults
          (Samples.assembly [Samples.clip "a.mp4"; Samples.clip "missing.jpg"] [])
        = (Throw (Error ("Audio track not found: " ++ path t)),
           [Mkdir (dirname Samples.machine
                     (outputPath (Samples.assembly
                        [Samples.clip "a.mp4"; Samples.clip "missing.jpg"] [])))])).
Proof.
  apply (missing_input_stops_the_assembly Samples.machine Samples.assemblerDefaults
           (Samples.assembly [Samples.clip "a.mp4"; Samples.clip "missing.jpg"] [])).
  reflexivity.
Defined.

Lemma validateInputs_passed (w : World) (params : AssemblyParams) :
  fst (validateInputs w params) = Ok tt ->
  validateInputs w params = (Ok tt, [Mkdir (dirname w (outputPath params))]).
Proof.
  unfold validateInputs, act, andThen, raise, pure.
  destruct (mkdir w (dirname w (outputPath params))) as [[]|e]; [|discriminate].
  destruct (firstMissing w (map segment_path (segments params))); [discriminate|].
  destruct (firstMissing w (map path (audioTracks params))); [discriminate|].
  reflexivity.
Qed.

(** The timeline step starts at most one process. *)
Lemma createVideoTimeline_spawns (w : World) (options : Options)
  (l : list VideoSegment) (out : string) (params : AssemblyParams) :
  spawnCount (snd (createVideoTimeline w options l out params)) <= 1
  /\ (fst (createVideoTimeline w options l out params) = Ok tt ->
      spawnCount (snd (createVideoTimeline w options l out params)) = 1).
Proof.
  assert (C : spawnCount (snd (createConcatFileApproach w options l out params)) <= 1
              /\ (fst (createConcatFileApproach w options l out params) = Ok tt ->
                  spawnCount (snd (createConcatFileApproach w options l out params)) = 1)).
  { unfold createConcatFileApproach, act, andThen, finally, spawn.
    destruct (writeFile w (join w (dirname w out) "concat_list.txt")) as [[]|e];
      cbn [fst snd]; unfold spawnCount; cbn;
      (split; [lia|]); first [discriminate | intros _; reflexivity]. }
  destruct l as [|s [|s' rest]]; try exact C.
  unfold createVideoTimeline, processSingleSegment, spawn, act.
  destruct (getResolutionDimensions (resolution params)) as [wd ht].
  cbn [fst snd]. unfold spawnCount. cbn. split; [lia|reflexivity].
Qed.

Lemma createAudioMix_spawns (w : World) (options : Options)
  (tracks : list AudioTrack) (tempDir : string) :
  spawnCount (snd (createAudioMix w options tracks tempDir))
  = (if (2 <=? List.length tracks)%nat then 1 else 0).
Proof.
  destruct tracks as [|a [|b rest]]; try reflexivity.
  unfold createAudioMix, spawn, act, andThen, pure.
  destruct (run w _); reflexivity.
Qed.

Lemma spawnCount_app (a b : list Event) :
  spawnCount (a ++ b) = spawnCount a + spawnCount b.
Proof. unfold spawnCount. rewrite filter_app, length_app. reflexivity. Qed.

Lemma spawnCount_one (c : Command) : spawnCount [Spawn c] = 1.
Proof. reflexivity. Qed.

Lemma spawnCount_nil : spawnCount [] = 0.
Proof. reflexivity. Qed.

(** X20.  Once the inputs are validated, [assembleVideo] ends with
    the removal of the temporary files that exist, whether the work
    succeeded or failed at any stage.  Between the creation of the
    directory and the cleanup it starts at most three ffmpeg processes;
    when it succeeds it returns the output path of the request after
    exactly two processes, or three when two or more audio tracks are
    mixed. *)
Theorem cleanup_runs_whatever_the_assembly_does (w : World) (options : Options)
  (params : AssemblyParams) :
  fst (validateInputs w params) = Ok tt ->
  exists work,
    snd (assembleVideo w options params)
    = [Mkdir (dirname w (outputPath params))] ++ work
      ++ map Unlink (filter (existsAtCleanup w) (temporaryFiles w params))
    /\ spawnCount work <= 3
    /\ (forall out, fst (assembleVideo w options params) = Ok out ->
        out = outputPath params
        /\ spawnCount work
           = 2 + (if (2 <=? List.length (audioTracks params))%nat then 1 else 0)).
Proof.
  intros V. unfold assembleVideo. rewrite (validateInputs_passed w params V).
  unfold temporaryFiles, cleanup.
  set (tempDir := dirname w (outputPath params)).
  set (tempVideoPath := join w tempDir ("temp_video_" ++ now w ++ ".mp4")).
  set (done := map Unlink _).
  pose proof (createVideoTimeline_spawns w options (segments params)
                tempVideoPath params) as [T1 T2].
  pose proof (createAudioMix_spawns w options (audioTracks params) tempDir) as A1.
  unfold combineVideoAndAudio, spawn, act.
  destruct (createVideoTimeline w options (segments params) tempVideoPath params)
    as [[[]|e] t1]; cbn [fst snd] in T1, T2.
  - destruct (createAudioMix w options (audioTracks params) tempDir)
      as [[audioPath|e] t2]; cbn [fst snd] in A1.
    + cbv beta iota zeta delta [andThen finally pure fst snd].
      destruct (run w (muxCommand options tempVideoPath audioPath
                         (outputPath params))) as [[]|e];
        cbv beta iota zeta delta [andThen finally pure fst snd];
        exists (t1 ++ t2 ++ [Spawn (muxCommand options tempVideoPath audioPath
                                      (outputPath params))]);
        rewrite ?app_nil_r, <- ?app_assoc; (split; [reflexivity|]);
        rewrite !spawnCount_app, A1, spawnCount_one.
      * rewrite (T2 eq_refl).
        split; [destruct (2 <=? List.length (audioTracks params))%nat; lia|].
        intros out H. injection H as <-. split; [reflexivity|].
        destruct (2 <=? List.length (audioTracks params))%nat; lia.
      * split; [destruct (2 <=? List.length (audioTracks params))%nat; lia|].
        intros out H. discriminate.
    + cbv beta iota zeta delta [andThen finally pure fst snd].
      exists (t1 ++ t2). rewrite <- ?app_assoc. split; [reflexivity|].
      rewrite !spawnCount_app, A1.
      split; [destruct (2 <=? List.length (audioTracks params))%nat; lia|].
      intros out H. discriminate.
  - cbv beta iota zeta delta [andThen finally pure fst snd].
    exists t1. split; [reflexivity|]. split; [lia|]. intros out H. discriminate.
Qed.

Lemma cleanup_runs_whatever_the_assembly_does_witness :
  exists work,
    snd (assembleVideo Samples.machine Samples.assemblerDefaults
           (Samples.assembly [Samples.clip "a.mp4"; Samples.clip "b.mp4"]
              [Samples.voice; Samples.backgroundMusic]))
    = [Mkdir (dirname Samples.machine
                (outputPath (Samples.assembly
                   [Samples.clip "a.mp4"; Samples.clip "b.mp4"]
                   [Samples.voice; Samples.backgroundMusic])))]
      ++ work
      ++ map Unlink
           (filter (existsAtCleanup Samples.machine)
              (temporaryFiles Samples.machine
                 (Samples.assembly [Samples.clip "a.mp4"; Samples.clip "b.mp4"]
                    [Samples.voice; Samples.backgroundMusic])))
    /\ spawnCount work <= 3
    /\ (forall out,
          fst (assembleVideo Samples.machine Samples.assemblerDefaults
                 (Samples.assembly [Samples.clip "a.mp4"; Samples.clip "b.mp4"]
                    [Samples.voice; Samples.backgroundMusic])) = Ok out ->
          out = outputPath (Samples.assembly
                              [Samples.clip "a.mp4"; Samples.clip "b.mp4"]
                              [Samples.voice; Samples.backgroundMusic])
          /\ spawnCount work
             = 2 + (if (2 <=? List.length
                                (audioTracks
                                   (Samples.assembly
                                      [Samples.clip "a.mp4"; Samples.clip "b.mp4"]
                                      [Samples.voice; Samples.backgroundMusic])))%nat
                    then 1 else 0)).
Proof.
  apply (cleanup_runs_whatever_the_assembly_does Samples.machine
           Samples.assemblerDefaults
           (Samples.assembly [Samples.clip "a.mp4"; Samples.clip "b.mp4"]
              [Samples.voice; Samples.backgroundMusic])).
  reflexivity.
Defined.

(** X21.  [assembleVideo] does not use the crossfade duration nor the
    aspect ratio of the request, and unless the request has exactly one
    segment it does not use the resolution and the frame rate either:
    changing them changes neither the result nor what is run. *)
Theorem assembly_ignores_presentation_settings (w : World)
  (options : Options) (params : AssemblyParams) :
  (forall crossfade ratio,
     assembleVideo w options (withPresentation params crossfade ratio)
     = assembleVideo w options params)
  /\ (List.length (segments params) <> 1 ->
      forall size rate,
        assembleVideo w options (withFormat params size rate)
        = assembleVideo w options params).
Proof.
  split; [intros crossfade ratio; reflexivity|].
  intros H size rate. unfold assembleVideo.
  cbn [withFormat segments audioTracks outputPath].
  destruct (segments params) as [|s [|s' rest]] eqn:E;
    [reflexivity | simpl in H; congruence | reflexivity].
Qed.

End AssemblerRuns.

Module AssemblerAudio.
Import Js Fx Assembler AssemblerFacts AssemblerRuns.
Local Open Scope list_scope.

Lemma append_nil_r (s : string) : (s ++ EmptyString)%string = s.
Proof. induction s as [|c s IH]; [reflexivity|]. cbn [append]. rewrite IH. reflexivity. Qed.








(** The graph for a voice-over at full volume from the start over music
    at double volume starting after 1.0005 s: the chain of the voice-over
    names no filter, and the delay of the music is 1001 ms, the product
    [1.0005 * 1000] being the double 1000.5. *)
Example voice_over_late_music :
  buildAudioMixFilter Samples.machine [Samples.voice; Samples.lateMusic]
  = ["[0:a][a0]";
     "[1:a]volume=2,adelay=1001|1001[a1]";
     "[a0][a1]amix=inputs=2:duration=longest[mixed_audio]"].
Proof. vm_compute. reflexivity. Qed.

End AssemblerAudio.

Module PipelineFacts.
Import Js Veo VeoClient VeoFacts Pipeline.
Local Open Scope list_scope.

Lemma pollOperation_submissions (w : World) (operationName token : string)
  (maxAttempts : nat) (st : St) :
  submissions (snd (pollOperation w operationName token maxAttempts st))
  = submissions st.
Proof.
  unfold pollOperation.
  destruct (pollLoop w operationName token maxAttempts maxAttempts 0 st)
    as [[outcome st']|] eqn:L; [|reflexivity].
  apply pollLoop_trace in L as [S2 _]. exact S2.
Qed.

Lemma processResult_submissions (w : World) (operation : VeoOperation)
  (params : VeoParams) (st : St) :
  submissions (snd (processResult w operation params st)) = submissions st
  /\ (forall clip, fst (processResult w operation params st) = Ok clip ->
      result_duration clip = duration params).
Proof.
  unfold processResult, downloadFromGcs, extractLastFrame, bindM, lift, emit,
    mathRandom, ret, throw.
  destruct (selectVideoUri operation) as [uri|e];
    [destruct (parseGcsUri uri) as [[bucket object]|];
     [destruct (storageDownload w uri (join w (tmpDir w) (freshName w)));
      [destruct (ffmpegExtract w (join w (tmpDir w) (freshName w)))|]|]|];
    cbn [fst snd submissions]; (split; [reflexivity|]);
    intros clip H; try discriminate.
  injection H as <-. reflexivity.
Qed.

Lemma generateClip_submissions (w : World) (params : VeoParams) (st : St) :
  submissions (snd (generateClip w params st)) <= S (submissions st)
  /\ (forall clip, fst (generateClip w params st) = Ok clip ->
      submissions (snd (generateClip w params st)) = S (submissions st)
      /\ result_duration clip = duration params).
Proof.
  unfold generateClip, submitRequest, fetchSubmit, bindM, lift, throw.
  destruct (getAccessToken w) as [token|e]; cbv beta iota;
    [|cbn [fst snd]; split; [lia|intros clip H; discriminate]].
  destruct (submitReply w (submissions st)) as [resp|e]; cbv beta iota;
    [|cbn [fst snd submissions]; split; [lia|intros clip H; discriminate]].
  destruct (negb (ok resp)); cbv beta iota;
    [cbn [fst snd submissions]; split; [lia|intros clip H; discriminate]|].
  destruct (json resp) as [operation|e]; cbv beta iota;
    [|cbn [fst snd submissions]; split; [lia|intros clip H; discriminate]].
  match goal with |- context [pollOperation w ?n ?t ?m ?s] =>
    pose proof (pollOperation_submissions w n t m s) as P;
    destruct (pollOperation w n t m s) as [[polled|e] st2]
  end; cbn [fst snd submissions] in P |- *.
  - destruct (processResult_submissions w polled params st2) as [A B].
    rewrite A, P. split; [lia|]. intros clip H. split; [reflexivity|].
    apply B. exact H.
  - rewrite P. split; [lia|]. intros clip H. discriminate.
Qed.

(** From the third turn on the scene before the current one is read
    from a list of one scene. *)
Lemma generateVeoSegment_late (stage : Stage) (basename : string -> string)
  (config : HomeTourConfig) (scene other : Planner.Scene) (i : nat) (st : St) :
  2 <= i ->
  exists e,
    generateVeoSegment stage basename config scene [other] i st = (Throw e, st)
    /\ (forall uris,
          uploadImages stage basename config (Planner.images scene) 0 = Ok uris ->
          e = undefinedRoom).
Proof.
  intros H. unfold generateVeoSegment, bindM, lift.
  destruct (uploadImages stage basename config (Planner.images scene) 0)
    as [uris|e].
  - unfold previousRoom. destruct (Nat.ltb_spec 0 i); [|lia].
    destruct (i - 1) as [|[|k]] eqn:E; [lia| |]; cbn [nth_error];
      (exists undefinedRoom; split; [reflexivity|intros; reflexivity]).
  - exists e. split; [reflexivity|]. intros uris U. discriminate.
Qed.

Lemma four_seconds (scene : Planner.Scene) :
  Planner.duration scene = of_nat 4 ->
  min (of_nat 4) (round (Planner.duration scene)) = of_nat 4.
Proof. intros ->. reflexivity. Qed.

Lemma generateVeoSegment_single (stage : Stage) (basename : string -> string)
  (config : HomeTourConfig) (image : Planner.ImageInput) (i : nat) (st : St) :
  let scene := singleImageScene image i in
  submissions (snd (generateVeoSegment stage basename config scene [scene] i st))
  <= S (submissions st)
  /\ (2 <= i ->
      submissions (snd (generateVeoSegment stage basename config scene [scene] i st))
      = submissions st)
  /\ (forall segment,
        fst (generateVeoSegment stage basename config scene [scene] i st)
        = Ok segment ->
        i <= 1
        /\ submissions
             (snd (generateVeoSegment stage basename config scene [scene] i st))
           = S (submissions st)
        /\ fourSecondClip segment).
Proof.
  intros scene.
  destruct (Nat.le_gt_cases i 1) as [Hi | Hi].
  - unfold generateVeoSegment, bindM, lift, ret, throw.
    destruct (uploadImages stage basename config (Planner.images scene) 0)
      as [uris|e];
      [|cbn [fst snd]; split; [lia|split; [lia|intros s H; discriminate]]].
    assert (P : previousRoom [scene] i = Ok None
                \/ previousRoom [scene] i = Ok (Some "home")).
    { destruct i as [|[|i]]; [left; reflexivity|right; reflexivity|lia]. }
    assert (N : nextRoom [scene] i = Ok None).
    { unfold nextRoom. destruct i; reflexivity. }
    rewrite N. destruct P as [-> | ->]; cbv beta iota.
    all: destruct uris as [|primary uris'].
    all: try (destruct (getAccessToken (service stage));
              cbn [fst snd]; (split; [lia|]); (split; [lia|]); intros;
              match goal with H : Throw _ = Ok _ |- _ => discriminate H end).
    all: match goal with |- context [generateClip ?w ?p ?s] =>
           destruct (generateClip_submissions w p s) as [A B];
           destruct (generateClip w p s) as [[clip|e] st1]
         end; cbn [fst snd] in *;
         (split; [exact A|]); (split; [lia|]); intros s H; try discriminate;
         injection H as <-; destruct (B clip eq_refl) as [B1 B2];
         (split; [exact Hi|]); (split; [exact B1|]);
         unfold fourSecondClip;
         cbn [Assembler.segment_duration Assembler.segment_type Assembler.room];
         rewrite B2; repeat split; reflexivity.
  - destruct (generateVeoSegment_late stage basename config scene scene i st Hi)
      as [e [E _]].
    rewrite E. cbn [fst snd]. split; [lia|]. split; [reflexivity|].
    intros s H. discriminate.
Qed.

Lemma segmentsFrom_outcome (stages : nat -> Stage) (basename : string -> string)
  (config : HomeTourConfig) :
  forall (l : list Planner.ImageInput) (i : nat) (st : St),
  submissions (snd (segmentsFrom stages basename config i l st))
  <= submissions st + Nat.min (List.length l) (2 - i)
  /\ (forall segments,
        fst (segmentsFrom stages basename config i l st) = Ok segments ->
        (l <> [] -> i + List.length l <= 2)
        /\ List.length segments = List.length l
        /\ Forall fourSecondClip segments
        /\ submissions (snd (segmentsFrom stages basename config i l st))
           = submissions st + List.length l).
Proof.
  induction l as [|image l IH]; intros i st.
  - cbn [segmentsFrom]. unfold ret. cbn [fst snd List.length]. split; [lia|].
    intros segments H. injection H as <-.
    repeat split; try lia; try constructor. congruence.
  - cbn [segmentsFrom List.length]. unfold bindM, ret.
    destruct (generateVeoSegment_single (stages i) basename config image i st)
      as [A [A' B]].
    destruct (generateVeoSegment (stages i) basename config
                (singleImageScene image i) [singleImageScene image i] i st)
      as [[segment|e] st1]; cbn [fst snd] in A, A', B.
    + destruct (B segment eq_refl) as [Hi [S1 F1]].
      destruct (IH (S i) st1) as [A2 B2].
      destruct (segmentsFrom stages basename config (S i) l st1)
        as [[segments|e] st2]; cbn [fst snd] in *.
      * destruct (B2 segments eq_refl) as [L2 [Len2 [F2 S2]]].
        split; [lia|]. intros segs H. injection H as <-.
        split; [intros _; destruct l; [simpl; lia|
                 specialize (L2 ltac:(discriminate)); simpl in *; lia]|].
        split; [simpl; lia|]. split; [constructor; assumption|]. simpl. lia.
      * split; [simpl List.length; lia|]. intros segs H. discriminate.
    + cbn [fst snd]. split; [destruct (Nat.le_gt_cases 2 i); [specialize (A' ltac:(lia))|]; lia|].
      intros segs H. discriminate.
Qed.


(** X22.  With three or more images [generateVideoSegments] always
    fails, having submitted at most two generation jobs: every image is
    processed as a scene list of one scene, and from the third image on
    [generateVeoSegment] reads the room of the scene before the current
    index in that list, which does not exist.  When the first two images
    yield their clips and the third image is uploaded, the failure is
    the runtime's error for reading [room] of [undefined], and the two
    clips are lost. *)
Theorem video_generation_fails_at_the_third_image (stages : nat -> Stage)
  (basename : string -> string) (config : HomeTourConfig)
  (inputImages : list Planner.ImageInput) (st : St) :
  3 <= List.length inputImages ->
  (exists e,
     fst (generateVideoSegments stages basename config inputImages st) = Throw e)
  /\ submissions (snd (generateVideoSegments stages basename config inputImages st))
     <= submissions st + 2
  /\ (forall first second third rest s0 st0 s1 st1 uris,
        Planner.sortBy (fun image => fileNumber (basename (Planner.path image)))
                       inputImages
        = first :: second :: third :: rest ->
        generateVeoSegment (stages 0) basename config
          (singleImageScene first 0) [singleImageScene first 0] 0 st
        = (Ok s0, st0) ->
        generateVeoSegment (stages 1) basename config
          (singleImageScene second 1) [singleImageScene second 1] 1 st0
        = (Ok s1, st1) ->
        uploadImages (stages 2) basename config [third] 0 = Ok uris ->
        generateVideoSegments stages basename config inputImages st
        = (Throw undefinedRoom, st1)).
Proof.
  intros H. unfold generateVideoSegments.
  set (sorted := Planner.sortBy _ inputImages).
  assert (L : List.length sorted = List.length inputImages).
  { apply Permutation_length. apply PlannerFacts.sortBy_perm. }
  destruct (segmentsFrom_outcome stages basename config sorted 0 st) as [A B].
  split; [|split].
  - destruct (segmentsFrom stages basename config 0 sorted st) as [[segments|e] st']
      eqn:E; cbn [fst snd] in *.
    + destruct (B segments eq_refl) as [C _].
      assert (N : sorted <> []) by (intros Z; rewrite Z in L; simpl in L; lia).
      specialize (C N). lia.
    + exists e. reflexivity.
  - lia.
  - intros first second third rest s0 st0 s1 st1 uris E G0 G1 U.
    rewrite E. cbn [segmentsFrom]. unfold bindM. cbv beta. rewrite G0.
    cbv beta iota. rewrite G1. cbv beta iota.
    destruct (generateVeoSegment_late (stages 2) basename config
                (singleImageScene third 2) (singleImageScene third 2) 2 st1
                ltac:(lia)) as [e [G2 Ee]].
    rewrite G2. rewrite (Ee uris U). reflexivity.
Qed.

Lemma video_generation_fails_at_the_third_image_witness :
  (exists e,
     fst (generateVideoSegments (fun _ => Samples.steadyStage) Samples.fileName
            (Samples.tourConfig false None) Samples.threeNumbered initial)
     = Throw e)
  /\ submissions
       (snd (generateVideoSegments (fun _ => Samples.steadyStage) Samples.fileName
               (Samples.tourConfig false None) Samples.threeNumbered initial))
     <= submissions initial + 2
  /\ (forall first second third rest s0 st0 s1 st1 uris,
        Planner.sortBy
          (fun image => fileNumber (Samples.fileName (Planner.path image)))
          Samples.threeNumbered
        = first :: second :: third :: rest ->
        generateVeoSegment Samples.steadyStage Samples.fileName
          (Samples.tourConfig false None)
          (singleImageScene first 0) [singleImageScene first 0] 0 initial
        = (Ok s0, st0) ->
        generateVeoSegment Samples.steadyStage Samples.fileName
          (Samples.tourConfig false None)
          (singleImageScene second 1) [singleImageScene second 1] 1 st0
        = (Ok s1, st1) ->
        uploadImages Samples.steadyStage Samples.fileName
          (Samples.tourConfig false None) [third] 0 = Ok uris ->
        generateVideoSegments (fun _ => Samples.steadyStage) Samples.fileName
          (Samples.tourConfig false None) Samples.threeNumbered initial
        = (Throw undefinedRoom, st1)).
Proof.
  apply (video_generation_fails_at_the_third_image
           (fun _ => Samples.steadyStage) Samples.fileName
           (Samples.tourConfig false None) Samples.threeNumbered initial).
  simpl. lia.
Defined.

(** X23.  When [generateVideoSegments] succeeds there were at most
    two images, and it returns one segment per image, each of four
    seconds, of type [veo] and for the room ['home'], after exactly one
    submission per image. *)
Theorem one_four_second_clip_per_image (stages : nat -> Stage)
  (basename : string -> string) (config : HomeTourConfig)
  (inputImages : list Planner.ImageInput) (st : St)
  (segments : list Assembler.VideoSegment) :
  fst (generateVideoSegments stages basename config inputImages st) = Ok segments ->
  List.length inputImages <= 2
  /\ List.length segments = List.length inputImages
  /\ Forall fourSecondClip segments
  /\ submissions (snd (generateVideoSegments stages basename config inputImages st))
     = submissions st + List.length inputImages.
Proof.
  unfold generateVideoSegments.
  set (sorted := Planner.sortBy _ inputImages).
  assert (L : List.length sorted = List.length inputImages).
  { apply Permutation_length. apply PlannerFacts.sortBy_perm. }
  intros H.
  destruct (segmentsFrom_outcome stages basename config sorted 0 st) as [_ B].
  destruct (B segments H) as [C [Len [F Sb]]].
  rewrite <- L. split; [|split; [exact Len|split; [exact F|exact Sb]]].
  destruct sorted as [|x sorted']; [simpl; lia|].
  specialize (C ltac:(discriminate)). lia.
Qed.

Lemma one_four_second_clip_per_image_witness :
  List.length Samples.twoNumbered <= 2
  /\ List.length
       (Samples.segmentsOf
          (fst (generateVideoSegments (fun _ => Samples.steadyStage)
                  Samples.fileName (Samples.tourConfig false None)
                  Samples.twoNumbered initial)))
     = List.length Samples.twoNumbered
  /\ Forall fourSecondClip
       (Samples.segmentsOf
          (fst (generateVideoSegments (fun _ => Samples.steadyStage)
                  Samples.fileName (Samples.tourConfig false None)
                  Samples.twoNumbered initial)))
  /\ submissions
       (snd (generateVideoSegments (fun _ => Samples.steadyStage)
               Samples.fileName (Samples.tourConfig false None)
               Samples.twoNumbered initial))
     = submissions initial + List.length Samples.twoNumbered.
Proof.
  apply (one_four_second_clip_per_image (fun _ => Samples.steadyStage)
           Samples.fileName (Samples.tourConfig false None)
           Samples.twoNumbered initial).
  vm_compute. reflexivity.
Defined.

End PipelineFacts.

Module BrandingFacts.
Import Js Branding.
Local Open Scope list_scope.

Lemma segmentDuration_finite (qs : list Q) (index : nat) :
  exists c, segmentDuration (map Fin qs) index = Fin c
            /\ (c == countedSeconds qs index)%Q.
Proof.
  unfold segmentDuration, countedSeconds. rewrite nth_error_map.
  destruct (nth_error qs index) as [q|]; cbn [option_map truthyNumber].
  - destruct (Qeq_bool q 0).
    + eexists. split; [reflexivity|]. reflexivity.
    + exists q. split; [reflexivity|]. reflexivity.
  - eexists. split; [reflexivity|]. reflexivity.
Qed.

Lemma lowerThirdsFrom_length (up : string -> string) (rooms : list string) :
  forall durations chosen index t,
    List.length (lowerThirdsFrom up rooms durations chosen index t)
    = List.length rooms.
Proof.
  induction rooms as [|room rest IH]; intros durations chosen index t;
    cbn [lowerThirdsFrom List.length]; [reflexivity|].
  rewrite IH. reflexivity.
Qed.

Lemma lowerThirdsFrom_nth (up : string -> string) (qs : list Q) (chosen : Style) :
  forall rooms index t i l,
    nth_error (lowerThirdsFrom up rooms (map Fin qs) chosen index (Fin t)) i
    = Some l ->
    exists room,
      nth_error rooms i = Some room
      /\ text l = labelOf up room
      /\ shownBetween (t + 1 + sumQ (map (countedSeconds qs) (seq index i)))
                      (t + 4 + sumQ (map (countedSeconds qs) (seq index i))) l
      /\ position l = Some bottomLeft
      /\ style l = Some chosen.
Proof.
  induction rooms as [|room rest IH]; intros index t i l H.
  - destruct i; discriminate H.
  - cbn [lowerThirdsFrom] in H. destruct i as [|i].
    + cbn [nth_error] in H. injection H as <-. exists room.
      cbn [nth_error text position style seq map sumQ fold_right].
      split; [reflexivity|]. split; [reflexivity|].
      split; [|split; reflexivity].
      exists (t + inject_Z (Z.of_nat 1))%Q, (inject_Z (Z.of_nat 3)).
      cbn [startTime duration]. split; [reflexivity|]. split; [reflexivity|].
      split.
      * change (inject_Z (Z.of_nat 1)) with 1%Q. lra.
      * change (inject_Z (Z.of_nat 1)) with 1%Q.
        change (inject_Z (Z.of_nat 3)) with 3%Q. lra.
    + cbn [nth_error] in H.
      destruct (segmentDuration_finite qs index) as [c [E C]].
      rewrite E in H. cbn [add] in H.
      destruct (IH (S index) (t + c)%Q i l H) as [found [N [T [[s [d [A [B [F G]]]]] [P Y]]]]].
      exists found. cbn [nth_error seq map sumQ fold_right].
      split; [exact N|]. split; [exact T|]. split; [|split; assumption].
      exists s, d. split; [exact A|]. split; [exact B|].
      fold (sumQ (map (countedSeconds qs) (seq (S index) i))).
      fold (sumQ (map (countedSeconds qs) (seq (S index) i))) in F, G.
      split; lra.
Qed.

(** The first character is upper-cased as a whole, also when it takes
    two bytes; a room that starts with a character outside the basic
    plane (four bytes, here a house) is left as it is. *)
Example capitalize_reads_the_first_character :
  capitalize Samples.upperCaseOfAccent (Samples.eAcute ++ "lan")
  = (Samples.capitalEAcute ++ "lan")%string
  /\ capitalize Samples.upperCaseOfAccent
       (String "240"%char (String "159"%char (String "143"%char
          (String "160"%char " view"))))
     = String "240"%char (String "159"%char (String "143"%char
         (String "160"%char " view"))).
Proof. split; reflexivity. Qed.

(** X24.  [generateRoomLowerThirds] makes one lower third per room,
    in order.  With finite segment durations, the lower third of the
    [i]-th room carries the label of the room (the label of the table,
    or else the room's name with its first character, a UTF-16 unit,
    upper-cased by the runtime), starts one second after the segments
    before it and is shown for three seconds, at the bottom left in the
    chosen style ([bar] by default); a segment whose duration is zero
    or missing counts for six seconds. *)
Theorem lower_thirds_follow_the_segments (toUpperCase : string -> string)
  (rooms : list string) (segmentDurations : list Q) (chosen : option Style) :
  List.length (generateRoomLowerThirds toUpperCase rooms
                 (map Fin segmentDurations) chosen)
  = List.length rooms
  /\ (forall i l,
        nth_error (generateRoomLowerThirds toUpperCase rooms
                     (map Fin segmentDurations) chosen) i = Some l ->
        exists room,
          nth_error rooms i = Some room
          /\ text l = labelOf toUpperCase room
          /\ shownBetween
               (1 + sumQ (map (countedSeconds segmentDurations) (seq 0 i)))
               (4 + sumQ (map (countedSeconds segmentDurations) (seq 0 i))) l
          /\ position l = Some bottomLeft
          /\ style l = Some (match chosen with Some given => given | None => bar end)).
Proof.
  unfold generateRoomLowerThirds. split.
  - apply lowerThirdsFrom_length.
  - intros i l H.
    change (of_nat 0) with (Fin 0%Q) in H.
    destruct (lowerThirdsFrom_nth _ _ _ _ _ _ _ _ H)
      as [room [N [T [[s [d [A [B [F G]]]]] [P Y]]]]].
    exists room. split; [exact N|]. split; [exact T|].
    split; [|split; assumption].
    exists s, d. split; [exact A|]. split; [exact B|]. split; lra.
Qed.

End BrandingFacts.

Module AudioFacts.
Import Js Pipeline.
Local Open Scope list_scope.

(** X25.  [generateAudioTracks] returns at most one voiceover track
    followed by at most one music track.  The voiceover plays at volume
    1 and there is none without a voiceover configuration and a listing;
    the music track is there exactly when music is configured, and its
    volume is the configured one (0.3 when zero or missing), times 0.4
    when a voiceover track precedes it.  Every track starts at 0 and
    lasts the target duration, so that no chain of the assembler's audio
    mix delays a track. *)
Theorem audio_tracks_are_voiceover_then_ducked_music (w : Fx.World)
  (synthesizeVoiceover : TTSParams -> result unit) (script tmpDir : string)
  (config : HomeTourConfig) (tracks : list Assembler.AudioTrack) :
  generateAudioTracks w synthesizeVoiceover script tmpDir config = Ok tracks ->
  exists voiceTracks musicTracks,
    tracks = voiceTracks ++ musicTracks
    /\ List.length voiceTracks <= 1
    /\ Forall (fun t => Assembler.type t = Assembler.voiceover
                        /\ Assembler.volume t = Fin 1%Q) voiceTracks
    /\ (voiceover config = None -> listing config = None -> voiceTracks = [])
    /\ (music config = None -> musicTracks = [])
    /\ (forall m, music config = Some m ->
        exists track,
          musicTracks = [track]
          /\ Assembler.type track = Assembler.music
          /\ Assembler.path track = music_path m
          /\ Assembler.volume track
             = match voiceTracks with
               | [] => musicVolume m
               | _ => mul (musicVolume m) (Fin (4 # 10))
               end)
    /\ Forall (fun t => Assembler.startTime t = of_nat 0
                        /\ Assembler.duration t
                           = Planner.targetSeconds (output config)) tracks
    /\ Forall undelayed (Assembler.buildAudioMixGraph tracks).
Proof.
  unfold generateAudioTracks. intros H.
  match type of H with bind ?v _ = _ => destruct v as [voiceTracks|e] eqn:V end;
    [|discriminate H].
  cbn [bind] in H. injection H as <-.
  assert (Shape : voiceTracks = []
                  \/ exists p, voiceTracks
                     = [ {| Assembler.path := p;
                            Assembler.type := Assembler.voiceover;
                            Assembler.volume := Fin 1%Q;
                            Assembler.startTime := of_nat 0;
                            Assembler.duration :=
                              Planner.targetSeconds (output config) |} ]).
  { destruct (isSome (voiceover config) || isSome (listing config)).
    - match type of V with
      | match ?c with _ => _ end = _ => destruct c as [spoken|]
      end.
      + match type of V with bind ?s _ = _ => destruct s as [[]|e] end;
          [|discriminate V].
        cbn [bind] in V. injection V as <-. right. eexists. reflexivity.
      + injection V as <-. left. reflexivity.
    - injection V as <-. left. reflexivity. }
  assert (Quiet : voiceover config = None -> listing config = None ->
                  voiceTracks = []).
  { intros A B. rewrite A, B in V. cbn in V. injection V as <-. reflexivity. }
  eexists voiceTracks, _. split; [reflexivity|].
  destruct Shape as [-> | [p ->]]; destruct (music config) as [m|];
    (split; [cbn [List.length]; lia|]);
    (split; [repeat constructor|]);
    (split; [exact Quiet|]);
    (split; [intros Z; first [discriminate Z | reflexivity]|]);
    (split; [intros m' Z; first [discriminate Z | injection Z as <-; eexists;
               split; [reflexivity|]; split; [reflexivity|];
               split; reflexivity]|]);
    (split; [repeat constructor|]).
  all: unfold Assembler.buildAudioMixGraph; cbn [app Assembler.trackChains];
    repeat (apply Forall_cons || apply Forall_nil);
    try exact I;
    unfold Assembler.trackChain, undelayed;
    cbn [Assembler.startTime Assembler.volume];
    change (gtb (of_nat 0) (of_nat 0)) with false;
    rewrite app_nil_r;
    match goal with |- context [if ?c then _ else _] => destruct c end;
    repeat constructor.
Qed.

Lemma audio_tracks_are_voiceover_then_ducked_music_witness :
  exists voiceTracks musicTracks,
    [ {| Assembler.path := ".cache/home-tour/voiceover_1700000000000.mp3";
         Assembler.type := Assembler.voiceover;
         Assembler.volume := Fin 1%Q;
         Assembler.startTime := of_nat 0;
         Assembler.duration := of_nat 90 |};
      {| Assembler.path := "music.mp3";
         Assembler.type := Assembler.music;
         Assembler.volume := mul (Fin (1 # 2)) (Fin (4 # 10));
         Assembler.startTime := of_nat 0;
         Assembler.duration := of_nat 90 |} ]
    = voiceTracks ++ musicTracks
    /\ List.length voiceTracks <= 1
    /\ Forall (fun t => Assembler.type t = Assembler.voiceover
                        /\ Assembler.volume t = Fin 1%Q) voiceTracks
    /\ (voiceover (Samples.tourConfig true (Some Samples.quietMusic)) = None ->
        listing (Samples.tourConfig true (Some Samples.quietMusic)) = None ->
        voiceTracks = [])
    /\ (music (Samples.tourConfig true (Some Samples.quietMusic)) = None ->
        musicTracks = [])
    /\ (forall m,
          music (Samples.tourConfig true (Some Samples.quietMusic)) = Some m ->
          exists track,
            musicTracks = [track]
            /\ Assembler.type track = Assembler.music
            /\ Assembler.path track = music_path m
            /\ Assembler.volume track
               = match voiceTracks with
                 | [] => musicVolume m
                 | _ => mul (musicVolume m) (Fin (4 # 10))
                 end)
    /\ Forall (fun t => Assembler.startTime t = of_nat 0
                        /\ Assembler.duration t
                           = Planner.targetSeconds
                               (output (Samples.tourConfig true
                                          (Some Samples.quietMusic))))
         [ {| Assembler.path := ".cache/home-tour/voiceover_1700000000000.mp3";
              Assembler.type := Assembler.voiceover;
              Assembler.volume := Fin 1%Q;
              Assembler.startTime := of_nat 0;
              Assembler.duration := of_nat 90 |};
           {| Assembler.path := "music.mp3";
              Assembler.type := Assembler.music;
              Assembler.volume := mul (Fin (1 # 2)) (Fin (4 # 10));
              Assembler.startTime := of_nat 0;
              Assembler.duration := of_nat 90 |} ]
    /\ Forall undelayed
         (Assembler.buildAudioMixGraph
            [ {| Assembler.path := ".cache/home-tour/voiceover_1700000000000.mp3";
                 Assembler.type := Assembler.voiceover;
                 Assembler.volume := Fin 1%Q;
                 Assembler.startTime := of_nat 0;
                 Assembler.duration := of_nat 90 |};
              {| Assembler.path := "music.mp3";
                 Assembler.type := Assembler.music;
                 Assembler.volume := mul (Fin (1 # 2)) (Fin (4 # 10));
                 Assembler.startTime := of_nat 0;
                 Assembler.duration := of_nat 90 |} ]).
Proof.
  apply (audio_tracks_are_voiceover_then_ducked_music Samples.machine
           (fun _ => Ok tt) "Welcome home." ".cache/home-tour"
           (Samples.tourConfig true (Some Samples.quietMusic))).
  reflexivity.
Defined.

End AudioFacts.
